(** * Portfolio site scripts: a shallow embedding and its properties

    The repository is a set of independent DOM listener modules.  Each
    module below embeds one script: the module-scoped variables and the
    DOM elements the script touches become fields of a state record, an
    event handler becomes a function on that state, and a thrown
    exception (or rejected promise) becomes an explicit [Thrown] result.

    - [JsString], [RegExp] : the string primitives used by the form
      validator ([String.prototype.trim], [length], [RegExp.test]).
    - [ContactForm] : [js/contact-form.js], [FORM_CONFIG], [validateField].
    - [Js], [Dom] : completions, array slices, and element trees as
      far as the loaders build them.
    - [Projects], [Gallery] : [js/projects.js], [js/gallery.js]; calls
      made one after the other ([step], [run]) and calls that overlap
      at [await fetch] ([loader], [react], [play]).
    - [ThemeToggle] : the theme script.
    - [NavBar] : the navigation script.
    - [FormUi] : the rest of [js/contact-form.js]: feedback for one
      input and for the inputs of a form with their parents, the
      submission gate, debounced validation, the character counter.
    - [Lightbox] : the lightbox of [js/gallery.js].
    - [Menu] : the mobile menu and the link clicks of the navigation
      script.
    - [ThemePage] : the page load of the theme script and event runs. *)

From Stdlib Require Import NArith ZArith Ascii String.
From stdpp Require Import base list strings gmap.

Local Open Scope string_scope.
Local Open Scope list_scope.

(** ** JavaScript strings *)

Module JsString.

(** A JavaScript string is a sequence of UTF-16 code units; [length]
    counts code units.  Code units are kept as [N]. *)
Definition code_unit := N.
Definition jsstring := list code_unit.

(** String and character literals of the scripts are ASCII. *)
Definition cu (a : ascii) : code_unit := N_of_ascii a.

Definition js (s : string) : jsstring :=
  map cu (list_ascii_of_string s).

(** ECMAScript [WhiteSpace] and [LineTerminator] code points: the set
    stripped by [trim] and matched by the [\s] class escape. *)
Definition is_whitespace (c : code_unit) : bool :=
  ((c =? 9) || (c =? 10) || (c =? 11) || (c =? 12) || (c =? 13)
   || (c =? 32) || (c =? 160) || (c =? 5760)
   || ((8192 <=? c) && (c <=? 8202))
   || (c =? 8232) || (c =? 8233) || (c =? 8239) || (c =? 8287)
   || (c =? 12288) || (c =? 65279))%N.

Fixpoint trimStart (s : jsstring) : jsstring :=
  match s with
  | [] => []
  | c :: s' => if is_whitespace c then trimStart s' else s
  end.

Definition trimEnd (s : jsstring) : jsstring :=
  rev (trimStart (rev s)).

(** [String.prototype.trim] *)
Definition trim (s : jsstring) : jsstring := trimEnd (trimStart s).

(** A string is falsy exactly when it is empty. *)
Definition truthy (s : jsstring) : bool :=
  match s with [] => false | _ :: _ => true end.

Definition all_whitespace (s : jsstring) : Prop :=
  Forall (fun c => is_whitespace c = true) s.

End JsString.

(** ** Regular expressions

    The two patterns of [FORM_CONFIG] are of the shape [/^ body $/]
    without flags, so [test] succeeds exactly when the whole string is
    in the language of [body].  Membership is decided with Brzozowski
    derivatives over code units. *)

Module RegExp.
Import JsString.

Inductive class_atom :=
| CChar (c : code_unit)          (* a literal character in a class *)
| CRange (lo hi : code_unit)     (* lo-hi *)
| CSpace.                        (* \s *)

Definition atom_matches (a : class_atom) (c : code_unit) : bool :=
  match a with
  | CChar d => (c =? d)%N
  | CRange lo hi => ((lo <=? c) && (c <=? hi))%N
  | CSpace => is_whitespace c
  end.

Inductive regex :=
| Void                                           (* matches nothing *)
| Eps                                            (* the empty string *)
| Class (negated : bool) (atoms : list class_atom) (* [..] or [^..] *)
| Cat (r1 r2 : regex)
| Alt (r1 r2 : regex)
| Star (r : regex).

(** [r+] *)
Definition Plus (r : regex) : regex := Cat r (Star r).

(** a single literal character, such as [@] or [\.] *)
Definition Chr (a : ascii) : regex := Class false [CChar (cu a)].

Definition class_matches (negated : bool) (atoms : list class_atom)
    (c : code_unit) : bool :=
  xorb negated (existsb (fun a => atom_matches a c) atoms).

Fixpoint nullable (r : regex) : bool :=
  match r with
  | Void => false
  | Eps => true
  | Class _ _ => false
  | Cat r1 r2 => nullable r1 && nullable r2
  | Alt r1 r2 => nullable r1 || nullable r2
  | Star _ => true
  end.

Fixpoint deriv (c : code_unit) (r : regex) : regex :=
  match r with
  | Void => Void
  | Eps => Void
  | Class n atoms => if class_matches n atoms c then Eps else Void
  | Cat r1 r2 =>
      if nullable r1
      then Alt (Cat (deriv c r1) r2) (deriv c r2)
      else Cat (deriv c r1) r2
  | Alt r1 r2 => Alt (deriv c r1) (deriv c r2)
  | Star r1 => Cat (deriv c r1) (Star r1)
  end.

(** [/^r$/.test(s)] *)
Definition test (r : regex) (s : jsstring) : bool :=
  nullable (fold_left (fun r c => deriv c r) s r).

(** The language of a pattern, as a relation: the reference the
    derivative matcher is checked against. *)
Inductive Matches : regex -> jsstring -> Prop :=
| MEps : Matches Eps []
| MClass n atoms c :
    class_matches n atoms c = true -> Matches (Class n atoms) [c]
| MCat r1 r2 s1 s2 :
    Matches r1 s1 -> Matches r2 s2 -> Matches (Cat r1 r2) (s1 ++ s2)
| MAltL r1 r2 s : Matches r1 s -> Matches (Alt r1 r2) s
| MAltR r1 r2 s : Matches r2 s -> Matches (Alt r1 r2) s
| MStarNil r : Matches (Star r) []
| MStarApp r s1 s2 :
    Matches r s1 -> Matches (Star r) s2 -> Matches (Star r) (s1 ++ s2).

End RegExp.

(** ** Contact form: [js/contact-form.js] *)

Module ContactForm.
Import JsString RegExp.

(** One entry of [FORM_CONFIG.validationRules].  A property the
    literal does not give is [undefined]: [false] for [required],
    [None] for the others. *)
Record rules := {
  required : bool;
  minLength : option nat;
  maxLength : option nat;
  pattern : option regex;
  message : jsstring
}.

(** [/^[a-zA-Z\s]+$/] *)
Definition name_pattern : regex :=
  Plus (Class false [CRange (cu "a") (cu "z"); CRange (cu "A") (cu "Z"); CSpace]).

(** [/^[^\s@]+@[^\s@]+\.[^\s@]+$/] *)
Definition email_pattern : regex :=
  let nsa := Class true [CSpace; CChar (cu "@")] in
  Cat (Plus nsa) (Cat (Chr "@") (Cat (Plus nsa) (Cat (Chr ".") (Plus nsa)))).

Definition name_rules : rules :=
  {| required := true; minLength := Some 2; maxLength := None;
     pattern := Some name_pattern;
     message := js "Please enter a valid name (letters only, min 2 characters)" |}.

Definition email_rules : rules :=
  {| required := true; minLength := None; maxLength := None;
     pattern := Some email_pattern;
     message := js "Please enter a valid email address" |}.

Definition subject_rules : rules :=
  {| required := true; minLength := Some 5; maxLength := None;
     pattern := None;
     message := js "Subject must be at least 5 characters long" |}.

Definition message_rules : rules :=
  {| required := true; minLength := Some 10; maxLength := Some 1000;
     pattern := None;
     message := js "Message must be between 10 and 1000 characters" |}.

(** [FORM_CONFIG.validationRules], keyed by field name. *)
Definition validationRules : gmap jsstring rules :=
  <[js "name" := name_rules]>
    (<[js "email" := email_rules]>
       (<[js "subject" := subject_rules]>
          (<[js "message" := message_rules]> ∅))).

(** An input or textarea element, as far as [validateField] reads it. *)
Record field := { name : jsstring; value : jsstring }.

(** The object [{ isValid, message }] that [validateField] returns. *)
Record validation := { isValid : bool; feedback : jsstring }.

(** [c.toUpperCase()] on the ASCII letters, which is all the four
    keys of [validationRules] need; other code units are left as they
    are. *)
Definition toUpperCase (c : code_unit) : code_unit :=
  if ((cu "a" <=? c) && (c <=? cu "z"))%N then (c - 32)%N else c.

(** [fieldName.charAt(0).toUpperCase() + fieldName.slice(1)] *)
Definition capitalize (s : jsstring) : jsstring :=
  match s with
  | [] => []
  | c :: rest => toUpperCase c :: rest
  end.

(** A length bound takes part in a check only when it is truthy, that
    is, present and not [0]. *)
Definition bound_set (b : option nat) : option nat :=
  match b with
  | Some 0 => None
  | other => other
  end.

(** The lookup by field name yields a rule record for the four
    configured names only; for any other name the script finds either
    nothing or an inherited property without rule fields, and in both
    cases answers "valid". *)
Definition validateField (f : field) : validation :=
  let fieldName := name f in
  let fieldValue := trim (value f) in
  match validationRules !! fieldName with
  | None => {| isValid := true; feedback := [] |}
  | Some rules =>
      if required rules && negb (truthy fieldValue) then
        {| isValid := false;
           feedback := capitalize fieldName ++ js " is required" |}
      else if match bound_set (minLength rules) with
              | Some m => (length fieldValue <? m)%nat
              | None => false
              end then
        {| isValid := false; feedback := message rules |}
      else if match bound_set (maxLength rules) with
              | Some m => (m <? length fieldValue)%nat
              | None => false
              end then
        {| isValid := false; feedback := message rules |}
      else if match pattern rules with
              | Some p => negb (test p fieldValue)
              | None => false
              end then
        {| isValid := false; feedback := message rules |}
      else {| isValid := true; feedback := [] |}
  end.

End ContactForm.


(** ** Shared: completions, array slices, element trees *)

Module Js.
Import JsString.

Inductive error :=
| FetchFailed                (* fetch rejected: network error *)
| HttpError (status : nat)   (* new Error(`HTTP error! status: ...`) *)
| SyntaxError                (* response.json() rejected *)
| TypeError.                 (* property access on null or undefined *)

(** How a call ends: normally, or by a throw (a rejected promise for an
    async function), in both cases with the state it leaves behind. *)
Inductive completion (S : Type) :=
| Normal (st : S)
| Thrown (e : error) (st : S).
Arguments Normal {S} st.
Arguments Thrown {S} e st.

Definition state_of {S : Type} (c : completion S) : S :=
  match c with Normal st => st | Thrown _ st => st end.

Definition bind {S : Type} (c : completion S) (k : S -> completion S)
    : completion S :=
  match c with
  | Normal st => k st
  | Thrown e st => Thrown e st
  end.

(** [try { body } catch (error) { handler }] *)
Definition try_catch {S : Type} (body : completion S) (handler : S -> completion S)
    : completion S :=
  match body with
  | Normal st => Normal st
  | Thrown _ st => handler st
  end.

(** [arr.slice(start, end)] for indices that are natural numbers. *)
Definition slice {A : Type} (start stop : nat) (arr : list A) : list A :=
  take (stop - start) (drop start arr).

End Js.

Module Dom.
Import JsString.

(** Element trees as the loaders build them: tag, [className], the
    attributes and style properties that were set, children.  Event
    listeners are not kept. *)
#[local] Unset Elimination Schemes.
Inductive node :=
| Element (tag : string) (className : string)
          (attrs : list (string * jsstring)) (children : list node)
| Text (s : jsstring).
#[local] Set Elimination Schemes.

Definition node_class (n : node) : string :=
  match n with
  | Element _ c _ _ => c
  | Text _ => ""
  end.

(** setting one more property or style entry of an element *)
Definition set_prop (k : string) (v : jsstring) (n : node) : node :=
  match n with
  | Element t c attrs ch => Element t c (attrs ++ [(k, v)]) ch
  | Text s => Text s
  end.

(** the children of a container that carry the given class *)
Definition with_class (c : string) (children : list node) : list node :=
  filter (fun n => node_class n = c) children.

End Dom.

(** ** Projects loader: [js/projects.js] *)

Module Projects.
Import JsString Js Dom.

(** A record of [projects.json]. *)
Record project := {
  title : jsstring;
  description : jsstring;
  tech : list jsstring;
  image : jsstring;
  liveUrl : option jsstring;
  githubUrl : jsstring
}.

(** What [fetch('projects.json')] followed by [response.json()]
    delivers.  The [projects] field, when present, is an array of
    records. *)
Inductive body :=
| JsonInvalid                                   (* not JSON *)
| JsonNull                                      (* the document [null] *)
| JsonData (projects : option (list project)).  (* [None]: no such field *)

Inductive response :=
| NetworkError
| Http (ok : bool) (status : nat) (b : body).

(** Module variables, the two elements the loader looks up by id, and
    a count of the [fetch] calls issued so far. *)
Record state := {
  projectsLoaded : nat;
  allProjects : list project;
  projectsGrid : option (list node);   (* children of #projects-grid *)
  loadMoreBtn : option jsstring;       (* style.display of #load-more-projects *)
  fetches : nat
}.

Definition projectsPerLoad : nat := 6.

Definition set_loaded (n : nat) (st : state) : state :=
  {| projectsLoaded := n; allProjects := allProjects st;
     projectsGrid := projectsGrid st; loadMoreBtn := loadMoreBtn st;
     fetches := fetches st |}.

Definition set_all (ps : list project) (st : state) : state :=
  {| projectsLoaded := projectsLoaded st; allProjects := ps;
     projectsGrid := projectsGrid st; loadMoreBtn := loadMoreBtn st;
     fetches := fetches st |}.

(** [projectsGrid.innerHTML = ...] *)
Definition set_grid (g : list node) (st : state) : state :=
  {| projectsLoaded := projectsLoaded st; allProjects := allProjects st;
     projectsGrid := Some g; loadMoreBtn := loadMoreBtn st;
     fetches := fetches st |}.

(** [projectsGrid.appendChild(n)] *)
Definition appendChild (n : node) (st : state) : state :=
  {| projectsLoaded := projectsLoaded st; allProjects := allProjects st;
     projectsGrid := Some (default [] (projectsGrid st) ++ [n]);
     loadMoreBtn := loadMoreBtn st; fetches := fetches st |}.

(** [if (loadMoreBtn) loadMoreBtn.style.display = 'none'] *)
Definition hide_button (st : state) : state :=
  {| projectsLoaded := projectsLoaded st; allProjects := allProjects st;
     projectsGrid := projectsGrid st;
     loadMoreBtn := (fun _ => js "none") <$> loadMoreBtn st;
     fetches := fetches st |}.

Definition count_fetch (st : state) : state :=
  {| projectsLoaded := projectsLoaded st; allProjects := allProjects st;
     projectsGrid := projectsGrid st; loadMoreBtn := loadMoreBtn st;
     fetches := S (fetches st) |}.

Definition link_button (cls : string) (url label : jsstring) : node :=
  Element "a" cls
    [("href", url); ("target", js "_blank"); ("rel", js "noopener noreferrer")]
    [Text label].

Definition createProjectCard (project : project) : node :=
  let image :=
    Element "img" ""
      [("src", image project); ("alt", title project); ("loading", js "lazy")] [] in
  let imageContainer := Element "div" "project-image" [] [image] in
  let title := Element "h3" "" [] [Text (title project)] in
  let description := Element "p" "" [] [Text (description project)] in
  let techContainer :=
    Element "div" "project-tech" []
      (map (fun tech => Element "span" "" [] [Text tech]) (tech project)) in
  let liveLink :=
    match liveUrl project with
    | Some url =>
        if truthy url && truthy (trim url)
        then [link_button "btn btn-primary btn-small live-btn" url
                ([55357; 56599]%N ++ js " Live Preview")]
        else []
    | None => []
    end in
  let githubLink :=
    link_button "btn btn-outline btn-small github-btn" (githubUrl project)
      ([55357; 56345]%N ++ js " GitHub") in
  let linksContainer :=
    Element "div" "project-links" [] (liveLink ++ [githubLink]) in
  let contentContainer :=
    Element "div" "project-content" []
      [title; description; techContainer; linksContainer] in
  Element "div" "project-card" [("style.cursor", js "default")]
    [imageContainer; contentContainer].

Definition loadingMessage : node :=
  Element "div" "loading-message" [] [Text (js "Loading projects...")].

(** The retry affordance: a message and a button that calls
    [window.Projects.load()]. *)
Definition errorMessage : node :=
  Element "div" "error-message" []
    [Element "p" "" []
       [Text (js "Failed to load projects. Please try again later.")];
     Element "button" "btn btn-primary"
       [("onclick", js "window.Projects.load()")] [Text (js "Retry")]].

(** The first block of the [try]: fetch when the array is empty. *)
Definition fetchAll (resp : response) (st : state) : completion state :=
  if bool_decide (length (allProjects st) = 0) then
    let st1 := count_fetch (set_grid [loadingMessage] st) in
    match resp with
    | NetworkError => Thrown FetchFailed st1
    | Http ok status b =>
        if negb ok then Thrown (HttpError status) st1
        else
          match b with
          | JsonInvalid => Thrown SyntaxError st1
          | JsonNull => Thrown TypeError st1
          | JsonData data_projects =>
              Normal (set_grid [] (set_all (reverse (default [] data_projects)) st1))
          end
    end
  else Normal st.

(** The card as [forEach] appends it: created, then given its visible
    state. *)
Definition visibleCard (project : project) : node :=
  set_prop "style.transform" (js "translateY(0)")
    (set_prop "style.opacity" (js "1") (createProjectCard project)).

(** One turn of [projectsToLoad.forEach]. *)
Definition renderProject (st : state) (project : project) : state :=
  let projectCard := visibleCard project in
  set_loaded (S (projectsLoaded st)) (appendChild projectCard st).

Definition projectsToLoad (count : nat) (st : state) : list project :=
  let endIndex := Nat.min (projectsLoaded st + count) (length (allProjects st)) in
  slice (projectsLoaded st) endIndex (allProjects st).

(** The rest of the [try]: render the next slice, hide the button. *)
Definition renderNext (count : nat) (st : state) : completion state :=
  let st2 := fold_left renderProject (projectsToLoad count st) st in
  if bool_decide (length (allProjects st2) <= projectsLoaded st2)
  then Normal (hide_button st2)
  else Normal st2.

Definition loadProjects (count : nat) (resp : response) (st : state)
    : completion state :=
  match projectsGrid st with
  | None => Normal st
  | Some _ =>
      try_catch
        (bind (fetchAll resp st) (renderNext count))
        (fun st' => Normal (set_grid [errorMessage] st'))
  end.

(** [window.Projects.reload] together with the load it starts, for a
    reload made while no call waits and answered before the next call;
    a reload among waiting calls is [react ReloadInvoked] below. *)
Definition reload (resp : response) (st : state) : completion state :=
  let st1 := set_all [] (set_loaded 0 st) in
  match projectsGrid st1 with
  | None => Thrown TypeError st1
  | Some _ => loadProjects projectsPerLoad resp (set_grid [] st1)
  end.

(** The ways the page and [window.Projects] invoke the loader, for
    calls that do not overlap: each carries the response its fetch
    would get, should it issue one, and has come to its end before the
    next call is made.  Overlapping calls are described further down
    ([loader], [react]). *)
Inductive call :=
| Load (count : nat) (resp : response)   (* window.Projects.load(count) *)
| LoadMore (resp : response)             (* button click, loadMore(), Retry *)
| Reload (resp : response).

Definition step (c : call) (st : state) : completion state :=
  match c with
  | Load count resp => loadProjects count resp st
  | LoadMore resp => loadProjects projectsPerLoad resp st
  | Reload resp => reload resp st
  end.

Definition run (calls : list call) (st : state) : state :=
  fold_left (fun st c => state_of (step c st)) calls st.

(** The project cards now in the grid. *)
Definition cards (st : state) : list node :=
  with_class "project-card" (default [] (projectsGrid st)).

(** The control is hidden when its [style.display] is ['none']. *)
Definition hidden (st : state) : Prop := loadMoreBtn st = Some (js "none").

(** What holds of the loader between calls: the count is within the
    array, the grid shows the first [projectsLoaded] records in order,
    each once, and nothing was fetched for a page without a grid. *)
Definition consistent (st : state) : Prop :=
  projectsLoaded st <= length (allProjects st)
  /\ cards st = map visibleCard (take (projectsLoaded st) (allProjects st))
  /\ (projectsGrid st = None -> allProjects st = []).

(** The page shows the document [data]: grid and control exist, the
    array in memory is the fetched one (newest first), and the control
    is hidden exactly when every record is loaded. *)
Definition shows (data : option (list project)) (st : state) : Prop :=
  is_Some (projectsGrid st) /\ is_Some (loadMoreBtn st)
  /\ allProjects st = reverse (default [] data)
  /\ projectsLoaded st <= length (allProjects st)
  /\ (hidden st <-> projectsLoaded st = length (allProjects st)).

(** The fetch fails: network error, non-success status, or a body that
    does not parse. *)
Definition fetch_fails (resp : response) : bool :=
  match resp with
  | NetworkError => true
  | Http ok _ b =>
      negb ok || match b with JsonInvalid => true | _ => false end
  end.

Definition response_of (c : call) : response :=
  match c with
  | Load _ resp => resp
  | LoadMore resp => resp
  | Reload resp => resp
  end.

Definition is_reload (c : call) : bool :=
  match c with Reload _ => true | _ => false end.

(** A call whose fetch, if issued, succeeds and delivers the document
    [data]. *)
Definition delivers (data : option (list project)) (c : call) : Prop :=
  match response_of c with
  | Http true _ (JsonData d) => d = data
  | _ => False
  end.

(** In this run no [reload] is invoked while the control is hidden. *)
Fixpoint reloads_while_shown (calls : list call) (st : state) : Prop :=
  match calls with
  | [] => True
  | c :: rest =>
      (is_reload c = true -> ~ hidden st)
      /\ reloads_while_shown rest (state_of (step c st))
  end.

(** A record and a successful response, for worked examples. *)
Definition sample (n : nat) : project :=
  {| title := js "Project" ++ [N.of_nat n]; description := js "A project";
     tech := [js "HTML"; js "CSS"]; image := js "assets/p.png";
     liveUrl := None; githubUrl := js "https://github.com/example/p" |}.

Definition ok_with (ps : list project) : response :=
  Http true 200 (JsonData (Some ps)).

(** How many records a call asks for. *)
Definition requested (c : call) : nat :=
  match c with
  | Load count _ => count
  | LoadMore _ => projectsPerLoad
  | Reload _ => projectsPerLoad
  end.

(** The state of a freshly loaded page: nothing loaded, whatever the
    markup put in the grid and on the button. *)
Definition fresh (grid : option (list node)) (btn : option jsstring) : state :=
  {| projectsLoaded := 0; allProjects := []; projectsGrid := grid;
     loadMoreBtn := btn; fetches := 0 |}.

(** *** Calls that overlap

    [loadProjects] is an async function and none of its callers awaits
    it.  A call that finds the array empty stops at [await fetch] and
    goes on when the response is there; until then the button, the
    Retry button and [window.Projects] can make further calls, and
    [reload] neither waits for a call nor cancels one.  [call], [step]
    and [run] above describe calls made one after the other, each
    after the one before has come to its end; what follows describes
    every order in which calls and responses can come. *)

(** The loader with the calls that wait for their response, oldest
    first, each with its [count]. *)
Record loader := {
  current : state;
  waiting : list nat
}.

Definition idle (st : state) : loader := {| current := st; waiting := [] |}.

(** [loadProjects(count)] up to [await fetch]: the whole call when the
    grid is missing or the array is not empty. *)
Definition loadProjects_until_fetch (count : nat) (l : loader) : loader :=
  match projectsGrid (current l) with
  | None => l
  | Some _ =>
      if bool_decide (length (allProjects (current l)) = 0)
      then {| current := count_fetch (set_grid [loadingMessage] (current l));
              waiting := waiting l ++ [count] |}
      else {| current :=
                state_of
                  (try_catch (renderNext count (current l))
                     (fun st' => Normal (set_grid [errorMessage] st')));
              waiting := waiting l |}
  end.

(** What the awaited [fetch] and [response.json()] give the call that
    waited: a throw, or the array put in memory and the grid emptied.
    Between the two awaits the call touches nothing, so they are taken
    as one. *)
Definition fetched (resp : response) (st : state) : completion state :=
  match resp with
  | NetworkError => Thrown FetchFailed st
  | Http ok status b =>
      if negb ok then Thrown (HttpError status) st
      else
        match b with
        | JsonInvalid => Thrown SyntaxError st
        | JsonNull => Thrown TypeError st
        | JsonData data_projects =>
            Normal (set_grid [] (set_all (reverse (default [] data_projects)) st))
        end
  end.

(** The rest of a call that waited, on the variables as they are when
    the response comes. *)
Definition loadProjects_after_fetch (count : nat) (resp : response) (st : state)
    : state :=
  state_of
    (try_catch (bind (fetched resp st) (renderNext count))
       (fun st' => Normal (set_grid [errorMessage] st'))).

Inductive event :=
| Invoked (count : nat)                (* loadProjects(count) is called *)
| Responded (k : nat) (resp : response) (* the call waiting at place k gets its response *)
| ReloadInvoked.                       (* window.Projects.reload() is called *)

Definition react (e : event) (l : loader) : loader :=
  match e with
  | Invoked count => loadProjects_until_fetch count l
  | Responded k resp =>
      match waiting l !! k with
      | Some count =>
          {| current := loadProjects_after_fetch count resp (current l);
             waiting := delete k (waiting l) |}
      | None => l
      end
  | ReloadInvoked =>
      let st1 := set_all [] (set_loaded 0 (current l)) in
      match projectsGrid st1 with
      | None => {| current := st1; waiting := waiting l |}   (* TypeError *)
      | Some _ =>
          loadProjects_until_fetch projectsPerLoad
            {| current := set_grid [] st1; waiting := waiting l |}
      end
  end.

Definition play (events : list event) (l : loader) : loader :=
  fold_left (fun l e => react e l) events l.

(** The places in [allProjects] of the records whose cards an event
    appends to the grid: [slice(start, end)] hands the records at
    [start], [start + 1], ... to [forEach], [start] being
    [projectsLoaded] when the slice is taken. *)
Definition rendered (e : event) (l : loader) : list nat :=
  match e with
  | Invoked count =>
      match projectsGrid (current l) with
      | None => []
      | Some _ =>
          if bool_decide (length (allProjects (current l)) = 0) then []
          else seq (projectsLoaded (current l))
                 (length (projectsToLoad count (current l)))
      end
  | Responded k resp =>
      match waiting l !! k with
      | Some count =>
          match fetched resp (current l) with
          | Normal st1 => seq (projectsLoaded st1) (length (projectsToLoad count st1))
          | Thrown _ _ => []
          end
      | None => []
      end
  | ReloadInvoked => []
  end.

Fixpoint rendered_all (events : list event) (l : loader) : list nat :=
  match events with
  | [] => []
  | e :: rest => rendered e l ++ rendered_all rest (react e l)
  end.

(** Calls made one after the other, each answered before the next is
    made.  A call that did not fetch waits for nothing: the response
    listed for it finds no call waiting and [react] does nothing. *)
Definition event_of (c : call) : event :=
  match c with
  | Load count _ => Invoked count
  | LoadMore _ => Invoked projectsPerLoad
  | Reload _ => ReloadInvoked
  end.

Definition one_by_one (calls : list call) : list event :=
  flat_map (fun c => [event_of c; Responded 0 (response_of c)]) calls.

End Projects.

(** ** Gallery loader: [js/gallery.js] (the lightbox is left out) *)

Module Gallery.
Import JsString Js Dom.

(** A record of [gallery.json]. *)
Record imageData := {
  id : jsstring;
  path : jsstring;
  title : jsstring;
  description : jsstring
}.

Inductive body :=
| JsonInvalid
| JsonNull
| JsonData (images : option (list imageData)).

Inductive response :=
| NetworkError
| Http (ok : bool) (status : nat) (b : body).

Record state := {
  imagesLoaded : nat;
  allImages : list imageData;
  galleryGrid : option (list node);    (* children of #gallery-grid *)
  loadMoreBtn : option jsstring;       (* style.display of #load-more *)
  fetches : nat
}.

Definition imagesPerLoad : nat := 6.

Definition set_loaded (n : nat) (st : state) : state :=
  {| imagesLoaded := n; allImages := allImages st;
     galleryGrid := galleryGrid st; loadMoreBtn := loadMoreBtn st;
     fetches := fetches st |}.

Definition set_all (imgs : list imageData) (st : state) : state :=
  {| imagesLoaded := imagesLoaded st; allImages := imgs;
     galleryGrid := galleryGrid st; loadMoreBtn := loadMoreBtn st;
     fetches := fetches st |}.

Definition set_grid (g : list node) (st : state) : state :=
  {| imagesLoaded := imagesLoaded st; allImages := allImages st;
     galleryGrid := Some g; loadMoreBtn := loadMoreBtn st;
     fetches := fetches st |}.

Definition appendChild (n : node) (st : state) : state :=
  {| imagesLoaded := imagesLoaded st; allImages := allImages st;
     galleryGrid := Some (default [] (galleryGrid st) ++ [n]);
     loadMoreBtn := loadMoreBtn st; fetches := fetches st |}.

Definition hide_button (st : state) : state :=
  {| imagesLoaded := imagesLoaded st; allImages := allImages st;
     galleryGrid := galleryGrid st;
     loadMoreBtn := (fun _ => js "none") <$> loadMoreBtn st;
     fetches := fetches st |}.

Definition count_fetch (st : state) : state :=
  {| imagesLoaded := imagesLoaded st; allImages := allImages st;
     galleryGrid := galleryGrid st; loadMoreBtn := loadMoreBtn st;
     fetches := S (fetches st) |}.

Definition createGalleryItem (imageData : imageData) : node :=
  let img :=
    Element "img" ""
      [("src", path imageData); ("alt", title imageData); ("loading", js "lazy")]
      [] in
  let title :=
    Element "div" "gallery-item-title" [] [Text (title imageData)] in
  let description :=
    Element "div" "gallery-item-description" [] [Text (description imageData)] in
  let info := Element "div" "gallery-item-info" [] [title; description] in
  Element "div" "gallery-item loading" [("data-id", id imageData)] [img; info].

Definition errorMessage : node :=
  Element "div" "gallery-loading" []
    [Element "p" "" []
       [Text (js "Failed to load gallery images. Please try again later.")];
     Element "button" "btn btn-primary"
       [("onclick", js "Gallery.loadImages()")] [Text (js "Retry")]].

Definition fetchAll (resp : response) (st : state) : completion state :=
  if bool_decide (length (allImages st) = 0) then
    let st1 := count_fetch st in
    match resp with
    | NetworkError => Thrown FetchFailed st1
    | Http ok status b =>
        if negb ok then Thrown (HttpError status) st1
        else
          match b with
          | JsonInvalid => Thrown SyntaxError st1
          | JsonNull => Thrown TypeError st1
          | JsonData data_images =>
              Normal (set_all (default [] data_images) st1)
          end
    end
  else Normal st.

Definition renderImage (st : state) (imageData : imageData) : state :=
  let galleryItem := createGalleryItem imageData in
  set_loaded (S (imagesLoaded st)) (appendChild galleryItem st).

Definition imagesToLoad (count : nat) (st : state) : list imageData :=
  let endIndex := Nat.min (imagesLoaded st + count) (length (allImages st)) in
  slice (imagesLoaded st) endIndex (allImages st).

Definition renderNext (count : nat) (st : state) : completion state :=
  let st2 := fold_left renderImage (imagesToLoad count st) st in
  if bool_decide (length (allImages st2) <= imagesLoaded st2)
  then Normal (hide_button st2)
  else Normal st2.

Definition loadImages (count : nat) (resp : response) (st : state)
    : completion state :=
  match galleryGrid st with
  | None => Normal st
  | Some _ =>
      try_catch
        (bind (fetchAll resp st) (renderNext count))
        (fun st' => Normal (set_grid [errorMessage] st'))
  end.

(** [window.Gallery.reload] together with the load it starts, for a
    reload made while no call waits and answered before the next call;
    a reload among waiting calls is [react ReloadInvoked] below. *)
Definition reload (resp : response) (st : state) : completion state :=
  let st1 := set_all [] (set_loaded 0 st) in
  match galleryGrid st1 with
  | None => Thrown TypeError st1
  | Some _ => loadImages imagesPerLoad resp (set_grid [] st1)
  end.

(** Calls that do not overlap, as for the projects loader. *)
Inductive call :=
| Load (count : nat) (resp : response)   (* Gallery.loadImages(count) *)
| LoadMore (resp : response)             (* button click, Retry *)
| Reload (resp : response).

Definition step (c : call) (st : state) : completion state :=
  match c with
  | Load count resp => loadImages count resp st
  | LoadMore resp => loadImages imagesPerLoad resp st
  | Reload resp => reload resp st
  end.

Definition run (calls : list call) (st : state) : state :=
  fold_left (fun st c => state_of (step c st)) calls st.

(** The gallery items now in the grid, by the class they are created
    with (image load events, which later drop [loading] from it, are
    not part of the model). *)
Definition cards (st : state) : list node :=
  with_class "gallery-item loading" (default [] (galleryGrid st)).

Definition hidden (st : state) : Prop := loadMoreBtn st = Some (js "none").

Definition consistent (st : state) : Prop :=
  imagesLoaded st <= length (allImages st)
  /\ cards st = map createGalleryItem (take (imagesLoaded st) (allImages st))
  /\ (galleryGrid st = None -> allImages st = []).

Definition shows (data : option (list imageData)) (st : state) : Prop :=
  is_Some (galleryGrid st) /\ is_Some (loadMoreBtn st)
  /\ allImages st = default [] data
  /\ imagesLoaded st <= length (allImages st)
  /\ (hidden st <-> imagesLoaded st = length (allImages st)).

Definition fetch_fails (resp : response) : bool :=
  match resp with
  | NetworkError => true
  | Http ok _ b =>
      negb ok || match b with JsonInvalid => true | _ => false end
  end.

Definition response_of (c : call) : response :=
  match c with
  | Load _ resp => resp
  | LoadMore resp => resp
  | Reload resp => resp
  end.

Definition is_reload (c : call) : bool :=
  match c with Reload _ => true | _ => false end.

Definition delivers (data : option (list imageData)) (c : call) : Prop :=
  match response_of c with
  | Http true _ (JsonData d) => d = data
  | _ => False
  end.

Fixpoint reloads_while_shown (calls : list call) (st : state) : Prop :=
  match calls with
  | [] => True
  | c :: rest =>
      (is_reload c = true -> ~ hidden st)
      /\ reloads_while_shown rest (state_of (step c st))
  end.

Definition sample (n : nat) : imageData :=
  {| id := [N.of_nat n]; path := js "assets/g.jpg";
     title := js "Image"; description := js "An image" |}.

Definition ok_with (imgs : list imageData) : response :=
  Http true 200 (JsonData (Some imgs)).

Definition requested (c : call) : nat :=
  match c with
  | Load count _ => count
  | LoadMore _ => imagesPerLoad
  | Reload _ => imagesPerLoad
  end.

Definition fresh (grid : option (list node)) (btn : option jsstring) : state :=
  {| imagesLoaded := 0; allImages := []; galleryGrid := grid;
     loadMoreBtn := btn; fetches := 0 |}.

(** *** Calls that overlap

    As for the projects loader: [loadImages] stops at [await fetch]
    when it finds the array empty, nobody awaits it, and further calls
    and [reload] can come before the response.  [call], [step] and
    [run] above describe calls made one after the other. *)

Record loader := {
  current : state;
  waiting : list nat
}.

Definition idle (st : state) : loader := {| current := st; waiting := [] |}.

(** [loadImages(count)] up to [await fetch]. *)
Definition loadImages_until_fetch (count : nat) (l : loader) : loader :=
  match galleryGrid (current l) with
  | None => l
  | Some _ =>
      if bool_decide (length (allImages (current l)) = 0)
      then {| current := count_fetch (current l);
              waiting := waiting l ++ [count] |}
      else {| current :=
                state_of
                  (try_catch (renderNext count (current l))
                     (fun st' => Normal (set_grid [errorMessage] st')));
              waiting := waiting l |}
  end.

(** What the awaited [fetch] and [response.json()] give the call that
    waited; the grid is left as it is. *)
Definition fetched (resp : response) (st : state) : completion state :=
  match resp with
  | NetworkError => Thrown FetchFailed st
  | Http ok status b =>
      if negb ok then Thrown (HttpError status) st
      else
        match b with
        | JsonInvalid => Thrown SyntaxError st
        | JsonNull => Thrown TypeError st
        | JsonData data_images => Normal (set_all (default [] data_images) st)
        end
  end.

Definition loadImages_after_fetch (count : nat) (resp : response) (st : state)
    : state :=
  state_of
    (try_catch (bind (fetched resp st) (renderNext count))
       (fun st' => Normal (set_grid [errorMessage] st'))).

Inductive event :=
| Invoked (count : nat)                 (* loadImages(count) is called *)
| Responded (k : nat) (resp : response) (* the call waiting at place k gets its response *)
| ReloadInvoked.                        (* window.Gallery.reload() is called *)

Definition react (e : event) (l : loader) : loader :=
  match e with
  | Invoked count => loadImages_until_fetch count l
  | Responded k resp =>
      match waiting l !! k with
      | Some count =>
          {| current := loadImages_after_fetch count resp (current l);
             waiting := delete k (waiting l) |}
      | None => l
      end
  | ReloadInvoked =>
      let st1 := set_all [] (set_loaded 0 (current l)) in
      match galleryGrid st1 with
      | None => {| current := st1; waiting := waiting l |}   (* TypeError *)
      | Some _ =>
          loadImages_until_fetch imagesPerLoad
            {| current := set_grid [] st1; waiting := waiting l |}
      end
  end.

Definition play (events : list event) (l : loader) : loader :=
  fold_left (fun l e => react e l) events l.

(** The places in [allImages] of the records whose items an event
    appends to the grid. *)
Definition rendered (e : event) (l : loader) : list nat :=
  match e with
  | Invoked count =>
      match galleryGrid (current l) with
      | None => []
      | Some _ =>
          if bool_decide (length (allImages (current l)) = 0) then []
          else seq (imagesLoaded (current l))
                 (length (imagesToLoad count (current l)))
      end
  | Responded k resp =>
      match waiting l !! k with
      | Some count =>
          match fetched resp (current l) with
          | Normal st1 => seq (imagesLoaded st1) (length (imagesToLoad count st1))
          | Thrown _ _ => []
          end
      | None => []
      end
  | ReloadInvoked => []
  end.

Fixpoint rendered_all (events : list event) (l : loader) : list nat :=
  match events with
  | [] => []
  | e :: rest => rendered e l ++ rendered_all rest (react e l)
  end.

Definition event_of (c : call) : event :=
  match c with
  | Load count _ => Invoked count
  | LoadMore _ => Invoked imagesPerLoad
  | Reload _ => ReloadInvoked
  end.

Definition one_by_one (calls : list call) : list event :=
  flat_map (fun c => [event_of c; Responded 0 (response_of c)]) calls.

End Gallery.

(** ** Theme controller: the theme toggle script *)

Module ThemeToggle.
Import JsString Js.

Module THEMES.
Definition DARK : jsstring := js "dark".
Definition LIGHT : jsstring := js "light".
End THEMES.

Module ICONS.
Definition DARK : jsstring := [55356; 57113]%N.   (* crescent moon *)
Definition LIGHT : jsstring := [9728; 65039]%N.   (* sun *)
End ICONS.

Definition storage_key : string := "portfolio-theme".

(** The [#theme-toggle] element. *)
Record button := {
  title : option jsstring;
  classList : gset string
}.

Record state := {
  data_theme : option jsstring;        (* data-theme of the root element *)
  themeIcon : option jsstring;         (* textContent of .theme-icon; None: no such element *)
  themeToggle : option button;         (* None: no such element *)
  localStorage : gmap string jsstring;
  prefersLight : option bool;          (* matchMedia(...).matches; None: no matchMedia *)
  dispatched : list jsstring;          (* detail.theme of the themeChanged events *)
  timeouts : nat                       (* pending animation-class removals *)
}.

Definition set_data_theme (v : option jsstring) (st : state) : state :=
  {| data_theme := v; themeIcon := themeIcon st; themeToggle := themeToggle st;
     localStorage := localStorage st; prefersLight := prefersLight st;
     dispatched := dispatched st; timeouts := timeouts st |}.

Definition set_icon (v : jsstring) (st : state) : state :=
  {| data_theme := data_theme st; themeIcon := Some v; themeToggle := themeToggle st;
     localStorage := localStorage st; prefersLight := prefersLight st;
     dispatched := dispatched st; timeouts := timeouts st |}.

Definition set_toggle (b : button) (st : state) : state :=
  {| data_theme := data_theme st; themeIcon := themeIcon st; themeToggle := Some b;
     localStorage := localStorage st; prefersLight := prefersLight st;
     dispatched := dispatched st; timeouts := timeouts st |}.

Definition setItem (k : string) (v : jsstring) (st : state) : state :=
  {| data_theme := data_theme st; themeIcon := themeIcon st;
     themeToggle := themeToggle st;
     localStorage := <[k := v]> (localStorage st);
     prefersLight := prefersLight st;
     dispatched := dispatched st; timeouts := timeouts st |}.

Definition dispatch (theme : jsstring) (st : state) : state :=
  {| data_theme := data_theme st; themeIcon := themeIcon st;
     themeToggle := themeToggle st; localStorage := localStorage st;
     prefersLight := prefersLight st;
     dispatched := dispatched st ++ [theme]; timeouts := timeouts st |}.

Definition setTimeout (st : state) : state :=
  {| data_theme := data_theme st; themeIcon := themeIcon st;
     themeToggle := themeToggle st; localStorage := localStorage st;
     prefersLight := prefersLight st;
     dispatched := dispatched st; timeouts := S (timeouts st) |}.

(** [localStorage.getItem(k)], and whether the result is truthy. *)
Definition getItem (k : string) (st : state) : option jsstring :=
  localStorage st !! k.

Definition truthy_item (v : option jsstring) : bool :=
  match v with
  | Some s => truthy s
  | None => false
  end.

Definition getPreferredTheme (st : state) : jsstring :=
  let savedTheme := getItem storage_key st in
  match savedTheme with
  | Some saved =>
      if truthy saved then saved
      else if bool_decide (prefersLight st = Some true) then THEMES.LIGHT
      else THEMES.DARK
  | None =>
      if bool_decide (prefersLight st = Some true) then THEMES.LIGHT
      else THEMES.DARK
  end.

(** [themeIcon.textContent = v]; a [TypeError] without the element. *)
Definition write_icon (v : jsstring) (st : state) : completion state :=
  match themeIcon st with
  | Some _ => Normal (set_icon v st)
  | None => Thrown TypeError st
  end.

(** [themeToggle.setAttribute('title', v)] *)
Definition write_title (v : jsstring) (st : state) : completion state :=
  match themeToggle st with
  | Some b => Normal (set_toggle {| title := Some v; classList := classList b |} st)
  | None => Thrown TypeError st
  end.

Definition applyTheme (theme : jsstring) (st : state) : completion state :=
  let st1 := set_data_theme None st in
  bind
    (if bool_decide (theme = THEMES.LIGHT)
     then write_icon ICONS.LIGHT (set_data_theme (Some THEMES.LIGHT) st1)
     else write_icon ICONS.DARK st1)
    (fun st2 =>
       let st3 := setItem storage_key theme st2 in
       bind
         (write_title
            (js "Switch to "
             ++ (if bool_decide (theme = THEMES.DARK) then js "light" else js "dark")
             ++ js " mode") st3)
         (fun st4 => Normal (dispatch theme st4))).

Definition toggleTheme (st : state) : completion state :=
  let currentTheme := data_theme st in
  let newTheme :=
    if bool_decide (currentTheme = Some THEMES.LIGHT)
    then THEMES.DARK else THEMES.LIGHT in
  match themeToggle st with
  | None => Thrown TypeError st
  | Some b =>
      let st1 :=
        set_toggle {| title := title b;
                      classList := {["animate-rotate-in"]} ∪ classList b |} st in
      bind (applyTheme newTheme st1) (fun st2 => Normal (setTimeout st2))
  end.

(** The timer set by [toggleTheme] firing. *)
Definition timeoutFired (st : state) : state :=
  let st1 :=
    match themeToggle st with
    | Some b =>
        set_toggle {| title := title b;
                      classList := classList b ∖ {["animate-rotate-in"]} |} st
    | None => st
    end in
  {| data_theme := data_theme st1; themeIcon := themeIcon st1;
     themeToggle := themeToggle st1; localStorage := localStorage st1;
     prefersLight := prefersLight st1;
     dispatched := dispatched st1; timeouts := pred (timeouts st1) |}.

(** The [change] listener of the color-scheme media query; [matches]
    is [e.matches]. *)
Definition handleSystemThemeChange (matches : bool) (st : state)
    : completion state :=
  if negb (truthy_item (getItem storage_key st)) then
    let systemTheme := if matches then THEMES.LIGHT else THEMES.DARK in
    applyTheme systemTheme st
  else Normal st.

(** [initThemeToggle], without the listener registrations. *)
Definition initThemeToggle (st : state) : completion state :=
  let preferredTheme := getPreferredTheme st in
  applyTheme preferredTheme st.

(** [window.ThemeToggle.getCurrentTheme] *)
Definition getCurrentTheme (st : state) : jsstring :=
  match data_theme st with
  | Some t => if truthy t then t else THEMES.DARK
  | None => THEMES.DARK
  end.

(** What happens to the controller after the page has loaded. *)
Inductive event :=
| Toggle                          (* click, Enter or space on the button *)
| SetTheme (theme : jsstring)     (* window.ThemeToggle.setTheme *)
| SystemChange (matches : bool)   (* the OS preference changed *)
| Timeout.

Definition step (e : event) (st : state) : state :=
  match e with
  | Toggle => state_of (toggleTheme st)
  | SetTheme theme => state_of (applyTheme theme st)
  | SystemChange matches => state_of (handleSystemThemeChange matches st)
  | Timeout => timeoutFired st
  end.

(** A page before the script runs: both elements in the markup, no
    data-theme attribute, nothing stored, the OS reporting [prefers]. *)
Definition page_before_load (prefers : option bool) : state :=
  {| data_theme := None; themeIcon := Some [];
     themeToggle := Some {| title := None; classList := ∅ |};
     localStorage := ∅; prefersLight := prefers;
     dispatched := []; timeouts := 0 |}.

(** States the controller reaches from a page load. *)
Inductive reachable : state -> Prop :=
| reach_init st0 : reachable (state_of (initThemeToggle st0))
| reach_step e st : reachable st -> reachable (step e st).

End ThemeToggle.

(** ** Navigation: the navigation bar script *)

Module NavBar.
Import JsString Js.
Local Open Scope Z_scope.

Record link := {
  href : option jsstring;       (* getAttribute('href') *)
  classList : gset string
}.

(** A [section[id]] element. *)
Record section := {
  id : jsstring;
  offsetTop : Z;
  offsetHeight : Z
}.

Record navbar_element := {
  navbarClasses : gset string;
  navbarHeight : Z               (* navbar.offsetHeight *)
}.

Record page := {
  navbar : option navbar_element;
  navLinks : list link;
  sections : list section;
  scrollY : Z
}.

Definition set_navbar (nb : navbar_element) (p : page) : page :=
  {| navbar := Some nb; navLinks := navLinks p;
     sections := sections p; scrollY := scrollY p |}.

Definition set_links (ls : list link) (p : page) : page :=
  {| navbar := navbar p; navLinks := ls;
     sections := sections p; scrollY := scrollY p |}.

Definition is_active (l : link) : Prop := "active" ∈ classList l.

Definition updateActiveLink (activeId : jsstring) (links : list link)
    : list link :=
  map (fun l =>
         let removed := classList l ∖ {["active"]} in
         {| href := href l;
            classList :=
              if bool_decide (href l = Some activeId)
              then {["active"]} ∪ removed else removed |})
      links.

(** One turn of [sections.forEach] in [handleScroll]. *)
Definition visit_section (scrollPosition navbarHeight : Z)
    (p : page) (s : section) : page :=
  let sectionTop := offsetTop s - navbarHeight - 100 in
  let sectionBottom := sectionTop + offsetHeight s in
  let sectionId := id s in
  if bool_decide (sectionTop <= scrollPosition)
     && bool_decide (scrollPosition < sectionBottom)
  then set_links (updateActiveLink (js "#" ++ sectionId) (navLinks p)) p
  else p.

Definition handleScroll (p : page) : completion page :=
  let scrollPosition := scrollY p in
  match navbar p with
  | None => Thrown TypeError p
  | Some nb =>
      let p1 :=
        set_navbar
          {| navbarClasses :=
               if bool_decide (50 < scrollPosition)
               then {["scrolled"]} ∪ navbarClasses nb
               else navbarClasses nb ∖ {["scrolled"]};
             navbarHeight := navbarHeight nb |} p in
      Normal (fold_left (visit_section scrollPosition (navbarHeight nb))
                (sections p1) p1)
  end.

End NavBar.

(** ** Contact form: feedback, whole-form validation, submission gate,
    debounced validation, character counter *)

Module FormUi.
Import JsString Js ContactForm.

(** One input or textarea with what [showFieldFeedback] reads and
    writes for it: the field [validateField] reads, the class list of
    the element, and the texts of the [.field-feedback] elements below
    its parent, in document order.  Inputs that share a parent are
    treated further down ([formInput], [meet]). *)
Record input := {
  control : field;
  classList : gset string;
  feedbacks : list jsstring
}.

Definition showFieldFeedback (i : input) (isValid : bool) (message : jsstring)
    : input :=
  (* remove the existing feedback: querySelector finds the first one *)
  let remaining := match feedbacks i with [] => [] | _ :: rest => rest end in
  let cleared := classList i ∖ {["valid"]} ∖ {["invalid"]} in
  {| control := control i;
     classList := {[ if isValid then "valid" else "invalid" ]} ∪ cleared;
     feedbacks :=
       if negb isValid && truthy message then remaining ++ [message]
       else remaining |}.

(** The blur listener, and the body of one turn of [validateForm]. *)
Definition validateAndShow (i : input) : input :=
  let validation := validateField (control i) in
  showFieldFeedback i (isValid validation) (feedback validation).

(** *** The whole form

    In the document several inputs can have the same parent, and
    [showFieldFeedback] removes and appends feedback elements in
    [field.parentNode]: what it does for one input is seen by the next
    input of that parent. *)











(** *** Debounced validation ([setupRealTimeValidation]) *)

(** The inputs, the own properties of the script's [debounceTimers]
    object (timer id by field name), the timers that are set and not
    yet fired or cleared (with
    the index of the input their callback validates), and the id the
    next [setTimeout] returns. *)
Record realtime := {
  fields : list input;
  debounceTimers : gmap jsstring nat;
  pending : gmap nat nat;
  nextTimer : nat
}.

(** [debounceTimers[fieldName] = id] on the plain object: the
    assignment makes an own property, except for the name ['__proto__'],
    where it goes to the setter of [Object.prototype], which ignores a
    number. *)
Definition setTimer (fieldName : jsstring) (id : nat)
    (timers : gmap jsstring nat) : gmap jsstring nat :=
  if bool_decide (fieldName = js "__proto__") then timers
  else <[fieldName := id]> timers.

(** The [input] listener of input number [index].  Reading
    [debounceTimers[fieldName]] gives the timer id of an own property
    (ids are positive, hence truthy); anything else the read can give
    is inherited from [Object.prototype] and no timer id, so that
    [clearTimeout] does nothing with it. *)
Definition onInput (index : nat) (st : realtime) : realtime :=
  match fields st !! index with
  | None => st
  | Some input =>
      let fieldName := name (control input) in
      let cleared :=
        match debounceTimers st !! fieldName with
        | Some id => delete id (pending st)
        | None => pending st
        end in
      {| fields := fields st;
         debounceTimers := setTimer fieldName (nextTimer st) (debounceTimers st);
         pending := <[nextTimer st := index]> cleared;
         nextTimer := S (nextTimer st) |}
  end.

(** Timer [id] fires: the callback validates, unless the value is
    blank. *)
Definition onTimer (id : nat) (st : realtime) : realtime :=
  match pending st !! id with
  | None => st
  | Some index =>
      {| fields :=
           match fields st !! index with
           | Some input =>
               if truthy (trim (value (control input)))
               then <[index := validateAndShow input]> (fields st)
               else fields st
           | None => fields st
           end;
         debounceTimers := debounceTimers st;
         pending := delete id (pending st);
         nextTimer := nextTimer st |}
  end.

(** The [blur] listener of input number [index]. *)
Definition onBlur (index : nat) (st : realtime) : realtime :=
  {| fields :=
       match fields st !! index with
       | Some input => <[index := validateAndShow input]> (fields st)
       | None => fields st
       end;
     debounceTimers := debounceTimers st;
     pending := pending st;
     nextTimer := nextTimer st |}.

(** The user changes the value of input number [index]; the browser
    then fires the [input] event. *)
Definition setValue (index : nat) (v : jsstring) (st : realtime) : realtime :=
  {| fields :=
       match fields st !! index with
       | Some input =>
           <[index := {| control := {| name := name (control input); value := v |};
                         classList := classList input;
                         feedbacks := feedbacks input |}]> (fields st)
       | None => fields st
       end;
     debounceTimers := debounceTimers st;
     pending := pending st;
     nextTimer := nextTimer st |}.

Inductive ui_event :=
| Typed (index : nat) (v : jsstring)
| TimerFired (id : nat)
| Blurred (index : nat).

Definition ui_step (e : ui_event) (st : realtime) : realtime :=
  match e with
  | Typed index v => onInput index (setValue index v st)
  | TimerFired id => onTimer id st
  | Blurred index => onBlur index st
  end.

Definition ui_run (events : list ui_event) (st : realtime) : realtime :=
  fold_left (fun st e => ui_step e st) events st.

(** The state when the listeners have just been set up. *)
Definition listening (inputs : list input) : realtime :=
  {| fields := inputs; debounceTimers := ∅; pending := ∅; nextTimer := 1 |}.

(** *** Character counter ([setupCharacterCounter]) *)

(** [maxLength - messageField.value.length] *)
Definition remaining (v : jsstring) : Z :=
  (Z.of_nat (default 0%nat (maxLength message_rules)) - Z.of_nat (length v))%Z.

(** The colour [updateCounter] gives the counter. *)
Definition counterColor (v : jsstring) : string :=
  if bool_decide (remaining v < 50)%Z then "var(--error-color)"
  else if bool_decide (remaining v < 100)%Z then "var(--accent-color)"
  else "var(--text-secondary)".

End FormUi.

(** ** Gallery lightbox: [js/gallery.js] *)

Module Lightbox.
Import JsString Js.

(** The four lightbox elements ([None]: not in the document), the
    [overflow] style of the body, and whether [handleLightboxKeydown]
    is registered on the document. *)
Record state := {
  lightbox : option (gset string);               (* classList of #lightbox *)
  lightboxImage : option (jsstring * jsstring);  (* src and alt of #lightbox-image *)
  lightboxTitle : option jsstring;
  lightboxDescription : option jsstring;
  bodyOverflow : jsstring;
  keydownListener : bool
}.

Definition openLightbox (imageData : Gallery.imageData) (st : state) : state :=
  match lightbox st, lightboxImage st, lightboxTitle st, lightboxDescription st with
  | Some classes, Some _, Some _, Some _ =>
      {| lightbox := Some ({["active"]} ∪ classes);
         lightboxImage := Some (Gallery.path imageData, Gallery.title imageData);
         lightboxTitle := Some (Gallery.title imageData);
         lightboxDescription := Some (Gallery.description imageData);
         bodyOverflow := js "hidden";
         keydownListener := true |}
  | _, _, _, _ => st
  end.

Definition closeLightbox (st : state) : state :=
  match lightbox st with
  | Some classes =>
      {| lightbox := Some (classes ∖ {["active"]});
         lightboxImage := lightboxImage st;
         lightboxTitle := lightboxTitle st;
         lightboxDescription := lightboxDescription st;
         bodyOverflow := [];
         keydownListener := false |}
  | None => st
  end.

Definition handleLightboxKeydown (key : jsstring) (st : state) : state :=
  if bool_decide (key = js "Escape") then closeLightbox st else st.

(** What the user does.  A click on the close button or on the
    lightbox background presupposes that element. *)
Inductive event :=
| ItemClicked (imageData : Gallery.imageData)  (* click on a gallery item *)
| CloseClicked                                 (* click on #lightbox-close *)
| BackgroundClicked                            (* click with e.target === lightbox *)
| InsideClicked                                (* click on something inside the lightbox *)
| KeyDown (key : jsstring).

Definition step (e : event) (st : state) : state :=
  match e with
  | ItemClicked imageData => openLightbox imageData st
  | CloseClicked => closeLightbox st
  | BackgroundClicked => closeLightbox st
  | InsideClicked => st
  | KeyDown key =>
      if keydownListener st then handleLightboxKeydown key st else st
  end.

Definition run (events : list event) (st : state) : state :=
  fold_left (fun st e => step e st) events st.

Definition is_open (st : state) : Prop :=
  exists classes, lightbox st = Some classes /\ "active" ∈ classes.

(** All four elements are in the document. *)
Definition complete (st : state) : Prop :=
  is_Some (lightbox st) /\ is_Some (lightboxImage st)
  /\ is_Some (lightboxTitle st) /\ is_Some (lightboxDescription st).

(** The lightbox as the page loads: closed, nothing registered. *)
Definition closed (st : state) : Prop :=
  ~ is_open st /\ bodyOverflow st = [] /\ keydownListener st = false.

End Lightbox.

(** ** Navigation: mobile menu and link clicks *)

Module Menu.
Import JsString Js NavBar.
Local Open Scope Z_scope.

(** The page of [NavBar] with the hamburger button and the menu
    ([None]: not in the document), the [overflow] style of the body and
    the [top] of the last [window.scrollTo]. *)
Record state := {
  page : NavBar.page;
  hamburger : option (gset string);
  navMenu : option (gset string);
  bodyOverflow : jsstring;
  scrolledTo : option Z
}.

Definition set_page (p : NavBar.page) (st : state) : state :=
  {| page := p; hamburger := hamburger st; navMenu := navMenu st;
     bodyOverflow := bodyOverflow st; scrolledTo := scrolledTo st |}.

Definition set_hamburger (classes : gset string) (st : state) : state :=
  {| page := page st; hamburger := Some classes; navMenu := navMenu st;
     bodyOverflow := bodyOverflow st; scrolledTo := scrolledTo st |}.

Definition set_navMenu (classes : gset string) (st : state) : state :=
  {| page := page st; hamburger := hamburger st; navMenu := Some classes;
     bodyOverflow := bodyOverflow st; scrolledTo := scrolledTo st |}.

Definition set_overflow (v : jsstring) (st : state) : state :=
  {| page := page st; hamburger := hamburger st; navMenu := navMenu st;
     bodyOverflow := v; scrolledTo := scrolledTo st |}.

Definition scrollTo (top : Z) (st : state) : state :=
  {| page := page st; hamburger := hamburger st; navMenu := navMenu st;
     bodyOverflow := bodyOverflow st; scrolledTo := Some top |}.

(** [classList.toggle(c)] *)
Definition toggle_class (c : string) (classes : gset string) : gset string :=
  if bool_decide (c ∈ classes) then classes ∖ {[c]} else {[c]} ∪ classes.

Definition toggleMobileMenu (st : state) : completion state :=
  match hamburger st with
  | None => Thrown TypeError st
  | Some h =>
      let st1 := set_hamburger (toggle_class "active" h) st in
      match navMenu st1 with
      | None => Thrown TypeError st1
      | Some m =>
          let m' := toggle_class "active" m in
          Normal (set_overflow
                    (if bool_decide ("active" ∈ m') then js "hidden" else [])
                    (set_navMenu m' st1))
      end
  end.

Definition closeMobileMenu (st : state) : completion state :=
  match hamburger st with
  | None => Thrown TypeError st
  | Some h =>
      let st1 := set_hamburger (h ∖ {["active"]}) st in
      match navMenu st1 with
      | None => Thrown TypeError st1
      | Some m => Normal (set_overflow [] (set_navMenu (m ∖ {["active"]}) st1))
      end
  end.

(** What [document.querySelector(targetId)] answers: the selector is
    not valid, no element matches, or the first match (of which only
    [offsetTop] is read). *)
Inductive query :=
| Invalid
| NotFound
| Found (offsetTop : Z).

(** [s.startsWith('#')] *)
Definition startsWithHash (s : jsstring) : bool :=
  match s with
  | c :: _ => bool_decide (c = cu "#")
  | [] => false
  end.

(** The click listener of the navigation links.  [targetId] is
    [e.target.getAttribute('href')], [target] the answer of
    [querySelector] should it be asked; the boolean of the result says
    whether [preventDefault] was called. *)
Definition handleSmoothScroll (targetId : option jsstring) (target : query)
    (st : state) : completion (bool * state) :=
  match targetId with
  | Some id =>
      if startsWithHash id then
        match target with
        | Invalid => Thrown SyntaxError (true, st)
        | NotFound => Normal (true, st)
        | Found offsetTop =>
            match closeMobileMenu st with
            | Thrown e st1 => Thrown e (true, st1)
            | Normal st1 =>
                match navbar (page st1) with
                | None => Thrown TypeError (true, st1)
                | Some nb =>
                    let targetPosition := offsetTop - navbarHeight nb in
                    let st2 := scrollTo targetPosition st1 in
                    Normal (true,
                            set_page
                              (set_links (updateActiveLink id (navLinks (page st2)))
                                 (page st2)) st2)
                end
            end
        end
      else Normal (false, st)
  | None => Normal (false, st)
  end.

(** [window.NavBar.scrollToSection] *)
Definition scrollToSection (sectionId : jsstring) (target : query) (st : state)
    : completion state :=
  match target with
  | Invalid => Thrown SyntaxError st
  | NotFound => Normal st
  | Found offsetTop =>
      match navbar (page st) with
      | None => Thrown TypeError st
      | Some nb =>
          let st1 := scrollTo (offsetTop - navbarHeight nb) st in
          Normal (set_page
                    (set_links (updateActiveLink sectionId (navLinks (page st1)))
                       (page st1)) st1)
      end
  end.

Definition handleKeyboard (key : jsstring) (st : state) : completion state :=
  if bool_decide (key = js "Escape") then
    match navMenu st with
    | None => Thrown TypeError st
    | Some m =>
        if bool_decide ("active" ∈ m) then closeMobileMenu st else Normal st
    end
  else Normal st.

(** [innerWidth] is [window.innerWidth] when the resize event fires. *)
Definition handleResize (innerWidth : Z) (st : state) : completion state :=
  if bool_decide (768 < innerWidth) then
    match navMenu st with
    | None => Thrown TypeError st
    | Some m =>
        if bool_decide ("active" ∈ m) then closeMobileMenu st else Normal st
    end
  else Normal st.

(** The scroll listener, on the page of this state. *)
Definition onScroll (st : state) : completion state :=
  match handleScroll (page st) with
  | Normal p => Normal (set_page p st)
  | Thrown e p => Thrown e (set_page p st)
  end.

(** The last lines of [initNavigation]: the link of the URL hash, or
    of ['#home'], is marked. *)
Definition initialActive (hash : jsstring) (st : state) : state :=
  let currentHash := if truthy hash then hash else js "#home" in
  set_page (set_links (updateActiveLink currentHash (navLinks (page st))) (page st)) st.

Inductive event :=
| HamburgerClicked
| KeyPressed (key : jsstring)
| Resized (innerWidth : Z)
| LinkClicked (targetId : option jsstring) (target : query)
| Scrolled (scrollY : Z).

Definition step (e : event) (st : state) : state :=
  match e with
  | HamburgerClicked => state_of (toggleMobileMenu st)
  | KeyPressed key => state_of (handleKeyboard key st)
  | Resized w => state_of (handleResize w st)
  | LinkClicked targetId target => snd (state_of (handleSmoothScroll targetId target st))
  | Scrolled y =>
      state_of (onScroll
                  (set_page {| navbar := navbar (page st);
                               navLinks := navLinks (page st);
                               sections := sections (page st);
                               scrollY := y |} st))
  end.

Definition run (events : list event) (st : state) : state :=
  fold_left (fun st e => step e st) events st.

(** The menu is open, closed, and in step with the button and the
    body. *)
Definition menu_open (st : state) : Prop :=
  exists m, navMenu st = Some m /\ "active" ∈ m.

Definition in_step (st : state) : Prop :=
  exists h m,
    hamburger st = Some h /\ navMenu st = Some m
    /\ ("active" ∈ h <-> "active" ∈ m)
    /\ bodyOverflow st = (if bool_decide ("active" ∈ m) then js "hidden" else []).

(** The section whose range, as [handleScroll] computes it, is the last
    in document order to contain the scroll position. *)
Definition in_range (scrollPosition navbarHeight : Z) (s : section) : bool :=
  bool_decide (offsetTop s - navbarHeight - 100 <= scrollPosition
               < offsetTop s - navbarHeight - 100 + offsetHeight s).

Definition lastInRange (scrollPosition navbarHeight : Z) (ss : list section)
    : option section :=
  last (filter (fun s => in_range scrollPosition navbarHeight s = true) ss).

(** Where the window is when a scroll to [top] has come to rest: the
    browser keeps the position within the scrollable range, from 0 to
    [maxScroll] (the height of the document less that of the window). *)
Definition landsAt (top maxScroll : Z) : Z := Z.max 0 (Z.min top maxScroll).

End Menu.

(** ** Theme controller: the whole page load *)

Module ThemePage.
Import JsString Js ThemeToggle.

(** [improveAccessibility], as far as the title goes (role, tabindex
    and aria-label are constant attributes). *)
Definition improveAccessibility (st : state) : state :=
  match themeToggle st with
  | Some b =>
      let currentTheme := getPreferredTheme st in
      set_toggle
        {| title :=
             Some (js "Switch to "
                   ++ (if bool_decide (currentTheme = THEMES.DARK)
                       then js "light" else js "dark")
                   ++ js " mode");
           classList := classList b |} st
  | None => st
  end.

(** The script's start: [initThemeToggle], then (if that did not
    throw) [improveAccessibility]. *)
Definition pageLoad (st : state) : completion state :=
  bind (initThemeToggle st) (fun st' => Normal (improveAccessibility st')).

(** The same browser opens the page again: the document is as the
    markup [markup] has it, storage and OS preference are those of
    [old]. *)
Definition reopened (markup old : state) : state :=
  {| data_theme := data_theme markup; themeIcon := themeIcon markup;
     themeToggle := themeToggle markup;
     localStorage := localStorage old; prefersLight := prefersLight old;
     dispatched := []; timeouts := 0 |}.

(** Attribute, icon and title that go with a stored theme. *)
Definition attribute_of (theme : jsstring) : option jsstring :=
  if bool_decide (theme = THEMES.LIGHT) then Some THEMES.LIGHT else None.

Definition icon_of (theme : jsstring) : jsstring :=
  if bool_decide (theme = THEMES.LIGHT) then ICONS.LIGHT else ICONS.DARK.

Definition title_of (theme : jsstring) : jsstring :=
  js "Switch to "
  ++ (if bool_decide (theme = THEMES.DARK) then js "light" else js "dark")
  ++ js " mode".

(** The state [applyTheme theme] leaves, part by part.  For the two
    themes this is [dark_page] or [light_page] below; for any other
    string it is a page that looks dark, stores the string, and whose
    title offers the dark mode. *)
Definition agrees (theme : jsstring) (st : state) : Prop :=
  getItem storage_key st = Some theme
  /\ data_theme st = attribute_of theme
  /\ themeIcon st = Some (icon_of theme)
  /\ (title <$> themeToggle st) = Some (Some (title_of theme))
  /\ last (dispatched st) = Some theme.

(** The page in its light and in its dark state, part by part:
    attribute, icon, title of the button, stored value and the theme
    of the last themeChanged event. *)
Definition light_page (st : state) : Prop :=
  data_theme st = Some (js "light")
  /\ themeIcon st = Some ICONS.LIGHT
  /\ (title <$> themeToggle st) = Some (Some (js "Switch to dark mode"))
  /\ getItem storage_key st = Some (js "light")
  /\ last (dispatched st) = Some (js "light").

Definition dark_page (st : state) : Prop :=
  data_theme st = None
  /\ themeIcon st = Some ICONS.DARK
  /\ (title <$> themeToggle st) = Some (Some (js "Switch to light mode"))
  /\ getItem storage_key st = Some (js "dark")
  /\ last (dispatched st) = Some (js "dark").

(** An event that hands the script no string but ['dark'] and
    ['light']: [setTheme] is the one way to hand it another. *)
Definition names_a_theme (e : event) : Prop :=
  match e with
  | SetTheme theme => theme = THEMES.DARK \/ theme = THEMES.LIGHT
  | _ => True
  end.

(** Events after the page has loaded, in order. *)
Definition run (events : list event) (st : state) : state :=
  fold_left (fun st e => step e st) events st.

(** The animation class of the button, and the page before any script
    ran: nothing dispatched, no timer pending, no animation class. *)
Definition animating (st : state) : Prop :=
  exists b, themeToggle st = Some b /\ "animate-rotate-in" ∈ classList b.

Definition at_rest (st : state) : Prop :=
  ~ animating st /\ timeouts st = 0%nat.

End ThemePage.

(** * Properties *)

Import JsString RegExp Js Dom.

(** ** Trimming *)

Lemma trimStart_all_whitespace (s : jsstring) :
  all_whitespace s -> trimStart s = [].
Proof.
  induction 1 as [|c s Hc _ IH]; simpl; [done|]. by rewrite Hc.
Qed.

Lemma trimStart_app (s t : jsstring) :
  trimStart (s ++ t) =
  match trimStart s with
  | [] => trimStart t
  | _ :: _ => trimStart s ++ t
  end.
Proof.
  induction s as [|c s IH]; simpl.
  - by destruct (trimStart t).
  - destruct (is_whitespace c); [apply IH | done].
Qed.

Lemma trimStart_idempotent (s : jsstring) :
  trimStart (trimStart s) = trimStart s.
Proof.
  induction s as [|c s IH]; simpl; [done|].
  destruct (is_whitespace c) eqn:Hc; [done|]. simpl. by rewrite Hc.
Qed.

Lemma all_whitespace_rev (s : jsstring) :
  all_whitespace s -> all_whitespace (rev s).
Proof.
  unfold all_whitespace. apply Forall_rev.
Qed.

Lemma trimEnd_app_whitespace (s ws : jsstring) :
  all_whitespace ws -> trimEnd (s ++ ws) = trimEnd s.
Proof.
  intros Hws. unfold trimEnd. rewrite rev_app_distr, trimStart_app.
  by rewrite (trimStart_all_whitespace (rev ws)) by by apply all_whitespace_rev.
Qed.

Lemma trim_all_whitespace (s : jsstring) :
  all_whitespace s -> trim s = [].
Proof.
  intros H. unfold trim. by rewrite trimStart_all_whitespace.
Qed.

(** White space around a value does not survive [trim]. *)
Lemma trim_surrounded (a s b : jsstring) :
  all_whitespace a -> all_whitespace b -> trim (a ++ s ++ b) = trim s.
Proof.
  intros Ha Hb. unfold trim.
  rewrite (trimStart_app a), (trimStart_all_whitespace a Ha).
  rewrite trimStart_app. destruct (trimStart s) as [|c y] eqn:Hs.
  - by rewrite (trimStart_all_whitespace b Hb).
  - by rewrite trimEnd_app_whitespace.
Qed.

Lemma trimStart_head (s : jsstring) c y :
  trimStart s = c :: y -> is_whitespace c = false.
Proof.
  induction s as [|d s IH]; simpl; [done|].
  destruct (is_whitespace d) eqn:Hd; [done|]. by intros [= <- _].
Qed.

Lemma trimEnd_keeps_head c (y : jsstring) :
  is_whitespace c = false -> exists w, trimEnd (c :: y) = c :: w.
Proof.
  intros Hc. unfold trimEnd. simpl. rewrite trimStart_app.
  destruct (trimStart (rev y)) as [|d z]; simpl.
  - rewrite Hc. by exists [].
  - rewrite rev_app_distr. simpl. by eexists.
Qed.

Lemma trim_idempotent (s : jsstring) : trim (trim s) = trim s.
Proof.
  unfold trim. destruct (trimStart s) as [|c y] eqn:Hs; [done|].
  destruct (trimEnd_keeps_head c y (trimStart_head _ _ _ Hs)) as [w Hw].
  assert (Hst : trimStart (trimEnd (c :: y)) = trimEnd (c :: y)).
  { rewrite Hw. simpl. by rewrite (trimStart_head _ _ _ Hs). }
  rewrite Hst. unfold trimEnd. by rewrite rev_involutive, trimStart_idempotent.
Qed.

(** ** The derivative matcher decides the language of a pattern *)

Lemma nullable_Matches (r : regex) : nullable r = true <-> Matches r [].
Proof.
  split.
  - induction r; simpl; intros H; try discriminate.
    + constructor.
    + apply andb_true_iff in H as [H1 H2].
      change (@nil code_unit) with (@nil code_unit ++ []). constructor; auto.
    + apply orb_true_iff in H as [H|H]; [apply MAltL | apply MAltR]; auto.
    + constructor.
  - intros H. remember [] as s eqn:Hs. induction H; simpl; subst; try done.
    + apply app_eq_nil in Hs as [-> ->]. by rewrite IHMatches1, IHMatches2.
    + by rewrite IHMatches.
    + rewrite IHMatches; [|done]. by destruct (nullable r1).
Qed.

Lemma deriv_Matches (r : regex) c (s : jsstring) :
  Matches (deriv c r) s <-> Matches r (c :: s).
Proof.
  split.
  - revert s. induction r; simpl; intros s H.
    + inversion H.
    + inversion H.
    + destruct (class_matches negated atoms c) eqn:Hc; inversion H; subst.
      by constructor.
    + destruct (nullable r1) eqn:Hn.
      * inversion H as [| | |? ? ? H1|? ? ? H1| |]; subst.
        -- inversion H1; subst.
           change (c :: s1 ++ s2) with ((c :: s1) ++ s2). constructor; auto.
        -- change (c :: s) with ([] ++ c :: s). constructor; auto.
           by apply nullable_Matches.
      * inversion H; subst.
        change (c :: s1 ++ s2) with ((c :: s1) ++ s2). constructor; auto.
    + inversion H; subst; [apply MAltL | apply MAltR]; auto.
    + inversion H; subst.
      change (c :: s1 ++ s2) with ((c :: s1) ++ s2). constructor; auto.
  - intros H. remember (c :: s) as cs eqn:Hcs. revert s Hcs.
    induction H; intros s' Hcs; simpl; try discriminate.
    + injection Hcs as Hc Hs. subst. rewrite H. constructor.
    + destruct s1 as [|d s1]; simpl in Hcs.
      * subst s2. apply nullable_Matches in H. rewrite H.
        apply MAltR. by apply IHMatches2.
      * injection Hcs as Hc Hs. subst.
        destruct (nullable r1); [apply MAltL|]; constructor; auto.
    + apply MAltL. auto.
    + apply MAltR. auto.
    + destruct s1 as [|d s1]; simpl in Hcs.
      * by apply IHMatches2.
      * injection Hcs as Hc Hs. subst. constructor; auto.
Qed.

Lemma test_Matches (r : regex) (s : jsstring) :
  test r s = true <-> Matches r s.
Proof.
  unfold test. revert r. induction s as [|c s IH]; intros r; simpl.
  - apply nullable_Matches.
  - rewrite IH. apply deriv_Matches.
Qed.

(** ** Contact form validation *)

Section ContactFormFacts.
Import ContactForm.

Lemma validationRules_keys (nm : jsstring) (r : rules) :
  validationRules !! nm = Some r ->
  (nm = js "name" /\ r = name_rules) \/
  (nm = js "email" /\ r = email_rules) \/
  (nm = js "subject" /\ r = subject_rules) \/
  (nm = js "message" /\ r = message_rules).
Proof.
  unfold validationRules. intros H.
  repeat (apply lookup_insert_Some in H as [[<- <-]|[_ H]]; [by auto 6|]).
  by rewrite lookup_empty in H.
Qed.

Lemma validationRules_required (nm : jsstring) (r : rules) :
  validationRules !! nm = Some r -> required r = true.
Proof.
  intros H. by destruct (validationRules_keys _ _ H)
    as [[_ ->]|[[_ ->]|[[_ ->]|[_ ->]]]].
Qed.

(** The verdict of [validateField], as one boolean expression over
    the trimmed value. *)
Lemma validateField_isValid (nm v : jsstring) :
  isValid (validateField {| name := nm; value := v |}) =
  match validationRules !! nm with
  | None => true
  | Some r =>
      negb (required r && negb (truthy (trim v)))
      && negb (match bound_set (minLength r) with
               | Some m => (length (trim v) <? m)%nat
               | None => false
               end)
      && negb (match bound_set (maxLength r) with
               | Some m => (m <? length (trim v))%nat
               | None => false
               end)
      && negb (match pattern r with
               | Some p => negb (test p (trim v))
               | None => false
               end)
  end.
Proof.
  unfold validateField. simpl.
  destruct (validationRules !! nm) as [r|]; [|done].
  repeat match goal with
         | |- context [if ?b then _ else _] => destruct b; simpl
         end; done.
Qed.

(** [validateField] says "valid" exactly when every rule of the field
    holds of the trimmed value. *)
Lemma validateField_valid_iff (nm v : jsstring) :
  isValid (validateField {| name := nm; value := v |}) = true <->
  match validationRules !! nm with
  | None => True
  | Some r =>
      (required r = true -> trim v <> []) /\
      (forall m, bound_set (minLength r) = Some m -> m <= length (trim v)) /\
      (forall m, bound_set (maxLength r) = Some m -> length (trim v) <= m) /\
      (forall p, pattern r = Some p -> test p (trim v) = true)
  end.
Proof.
  rewrite validateField_isValid.
  destruct (validationRules !! nm) as [r|]; [|done].
  rewrite !andb_true_iff, !negb_true_iff.
  assert (Hreq : required r && negb (truthy (trim v)) = false <->
                 (required r = true -> trim v <> [])).
  { destruct (required r), (trim v); simpl; split; try done.
    intros H. by destruct H. }
  assert (Hmin : match bound_set (minLength r) with
                 | Some m => (length (trim v) <? m)%nat
                 | None => false
                 end = false <->
                 forall m, bound_set (minLength r) = Some m -> m <= length (trim v)).
  { destruct (bound_set (minLength r)) as [m|]; [|done].
    rewrite Nat.ltb_ge. split; [by intros H ? [= <-] | by intros H; apply H]. }
  assert (Hmax : match bound_set (maxLength r) with
                 | Some m => (m <? length (trim v))%nat
                 | None => false
                 end = false <->
                 forall m, bound_set (maxLength r) = Some m -> length (trim v) <= m).
  { destruct (bound_set (maxLength r)) as [m|]; [|done].
    rewrite Nat.ltb_ge. split; [by intros H ? [= <-] | by intros H; apply H]. }
  assert (Hpat : match pattern r with
                 | Some p => negb (test p (trim v))
                 | None => false
                 end = false <->
                 forall p, pattern r = Some p -> test p (trim v) = true).
  { destruct (pattern r) as [p|]; [|done].
    rewrite negb_false_iff. split; [by intros H ? [= <-] | by intros H; apply H]. }
  tauto.
Qed.

(** Two values with the same trimmed form get the same verdict and
    the same message. *)
Lemma validateField_trim_eq (nm v w : jsstring) :
  trim v = trim w ->
  validateField {| name := nm; value := v |}
  = validateField {| name := nm; value := w |}.
Proof. intros H. unfold validateField. simpl. by rewrite H. Qed.

Lemma validateField_message_length (v : jsstring) :
  isValid (validateField {| name := js "message"; value := v |})
  = ((10 <=? length (trim v)) && (length (trim v) <=? 1000))%nat.
Proof.
  rewrite validateField_isValid.
  replace (validationRules !! js "message") with (Some message_rules)
    by (symmetry; by vm_compute).
  cbn [message_rules required minLength maxLength pattern bound_set].
  destruct (trim v) as [|c t]; [done|]. cbn [truthy negb andb].
  rewrite andb_true_r, Nat.ltb_antisym, negb_involutive.
  by rewrite (Nat.ltb_antisym (length (c :: t)) 1000), negb_involutive.
Qed.

Lemma validationRules_email : validationRules !! js "email" = Some email_rules.
Proof. by vm_compute. Qed.

Lemma validationRules_message :
  validationRules !! js "message" = Some message_rules.
Proof. by vm_compute. Qed.

(** C5.  The email field's validator rejects ["foo@bar"], because the
    email pattern does not match it, and accepts ["foo@bar.com"]: the
    result's [isValid] is [false] for the former (with the email
    rule's message) and [true] for the latter. *)
Theorem validateField_email_examples :
  validateField {| name := js "email"; value := js "foo@bar" |}
  = {| isValid := false; feedback := js "Please enter a valid email address" |}
  /\ test email_pattern (js "foo@bar") = false
  /\ ~ Matches email_pattern (js "foo@bar")
  /\ validateField {| name := js "email"; value := js "foo@bar.com" |}
     = {| isValid := true; feedback := [] |}
  /\ Matches email_pattern (js "foo@bar.com").
Proof.
  assert (Hno : test email_pattern (js "foo@bar") = false) by by vm_compute.
  repeat split; try by vm_compute.
  - rewrite <- test_Matches. by rewrite Hno.
  - apply test_Matches. by vm_compute.
Qed.

(** C6.  The message field's validator rejects a value whose trimmed
    form has length 9, accepts one of length 10 and rejects one of
    length 1001 (minimum length 10, maximum length 1000). *)
Theorem validateField_message_examples (v : jsstring) :
  (length (trim v) = 9 ->
   validateField {| name := js "message"; value := v |}
   = {| isValid := false; feedback := message message_rules |})
  /\ (length (trim v) = 10 ->
      validateField {| name := js "message"; value := v |}
      = {| isValid := true; feedback := [] |})
  /\ (length (trim v) = 1001 ->
      validateField {| name := js "message"; value := v |}
      = {| isValid := false; feedback := message message_rules |}).
Proof.
  unfold validateField. cbn [name value]. rewrite validationRules_message.
  cbn [message_rules required minLength maxLength pattern bound_set].
  repeat split; intros H; (destruct (trim v) as [|c t]; [done|]);
    cbn [truthy negb andb]; by rewrite H.
Qed.

Lemma validateField_message_examples_witness :
  validateField {| name := js "message"; value := js "  123456789 " |}
  = {| isValid := false; feedback := message message_rules |}
  /\ validateField {| name := js "message"; value := js "1234567890" |}
     = {| isValid := true; feedback := [] |}
  /\ validateField {| name := js "message"; value := repeat (cu "x") 1001 |}
     = {| isValid := false; feedback := message message_rules |}.
Proof.
  split; [|split].
  - apply (proj1 (validateField_message_examples (js "  123456789 "))).
    vm_compute. reflexivity.
  - apply (proj1 (proj2 (validateField_message_examples (js "1234567890")))).
    vm_compute. reflexivity.
  - apply (proj2 (proj2 (validateField_message_examples (repeat (cu "x") 1001)))).
    vm_compute. reflexivity.
Defined.

(** C10.  Validation works on the trimmed value: the result for a value
    is the result for its trimmed form, white space put around a value
    changes nothing, a value of white space only fails a required rule
    with the message "<Field> is required", and the length checks
    compare the bounds with the length of the trimmed value. *)
Theorem validateField_trimmed (nm v : jsstring) :
  validateField {| name := nm; value := v |}
  = validateField {| name := nm; value := trim v |}
  /\ (forall a b, all_whitespace a -> all_whitespace b ->
      validateField {| name := nm; value := a ++ v ++ b |}
      = validateField {| name := nm; value := v |})
  /\ (forall r, validationRules !! nm = Some r -> required r = true ->
      all_whitespace v ->
      validateField {| name := nm; value := v |}
      = {| isValid := false; feedback := capitalize nm ++ js " is required" |})
  /\ (forall r m, validationRules !! nm = Some r ->
      bound_set (minLength r) = Some m ->
      trim v <> [] -> length (trim v) < m ->
      validateField {| name := nm; value := v |}
      = {| isValid := false; feedback := message r |})
  /\ (forall r m, validationRules !! nm = Some r ->
      bound_set (maxLength r) = Some m ->
      m < length (trim v) ->
      isValid (validateField {| name := nm; value := v |}) = false)
  /\ (forall r, validationRules !! nm = Some r ->
      isValid (validateField {| name := nm; value := v |}) = true ->
      (forall m, bound_set (minLength r) = Some m -> m <= length (trim v)) /\
      (forall m, bound_set (maxLength r) = Some m -> length (trim v) <= m)).
Proof.
  split; [|split; [|split; [|split; [|split]]]].
  - apply validateField_trim_eq. by rewrite trim_idempotent.
  - intros a b Ha Hb. apply validateField_trim_eq. by apply trim_surrounded.
  - intros r Hr Hreq Hv. unfold validateField. cbn [name value].
    by rewrite Hr, Hreq, (trim_all_whitespace v Hv).
  - intros r m Hr Hm Hne Hlt. unfold validateField. cbn [name value].
    rewrite Hr, Hm. destruct (trim v) as [|c t]; [done|].
    cbn [truthy negb]. rewrite andb_false_r.
    by apply Nat.ltb_lt in Hlt as ->.
  - intros r m Hr Hm Hlt.
    destruct (isValid _) eqn:Hvalid; [|done].
    apply validateField_valid_iff in Hvalid. rewrite Hr in Hvalid.
    destruct Hvalid as (_ & _ & Hmax & _). specialize (Hmax _ Hm). lia.
  - intros r Hr Hvalid.
    apply validateField_valid_iff in Hvalid. rewrite Hr in Hvalid. tauto.
Qed.

Lemma validateField_trimmed_witness :
  validateField {| name := js "subject"; value := js "  " |}
  = {| isValid := false; feedback := js "Subject is required" |}
  /\ validateField {| name := js "subject"; value := js "  abcd  " |}
     = {| isValid := false; feedback := message subject_rules |}
  /\ validateField {| name := js "message"; value := js " " ++ js "0123456789" ++ js "  " |}
     = validateField {| name := js "message"; value := js "0123456789" |}
  /\ isValid (validateField {| name := js "message"; value := repeat (cu "x") 1001 |})
     = false.
Proof.
  split; [|split; [|split]].
  - apply (proj1 (proj2 (proj2 (validateField_trimmed (js "subject") (js "  "))))
             subject_rules); [by vm_compute | done | by repeat constructor].
  - apply (proj1 (proj2 (proj2 (proj2 (validateField_trimmed (js "subject") (js "  abcd  ")))))
             subject_rules 5); [by vm_compute | done | by vm_compute |].
    vm_compute. lia.
  - apply (proj1 (proj2 (validateField_trimmed (js "message") (js "0123456789"))));
      by repeat constructor.
  - apply (proj1 (proj2 (proj2 (proj2 (proj2
             (validateField_trimmed (js "message") (repeat (cu "x") 1001))))))
             message_rules 1000); [by vm_compute | done |].
    vm_compute. lia.
Defined.

End ContactFormFacts.

(** ** Array slices *)

Lemma slice_length {A : Type} (start count : nat) (arr : list A) :
  start <= length arr ->
  length (slice start (Nat.min (start + count) (length arr)) arr)
  = Nat.min count (length arr - start).
Proof.
  intros H. unfold slice. rewrite length_take, length_drop. lia.
Qed.

(** The records before [start] followed by the next slice are the
    records before the new count. *)
Lemma take_slice {A : Type} (start count : nat) (arr : list A) :
  let page := slice start (Nat.min (start + count) (length arr)) arr in
  take start arr ++ page = take (start + length page) arr.
Proof.
  intros page. subst page. unfold slice.
  rewrite take_take_drop. f_equal. rewrite length_take, length_drop. lia.
Qed.

Lemma slice_nil {A : Type} (start stop : nat) : slice start stop (@nil A) = [].
Proof. unfold slice. by rewrite drop_nil, take_nil. Qed.

Lemma slice_at_end {A : Type} (start stop : nat) (arr : list A) :
  length arr <= start -> slice start stop arr = [].
Proof. intros H. unfold slice. by rewrite drop_ge, take_nil. Qed.

Lemma with_class_app (c : string) (l1 l2 : list node) :
  with_class c (l1 ++ l2) = with_class c l1 ++ with_class c l2.
Proof. unfold with_class. apply filter_app. Qed.

Lemma with_class_map {A : Type} (c : string) (f : A -> node) (l : list A) :
  (forall x, node_class (f x) = c) -> with_class c (map f l) = map f l.
Proof.
  intros Hf. unfold with_class. induction l as [|x l IH]; simpl; [done|].
  rewrite filter_cons_True by apply Hf. by rewrite IH.
Qed.

(** ** Projects loader *)

Section ProjectsFacts.
Import Projects.

Lemma visibleCard_class (p : project) : node_class (visibleCard p) = "project-card".
Proof. reflexivity. Qed.

(** [forEach] appends one card per record of the slice, in order, and
    counts each. *)
Lemma fold_renderProject (page : list project) (st : state) (g : list node) :
  projectsGrid st = Some g ->
  fold_left renderProject page st
  = {| projectsLoaded := projectsLoaded st + length page;
       allProjects := allProjects st;
       projectsGrid := Some (g ++ map visibleCard page);
       loadMoreBtn := loadMoreBtn st;
       fetches := fetches st |}.
Proof.
  revert st g. induction page as [|p page IH]; intros st g Hg; simpl.
  - destruct st; simpl in *. subst. by rewrite Nat.add_0_r, app_nil_r.
  - rewrite (IH _ (g ++ [visibleCard p])).
    + simpl. rewrite <- app_assoc. simpl. f_equal. lia.
    + unfold renderProject, set_loaded, appendChild. simpl. by rewrite Hg.
Qed.

Lemma renderNext_spec (count : nat) (st : state) (g : list node) :
  projectsGrid st = Some g ->
  let page := projectsToLoad count st in
  exists st',
    renderNext count st = Normal st'
    /\ projectsLoaded st' = projectsLoaded st + length page
    /\ allProjects st' = allProjects st
    /\ projectsGrid st' = Some (g ++ map visibleCard page)
    /\ fetches st' = fetches st
    /\ loadMoreBtn st'
       = if bool_decide (length (allProjects st) <= projectsLoaded st + length page)
         then (fun _ => js "none") <$> loadMoreBtn st
         else loadMoreBtn st.
Proof.
  intros Hg page. unfold renderNext. fold page.
  rewrite (fold_renderProject page st g Hg). simpl.
  case_bool_decide; eexists; (split; [reflexivity|]); simpl; done.
Qed.

(** The four ways a call of [loadProjects] goes. *)
Lemma loadProjects_cases (count : nat) (resp : response) (st : state) :
  (projectsGrid st = None /\ loadProjects count resp st = Normal st)
  \/ (exists g, projectsGrid st = Some g /\ allProjects st <> []
       /\ loadProjects count resp st = renderNext count st)
  \/ (exists g status d, projectsGrid st = Some g /\ allProjects st = []
       /\ resp = Http true status (JsonData d)
       /\ loadProjects count resp st
          = renderNext count
              (set_grid [] (set_all (reverse (default [] d))
                 (count_fetch (set_grid [loadingMessage] st)))))
  \/ (exists g, projectsGrid st = Some g /\ allProjects st = []
       /\ (fetch_fails resp = true \/ exists status, resp = Http true status JsonNull)
       /\ loadProjects count resp st
          = Normal (set_grid [errorMessage]
                      (count_fetch (set_grid [loadingMessage] st)))).
Proof.
  unfold loadProjects. destruct (projectsGrid st) as [g|] eqn:Hg; [|by left].
  right. unfold fetchAll.
  destruct (allProjects st) as [|p ps] eqn:Hall; simpl.
  - right. destruct resp as [|[] status [| |d]]; simpl.
    + right. exists g. by auto.
    + right. exists g. by auto.
    + right. exists g. repeat split; eauto.
    + left. exists g, status, d. repeat split; try done.
      match goal with |- context [renderNext count ?s] =>
        destruct (renderNext_spec count s [] eq_refl) as (st' & -> & _) end.
      done.
    + right. exists g. by auto.
    + right. exists g. by auto.
    + right. exists g. by auto.
  - left. exists g. repeat split; try done.
    destruct (renderNext_spec count st g Hg) as (st' & -> & _). done.
Qed.
Lemma cards_grid (st : state) (g : list node) :
  projectsGrid st = Some g -> cards st = with_class "project-card" g.
Proof. unfold cards. by intros ->. Qed.

(** One call of [loadProjects] from a consistent state: it adds the
    cards of the next slice and nothing else, counts them, and leaves a
    consistent state. *)
Lemma loadProjects_step (count : nat) (resp : response) (st : state) :
  consistent st ->
  let st' := state_of (loadProjects count resp st) in
  let page :=
    slice (projectsLoaded st)
      (Nat.min (projectsLoaded st + count) (length (allProjects st')))
      (allProjects st') in
  cards st' = cards st ++ map visibleCard page
  /\ projectsLoaded st' = projectsLoaded st + length page
  /\ consistent st'.
Proof.
  intros (Hle & Hcards & Hnone).
  destruct (loadProjects_cases count resp st)
    as [[Hg ->]|[(g & Hg & Hall & ->)|[(g & status & d & Hg & Hall & _ & ->)
       |(g & Hg & Hall & _ & ->)]]]; simpl.
  - rewrite (Hnone Hg), slice_nil. simpl. rewrite app_nil_r, Nat.add_0_r.
    by repeat split.
  - destruct (renderNext_spec count st g Hg)
      as (st' & -> & Hl & Ha & Hgrid & _). simpl.
    unfold projectsToLoad in Hl, Hgrid. rewrite Ha.
    set (page := slice _ _ (allProjects st)) in *.
    assert (Hc : cards st' = cards st ++ map visibleCard page).
    { rewrite (cards_grid st' _ Hgrid), (cards_grid st g Hg), with_class_app.
      by rewrite (with_class_map _ _ _ visibleCard_class). }
    assert (Hlen : length page = Nat.min count (length (allProjects st) - projectsLoaded st))
      by by apply slice_length.
    repeat split; try done.
    + rewrite Hl, Ha. lia.
    + rewrite Hc, Hcards, <- map_app, Hl, Ha. f_equal. apply take_slice.
    + by rewrite Hgrid.
  - rewrite Hall in Hle, Hcards. simpl in Hle.
    assert (H0 : projectsLoaded st = 0) by lia. rewrite H0 in *.
    match goal with |- context [renderNext count ?s] =>
      destruct (renderNext_spec count s [] eq_refl)
        as (st' & -> & Hl & Ha & Hgrid & _) end.
    simpl in *. unfold projectsToLoad in Hl, Hgrid. simpl in Hl, Hgrid.
    rewrite H0 in Hl, Hgrid. simpl in Hl, Hgrid.
    rewrite Ha, Hcards. set (arr := reverse (default [] d)) in *.
    set (page := slice 0 _ arr) in *.
    assert (Hc : cards st' = map visibleCard page).
    { rewrite (cards_grid st' _ Hgrid). simpl.
      by rewrite (with_class_map _ _ _ visibleCard_class). }
    assert (Hlen : length page = Nat.min count (length arr - 0))
      by (apply (slice_length 0 count arr); lia).
    repeat split; try done.
    + rewrite Hl, Ha. lia.
    + rewrite Hc, Hl, Ha. f_equal. exact (take_slice 0 count arr).
    + by rewrite Hgrid.
  - rewrite Hall in *. simpl in Hle. rewrite slice_nil.
    assert (H0 : projectsLoaded st = 0) by lia. rewrite H0 in *.
    rewrite Hcards. unfold consistent, cards. simpl. rewrite H0, Hall.
    by repeat split.
Qed.

Lemma reload_consistent (resp : response) (st : state) :
  consistent (state_of (reload resp st)).
Proof.
  unfold reload. simpl. destruct (projectsGrid st) as [g|] eqn:Hg.
  - apply loadProjects_step. by repeat split.
  - simpl. unfold consistent, cards. simpl. rewrite Hg. by repeat split.
Qed.

Lemma step_consistent (c : call) (st : state) :
  consistent st -> consistent (state_of (step c st)).
Proof.
  intros H. destruct c as [count resp|resp|resp]; simpl.
  - by apply loadProjects_step.
  - by apply loadProjects_step.
  - apply reload_consistent.
Qed.

Lemma run_consistent (calls : list call) (st : state) :
  consistent st -> consistent (run calls st).
Proof.
  revert st. induction calls as [|c calls IH]; intros st H; [done|].
  apply IH. by apply step_consistent.
Qed.

Lemma fresh_consistent (grid : option (list node)) (btn : option jsstring) :
  cards (fresh grid btn) = [] -> consistent (fresh grid btn).
Proof. intros H. by repeat split. Qed.

(** [loadProjects] never ends by a throw. *)
Lemma loadProjects_returns (count : nat) (resp : response) (st : state) :
  exists st', loadProjects count resp st = Normal st'.
Proof.
  destruct (loadProjects_cases count resp st)
    as [[_ ->]|[(g & Hg & _ & ->)|[(g & status & d & _ & _ & _ & ->)
       |(g & _ & _ & _ & ->)]]]; eauto.
  - destruct (renderNext_spec count st g Hg) as (st' & -> & _). eauto.
  - match goal with |- context [renderNext count ?s] =>
      destruct (renderNext_spec count s [] eq_refl) as (st' & -> & _) end.
    eauto.
Qed.

Lemma loadProjects_failed (count : nat) (resp : response) (st : state) g :
  projectsGrid st = Some g -> allProjects st = [] -> fetch_fails resp = true ->
  loadProjects count resp st
  = Normal (set_grid [errorMessage] (count_fetch (set_grid [loadingMessage] st))).
Proof.
  intros Hg Hall Hf. unfold loadProjects, fetchAll. rewrite Hg, Hall. simpl.
  by destruct resp as [|[] status [| |d]].
Qed.

(** With a non-empty array in memory, load and load-more calls do not
    fetch. *)
Lemma cached_calls_do_not_fetch (calls : list call) (st : state) :
  allProjects st <> [] ->
  Forall (fun c => forall resp, c <> Reload resp) calls ->
  fetches (run calls st) = fetches st
  /\ allProjects (run calls st) = allProjects st.
Proof.
  revert st. induction calls as [|c calls IH]; intros st Hne Hcalls; [done|].
  apply Forall_cons in Hcalls as [Hc Hcalls]. simpl.
  assert (Hstep : fetches (state_of (step c st)) = fetches st
                  /\ allProjects (state_of (step c st)) = allProjects st).
  { assert (Hload : forall count resp,
              fetches (state_of (loadProjects count resp st)) = fetches st
              /\ allProjects (state_of (loadProjects count resp st)) = allProjects st).
    { intros count resp.
      destruct (loadProjects_cases count resp st)
        as [[_ ->]|[(g & Hg & _ & ->)|[(g & status & d & _ & Hall & _)
           |(g & _ & Hall & _)]]]; try done.
      destruct (renderNext_spec count st g Hg) as (st' & -> & _ & Ha & _ & Hf & _).
      done. }
    destruct c as [count resp|resp|resp]; simpl; try apply Hload.
    by destruct (Hc resp). }
  destruct Hstep as [Hf Ha].
  destruct (IH (state_of (step c st))) as [IHf IHa]; [by rewrite Ha | done |].
  by rewrite IHf, IHa.
Qed.

(** One call on an empty in-memory array whose fetch delivers an empty
    array: a fetch is issued and the array is empty again. *)
Lemma empty_payload_step (st : state) (g : list node) :
  projectsGrid st = Some g -> allProjects st = [] -> projectsLoaded st = 0 ->
  let st' := state_of (step (LoadMore (ok_with [])) st) in
  projectsGrid st' = Some [] /\ allProjects st' = [] /\ projectsLoaded st' = 0
  /\ fetches st' = S (fetches st).
Proof.
  intros Hg Hall H0. simpl. unfold loadProjects, fetchAll. rewrite Hg, Hall. simpl.
  unfold renderNext, projectsToLoad. simpl. by rewrite H0.
Qed.
End ProjectsFacts.

(** Whether the control ends up hidden after the check at the end of a
    load, given that it was hidden before only with everything loaded. *)
Lemma hidden_after_load (btn : option jsstring) (loaded total : nat) :
  is_Some btn -> loaded <= total ->
  (btn = Some (js "none") -> total <= loaded) ->
  (if bool_decide (total <= loaded) then (fun _ => js "none") <$> btn else btn)
  = Some (js "none")
  <-> loaded = total.
Proof.
  intros [d ->] Hle Hbefore. case_bool_decide as Hall; simpl.
  - split; [lia | done].
  - split; [|lia]. intros H. specialize (Hbefore H). lia.
Qed.

Section ProjectsControl.
Import Projects.

Lemma delivers_response (data : option (list project)) (c : call) :
  delivers data c ->
  exists status, response_of c = Http true status (JsonData data).
Proof.
  unfold delivers. destruct (response_of c) as [|[] status [| |d]]; try done.
  intros ->. eauto.
Qed.

(** A successful call keeps, or establishes, that the control is hidden
    exactly when everything is loaded. *)
Lemma loadProjects_shows (data : option (list project)) (count status : nat)
    (st : state) :
  is_Some (projectsGrid st) -> is_Some (loadMoreBtn st) ->
  projectsLoaded st <= length (allProjects st) ->
  allProjects st = [] \/ allProjects st = reverse (default [] data) ->
  (hidden st -> allProjects st = reverse (default [] data)
                /\ projectsLoaded st = length (allProjects st)) ->
  shows data (state_of (loadProjects count (Http true status (JsonData data)) st)).
Proof.
  intros Hgrid Hbtn Hle Harr Hhid.
  destruct (loadProjects_cases count (Http true status (JsonData data)) st)
    as [[Hg _]|[(g & Hg & Hne & ->)|[(g & status' & d & Hg & Hall & Hresp & ->)
       |(g & _ & _ & [Hf|[? Hf]] & _)]]]; try done.
  - rewrite Hg in Hgrid. by destruct Hgrid.
  - destruct Harr as [Harr|Harr]; [done|].
    destruct (renderNext_spec count st g Hg)
      as (st' & -> & Hl & Ha & Hg' & _ & Hb). simpl.
    assert (Hlen : length (projectsToLoad count st)
                   = Nat.min count (length (allProjects st) - projectsLoaded st))
      by by apply slice_length.
    unfold shows, hidden. rewrite Hg', Hb, Hl, Ha.
    repeat split; try done; try lia.
    + destruct Hbtn as [b ->]. by case_bool_decide.
    + apply hidden_after_load; [done | lia |]. intros Hh.
      destruct (Hhid Hh) as [_ Heq]. lia.
    + apply hidden_after_load; [done | lia |]. intros Hh.
      destruct (Hhid Hh) as [_ Heq]. lia.
  - injection Hresp as <- <-.
    rewrite Hall in Hle. simpl in Hle.
    assert (H0 : projectsLoaded st = 0) by lia.
    match goal with |- context [renderNext count ?s] =>
      destruct (renderNext_spec count s [] eq_refl)
        as (st' & -> & Hl & Ha & Hg' & _ & Hb);
      assert (Hlen : length (projectsToLoad count s)
                     = Nat.min count (length (allProjects s) - projectsLoaded s))
        by (apply slice_length; simpl; lia)
    end.
    simpl in *. rewrite H0 in *. simpl in *.
    unfold shows, hidden. rewrite Hg', Hb, Hl, Ha.
    assert (Hbefore : loadMoreBtn st = Some (js "none") ->
              length (reverse (default [] data))
              <= length (projectsToLoad count
                   (set_grid [] (set_all (reverse (default [] data))
                      (count_fetch (set_grid [loadingMessage] st)))))).
    { intros Hh. destruct (Hhid Hh) as [Heq _].
      rewrite <- Heq, Hall. simpl. lia. }
    repeat split; try done; try lia.
    + destruct Hbtn as [b ->]. by case_bool_decide.
    + apply hidden_after_load; [done | lia | done].
    + apply hidden_after_load; [done | lia | done].
Qed.

(** A successful [reload] invoked while the control is shown. *)
Lemma reload_shows (data : option (list project)) (status : nat) (st : state) :
  is_Some (projectsGrid st) -> is_Some (loadMoreBtn st) -> ~ hidden st ->
  shows data (state_of (reload (Http true status (JsonData data)) st)).
Proof.
  intros [g Hg] Hb Hshown. unfold reload. simpl. rewrite Hg.
  apply loadProjects_shows; simpl; try done; by left.
Qed.

(** One successful call, not a [reload] with the control hidden, from a
    state that is fresh or shows the document. *)
Lemma step_shows (data : option (list project)) (c : call) (st : state) :
  delivers data c -> (is_reload c = true -> ~ hidden st) ->
  is_Some (projectsGrid st) -> is_Some (loadMoreBtn st) ->
  projectsLoaded st <= length (allProjects st) ->
  allProjects st = [] \/ allProjects st = reverse (default [] data) ->
  (hidden st -> allProjects st = reverse (default [] data)
                /\ projectsLoaded st = length (allProjects st)) ->
  shows data (state_of (step c st)).
Proof.
  intros Hc Hreload Hg Hb Hle Harr Hh.
  destruct (delivers_response data c Hc) as [status Hresp].
  destruct c as [count resp|resp|resp]; simpl in *; subst resp.
  - by apply loadProjects_shows.
  - by apply loadProjects_shows.
  - apply reload_shows; auto.
Qed.

Lemma run_shows (data : option (list project)) (calls : list call) (st : state) :
  Forall (delivers data) calls -> reloads_while_shown calls st ->
  shows data st -> shows data (run calls st).
Proof.
  revert st. induction calls as [|c calls IH]; intros st Hcalls Hrel Hst; [done|].
  apply Forall_cons in Hcalls as [Hc Hcalls]. destruct Hrel as [Hrel1 Hrel].
  simpl. apply IH; [done | done |].
  destruct Hst as (Hg & Hb & Ha & Hle & Hh).
  apply step_shows; try done; [by right|].
  intros Hhid. split; [done|]. by apply Hh.
Qed.

Lemma first_call_shows (data : option (list project)) (c : call)
    (g : list node) (display : jsstring) :
  delivers data c -> display <> js "none" ->
  shows data (state_of (step c (fresh (Some g) (Some display)))).
Proof.
  intros Hc Hd.
  assert (Hshown : ~ hidden (fresh (Some g) (Some display))).
  { unfold hidden. simpl. by intros [= ->]. }
  apply step_shows; simpl; try done; by left.
Qed.
End ProjectsControl.

(** ** Gallery loader *)

Section GalleryFacts.
Import Gallery.

Lemma createGalleryItem_class (p : imageData) : node_class (createGalleryItem p) = "gallery-item loading".
Proof. reflexivity. Qed.

(** [forEach] appends one item per record of the slice, in order, and
    counts each. *)
Lemma fold_renderImage (page : list imageData) (st : state) (g : list node) :
  galleryGrid st = Some g ->
  fold_left renderImage page st
  = {| imagesLoaded := imagesLoaded st + length page;
       allImages := allImages st;
       galleryGrid := Some (g ++ map createGalleryItem page);
       loadMoreBtn := loadMoreBtn st;
       fetches := fetches st |}.
Proof.
  revert st g. induction page as [|p page IH]; intros st g Hg; simpl.
  - destruct st; simpl in *. subst. by rewrite Nat.add_0_r, app_nil_r.
  - rewrite (IH _ (g ++ [createGalleryItem p])).
    + simpl. rewrite <- app_assoc. simpl. f_equal. lia.
    + unfold renderImage, set_loaded, appendChild. simpl. by rewrite Hg.
Qed.

Lemma renderNext_images (count : nat) (st : state) (g : list node) :
  galleryGrid st = Some g ->
  let page := imagesToLoad count st in
  exists st',
    renderNext count st = Normal st'
    /\ imagesLoaded st' = imagesLoaded st + length page
    /\ allImages st' = allImages st
    /\ galleryGrid st' = Some (g ++ map createGalleryItem page)
    /\ fetches st' = fetches st
    /\ loadMoreBtn st'
       = if bool_decide (length (allImages st) <= imagesLoaded st + length page)
         then (fun _ => js "none") <$> loadMoreBtn st
         else loadMoreBtn st.
Proof.
  intros Hg page. unfold renderNext. fold page.
  rewrite (fold_renderImage page st g Hg). simpl.
  case_bool_decide; eexists; (split; [reflexivity|]); simpl; done.
Qed.

(** The four ways a call of [loadImages] goes. *)
Lemma loadImages_cases (count : nat) (resp : response) (st : state) :
  (galleryGrid st = None /\ loadImages count resp st = Normal st)
  \/ (exists g, galleryGrid st = Some g /\ allImages st <> []
       /\ loadImages count resp st = renderNext count st)
  \/ (exists g status d, galleryGrid st = Some g /\ allImages st = []
       /\ resp = Http true status (JsonData d)
       /\ loadImages count resp st
          = renderNext count
              (set_all (default [] d) (count_fetch st)))
  \/ (exists g, galleryGrid st = Some g /\ allImages st = []
       /\ (fetch_fails resp = true \/ exists status, resp = Http true status JsonNull)
       /\ loadImages count resp st
          = Normal (set_grid [errorMessage] (count_fetch st))).
Proof.
  unfold loadImages. destruct (galleryGrid st) as [g|] eqn:Hg; [|by left].
  right. unfold fetchAll.
  destruct (allImages st) as [|p ps] eqn:Hall; simpl.
  - right. destruct resp as [|[] status [| |d]]; simpl.
    + right. exists g. by auto.
    + right. exists g. by auto.
    + right. exists g. repeat split; eauto.
    + left. exists g, status, d. repeat split; try done.
      match goal with |- context [renderNext count ?s] =>
        destruct (renderNext_images count s g Hg) as (st' & -> & _) end.
      done.
    + right. exists g. by auto.
    + right. exists g. by auto.
    + right. exists g. by auto.
  - left. exists g. repeat split; try done.
    destruct (renderNext_images count st g Hg) as (st' & -> & _). done.
Qed.
Lemma gallery_cards_grid (st : state) (g : list node) :
  galleryGrid st = Some g -> cards st = with_class "gallery-item loading" g.
Proof. unfold cards. by intros ->. Qed.

(** One call of [loadImages] from a consistent state: it adds the
    items of the next slice and nothing else, counts them, and leaves a
    consistent state. *)
Lemma loadImages_step (count : nat) (resp : response) (st : state) :
  consistent st ->
  let st' := state_of (loadImages count resp st) in
  let page :=
    slice (imagesLoaded st)
      (Nat.min (imagesLoaded st + count) (length (allImages st')))
      (allImages st') in
  cards st' = cards st ++ map createGalleryItem page
  /\ imagesLoaded st' = imagesLoaded st + length page
  /\ consistent st'.
Proof.
  intros (Hle & Hcards & Hnone).
  destruct (loadImages_cases count resp st)
    as [[Hg ->]|[(g & Hg & Hall & ->)|[(g & status & d & Hg & Hall & _ & ->)
       |(g & Hg & Hall & _ & ->)]]]; simpl.
  - rewrite (Hnone Hg), slice_nil. simpl. rewrite app_nil_r, Nat.add_0_r.
    by repeat split.
  - destruct (renderNext_images count st g Hg)
      as (st' & -> & Hl & Ha & Hgrid & _). simpl.
    unfold imagesToLoad in Hl, Hgrid. rewrite Ha.
    set (page := slice _ _ (allImages st)) in *.
    assert (Hc : cards st' = cards st ++ map createGalleryItem page).
    { rewrite (gallery_cards_grid st' _ Hgrid), (gallery_cards_grid st g Hg), with_class_app.
      by rewrite (with_class_map _ _ _ createGalleryItem_class). }
    assert (Hlen : length page = Nat.min count (length (allImages st) - imagesLoaded st))
      by by apply slice_length.
    repeat split; try done.
    + rewrite Hl, Ha. lia.
    + rewrite Hc, Hcards, <- map_app, Hl, Ha. f_equal. apply take_slice.
    + by rewrite Hgrid.
  - rewrite Hall in Hle, Hcards. simpl in Hle.
    assert (H0 : imagesLoaded st = 0) by lia. rewrite H0 in *.
    match goal with |- context [renderNext count ?s] =>
      destruct (renderNext_images count s g Hg)
        as (st' & -> & Hl & Ha & Hgrid & _) end.
    simpl in *. unfold imagesToLoad in Hl, Hgrid. simpl in Hl, Hgrid.
    rewrite H0 in Hl, Hgrid. simpl in Hl, Hgrid.
    rewrite Ha, Hcards. set (arr := default [] d) in *.
    set (page := slice 0 _ arr) in *.
    assert (Hc : cards st' = map createGalleryItem page).
    { rewrite (gallery_cards_grid st' _ Hgrid), with_class_app.
      rewrite <- (gallery_cards_grid st g Hg), Hcards. simpl.
      by rewrite (with_class_map _ _ _ createGalleryItem_class). }
    assert (Hlen : length page = Nat.min count (length arr - 0))
      by (apply (slice_length 0 count arr); lia).
    repeat split; try done.
    + rewrite Hl, Ha. lia.
    + rewrite Hc, Hl, Ha. f_equal. exact (take_slice 0 count arr).
    + by rewrite Hgrid.
  - rewrite Hall in *. simpl in Hle. rewrite slice_nil.
    assert (H0 : imagesLoaded st = 0) by lia. rewrite H0 in *.
    rewrite Hcards. unfold consistent, cards. simpl. rewrite H0, Hall.
    by repeat split.
Qed.

Lemma gallery_reload_consistent (resp : response) (st : state) :
  consistent (state_of (reload resp st)).
Proof.
  unfold reload. simpl. destruct (galleryGrid st) as [g|] eqn:Hg.
  - apply loadImages_step. by repeat split.
  - simpl. unfold consistent, cards. simpl. rewrite Hg. by repeat split.
Qed.

Lemma gallery_step_consistent (c : call) (st : state) :
  consistent st -> consistent (state_of (step c st)).
Proof.
  intros H. destruct c as [count resp|resp|resp]; simpl.
  - by apply loadImages_step.
  - by apply loadImages_step.
  - apply gallery_reload_consistent.
Qed.

Lemma gallery_run_consistent (calls : list call) (st : state) :
  consistent st -> consistent (run calls st).
Proof.
  revert st. induction calls as [|c calls IH]; intros st H; [done|].
  apply IH. by apply gallery_step_consistent.
Qed.

Lemma gallery_fresh_consistent (grid : option (list node)) (btn : option jsstring) :
  cards (fresh grid btn) = [] -> consistent (fresh grid btn).
Proof. intros H. by repeat split. Qed.

(** [loadImages] never ends by a throw. *)
Lemma loadImages_returns (count : nat) (resp : response) (st : state) :
  exists st', loadImages count resp st = Normal st'.
Proof.
  destruct (loadImages_cases count resp st)
    as [[_ ->]|[(g & Hg & _ & ->)|[(g & status & d & Hg & _ & _ & ->)
       |(g & _ & _ & _ & ->)]]]; eauto.
  - destruct (renderNext_images count st g Hg) as (st' & -> & _). eauto.
  - match goal with |- context [renderNext count ?s] =>
      destruct (renderNext_images count s g Hg) as (st' & -> & _) end.
    eauto.
Qed.

Lemma loadImages_failed (count : nat) (resp : response) (st : state) g :
  galleryGrid st = Some g -> allImages st = [] -> fetch_fails resp = true ->
  loadImages count resp st
  = Normal (set_grid [errorMessage] (count_fetch st)).
Proof.
  intros Hg Hall Hf. unfold loadImages, fetchAll. rewrite Hg, Hall. simpl.
  by destruct resp as [|[] status [| |d]].
Qed.

(** With a non-empty array in memory, load and load-more calls do not
    fetch. *)
Lemma cached_images_not_fetched (calls : list call) (st : state) :
  allImages st <> [] ->
  Forall (fun c => forall resp, c <> Reload resp) calls ->
  fetches (run calls st) = fetches st
  /\ allImages (run calls st) = allImages st.
Proof.
  revert st. induction calls as [|c calls IH]; intros st Hne Hcalls; [done|].
  apply Forall_cons in Hcalls as [Hc Hcalls]. simpl.
  assert (Hstep : fetches (state_of (step c st)) = fetches st
                  /\ allImages (state_of (step c st)) = allImages st).
  { assert (Hload : forall count resp,
              fetches (state_of (loadImages count resp st)) = fetches st
              /\ allImages (state_of (loadImages count resp st)) = allImages st).
    { intros count resp.
      destruct (loadImages_cases count resp st)
        as [[_ ->]|[(g & Hg & _ & ->)|[(g & status & d & _ & Hall & _)
           |(g & _ & Hall & _)]]]; try done.
      destruct (renderNext_images count st g Hg) as (st' & -> & _ & Ha & _ & Hf & _).
      done. }
    destruct c as [count resp|resp|resp]; simpl; try apply Hload.
    by destruct (Hc resp). }
  destruct Hstep as [Hf Ha].
  destruct (IH (state_of (step c st))) as [IHf IHa]; [by rewrite Ha | done |].
  by rewrite IHf, IHa.
Qed.

(** One call on an empty in-memory array whose fetch delivers an empty
    array: a fetch is issued and the array is empty again. *)
Lemma empty_gallery_step (st : state) (g : list node) :
  galleryGrid st = Some g -> allImages st = [] -> imagesLoaded st = 0 ->
  let st' := state_of (step (LoadMore (ok_with [])) st) in
  galleryGrid st' = Some g /\ allImages st' = [] /\ imagesLoaded st' = 0
  /\ fetches st' = S (fetches st).
Proof.
  intros Hg Hall H0. simpl. unfold loadImages, fetchAll. rewrite Hg, Hall. simpl.
  unfold renderNext, imagesToLoad. simpl. by rewrite H0.
Qed.
End GalleryFacts.

Section GalleryControl.
Import Gallery.

Lemma gallery_delivers_response (data : option (list imageData)) (c : call) :
  delivers data c ->
  exists status, response_of c = Http true status (JsonData data).
Proof.
  unfold delivers. destruct (response_of c) as [|[] status [| |d]]; try done.
  intros ->. eauto.
Qed.

(** A successful call keeps, or establishes, that the control is hidden
    exactly when everything is loaded. *)
Lemma loadImages_shows (data : option (list imageData)) (count status : nat)
    (st : state) :
  is_Some (galleryGrid st) -> is_Some (loadMoreBtn st) ->
  imagesLoaded st <= length (allImages st) ->
  allImages st = [] \/ allImages st = default [] data ->
  (hidden st -> allImages st = default [] data
                /\ imagesLoaded st = length (allImages st)) ->
  shows data (state_of (loadImages count (Http true status (JsonData data)) st)).
Proof.
  intros Hgrid Hbtn Hle Harr Hhid.
  destruct (loadImages_cases count (Http true status (JsonData data)) st)
    as [[Hg _]|[(g & Hg & Hne & ->)|[(g & status' & d & Hg & Hall & Hresp & ->)
       |(g & _ & _ & [Hf|[? Hf]] & _)]]]; try done.
  - rewrite Hg in Hgrid. by destruct Hgrid.
  - destruct Harr as [Harr|Harr]; [done|].
    destruct (renderNext_images count st g Hg)
      as (st' & -> & Hl & Ha & Hg' & _ & Hb). simpl.
    assert (Hlen : length (imagesToLoad count st)
                   = Nat.min count (length (allImages st) - imagesLoaded st))
      by by apply slice_length.
    unfold shows, hidden. rewrite Hg', Hb, Hl, Ha.
    repeat split; try done; try lia.
    + destruct Hbtn as [b ->]. by case_bool_decide.
    + apply hidden_after_load; [done | lia |]. intros Hh.
      destruct (Hhid Hh) as [_ Heq]. lia.
    + apply hidden_after_load; [done | lia |]. intros Hh.
      destruct (Hhid Hh) as [_ Heq]. lia.
  - injection Hresp as <- <-.
    rewrite Hall in Hle. simpl in Hle.
    assert (H0 : imagesLoaded st = 0) by lia.
    match goal with |- context [renderNext count ?s] =>
      destruct (renderNext_images count s g Hg)
        as (st' & -> & Hl & Ha & Hg' & _ & Hb);
      assert (Hlen : length (imagesToLoad count s)
                     = Nat.min count (length (allImages s) - imagesLoaded s))
        by (apply slice_length; simpl; lia)
    end.
    simpl in *. rewrite H0 in *. simpl in *.
    unfold shows, hidden. rewrite Hg', Hb, Hl, Ha.
    assert (Hbefore : loadMoreBtn st = Some (js "none") ->
              length (default [] data)
              <= length (imagesToLoad count
                   (set_all (default [] data) (count_fetch st)))).
    { intros Hh. destruct (Hhid Hh) as [Heq _].
      rewrite <- Heq, Hall. simpl. lia. }
    repeat split; try done; try lia.
    + destruct Hbtn as [b ->]. by case_bool_decide.
    + apply hidden_after_load; [done | lia | done].
    + apply hidden_after_load; [done | lia | done].
Qed.

Lemma gallery_reload_shows (data : option (list imageData)) (status : nat)
    (st : state) :
  is_Some (galleryGrid st) -> is_Some (loadMoreBtn st) -> ~ hidden st ->
  shows data (state_of (reload (Http true status (JsonData data)) st)).
Proof.
  intros [g Hg] Hb Hshown. unfold reload. simpl. rewrite Hg.
  apply loadImages_shows; simpl; try done; by left.
Qed.

Lemma gallery_step_shows (data : option (list imageData)) (c : call) (st : state) :
  delivers data c -> (is_reload c = true -> ~ hidden st) ->
  is_Some (galleryGrid st) -> is_Some (loadMoreBtn st) ->
  imagesLoaded st <= length (allImages st) ->
  allImages st = [] \/ allImages st = default [] data ->
  (hidden st -> allImages st = default [] data
                /\ imagesLoaded st = length (allImages st)) ->
  shows data (state_of (step c st)).
Proof.
  intros Hc Hreload Hg Hb Hle Harr Hh.
  destruct (gallery_delivers_response data c Hc) as [status Hresp].
  destruct c as [count resp|resp|resp]; simpl in *; subst resp.
  - by apply loadImages_shows.
  - by apply loadImages_shows.
  - apply gallery_reload_shows; auto.
Qed.

Lemma gallery_run_shows (data : option (list imageData)) (calls : list call)
    (st : state) :
  Forall (delivers data) calls -> reloads_while_shown calls st ->
  shows data st -> shows data (run calls st).
Proof.
  revert st. induction calls as [|c calls IH]; intros st Hcalls Hrel Hst; [done|].
  apply Forall_cons in Hcalls as [Hc Hcalls]. destruct Hrel as [Hrel1 Hrel].
  simpl. apply IH; [done | done |].
  destruct Hst as (Hg & Hb & Ha & Hle & Hh).
  apply gallery_step_shows; try done; [by right|].
  intros Hhid. split; [done|]. by apply Hh.
Qed.

Lemma gallery_first_call_shows (data : option (list imageData)) (c : call)
    (g : list node) (display : jsstring) :
  delivers data c -> display <> js "none" ->
  shows data (state_of (step c (fresh (Some g) (Some display)))).
Proof.
  intros Hc Hd.
  assert (Hshown : ~ hidden (fresh (Some g) (Some display))).
  { unfold hidden. simpl. by intros [= ->]. }
  apply gallery_step_shows; simpl; try done; by left.
Qed.
End GalleryControl.

(** ** Calls that overlap *)

Section ProjectsOverlap.
Import Projects.

Lemma renderNext_normal (count : nat) (st : state) :
  renderNext count st = Normal (state_of (renderNext count st)).
Proof. unfold renderNext. by case_bool_decide. Qed.

Lemma fold_renderProject_loaded (page : list project) (st : state) :
  projectsLoaded (fold_left renderProject page st) = projectsLoaded st + length page.
Proof.
  revert st. induction page as [|p page IH]; intros st; simpl; [lia|].
  rewrite IH. simpl. lia.
Qed.

Lemma renderNext_loaded (count : nat) (st : state) :
  projectsLoaded (state_of (renderNext count st))
  = projectsLoaded st + length (projectsToLoad count st).
Proof.
  unfold renderNext. case_bool_decide; simpl; apply fold_renderProject_loaded.
Qed.

Lemma fetchAll_fetched (resp : response) (st : state) :
  allProjects st = [] ->
  fetchAll resp st = fetched resp (count_fetch (set_grid [loadingMessage] st)).
Proof.
  intros Hall. unfold fetchAll, fetched. rewrite Hall. simpl.
  by destruct resp as [|[] status [| |d]].
Qed.

(** A call made while no call waits, and answered before anything else
    happens, is the call run to its end. *)
Lemma one_call (count : nat) (resp : response) (st : state) :
  play [Invoked count; Responded 0 resp] (idle st)
  = idle (state_of (loadProjects count resp st)).
Proof.
  unfold play, idle, loadProjects. cbn [fold_left react].
  unfold loadProjects_until_fetch. cbn [current waiting].
  destruct (projectsGrid st) as [g|] eqn:Hg; [|done].
  destruct (allProjects st) as [|p ps] eqn:Hall.
  - rewrite (fetchAll_fetched resp st Hall). simpl. done.
  - unfold fetchAll. rewrite Hall. simpl. done.
Qed.

Lemma one_reload (resp : response) (st : state) :
  play [ReloadInvoked; Responded 0 resp] (idle st)
  = idle (state_of (reload resp st)).
Proof.
  unfold reload. cbn [projectsGrid set_all set_loaded].
  destruct (projectsGrid st) as [g|] eqn:Hg.
  - rewrite <- one_call. unfold play, idle. cbn [fold_left react].
    cbn [current waiting projectsGrid set_all set_loaded]. by rewrite Hg.
  - unfold play, idle. cbn [fold_left react].
    cbn [current waiting projectsGrid set_all set_loaded]. by rewrite Hg.
Qed.

Lemma play_app (events1 events2 : list event) (l : loader) :
  play (events1 ++ events2) l = play events2 (play events1 l).
Proof. unfold play. apply fold_left_app. Qed.

Lemma one_by_one_run (calls : list call) (st : state) :
  play (one_by_one calls) (idle st) = idle (run calls st).
Proof.
  revert st. induction calls as [|c calls IH]; intros st; [done|].
  change (one_by_one (c :: calls))
    with ([event_of c; Responded 0 (response_of c)] ++ one_by_one calls).
  rewrite play_app.
  assert (Hc : play [event_of c; Responded 0 (response_of c)] (idle st)
               = idle (state_of (step c st))).
  { destruct c as [count resp|resp|resp]; simpl event_of; simpl response_of;
      cbn [step]; [apply one_call | apply one_call | apply one_reload]. }
  rewrite Hc, IH. done.
Qed.

(** What an event other than a reload renders, by the loaded count
    before and after it. *)
Lemma react_rendered (e : event) (l : loader) :
  e <> ReloadInvoked ->
  projectsLoaded (current l) <= projectsLoaded (current (react e l))
  /\ rendered e l
     = seq (projectsLoaded (current l))
         (projectsLoaded (current (react e l)) - projectsLoaded (current l)).
Proof.
  intros He. destruct e as [count|k resp|]; [| |done]; cbn [react rendered].
  - unfold loadProjects_until_fetch.
    destruct (projectsGrid (current l)) as [g|]; [|by rewrite Nat.sub_diag].
    case_bool_decide; cbn [current]; [by rewrite Nat.sub_diag|].
    rewrite renderNext_normal. cbn [try_catch state_of].
    rewrite renderNext_loaded. split; [lia|]. f_equal. lia.
  - destruct (waiting l !! k) as [count|]; [|by rewrite Nat.sub_diag].
    cbn [current]. unfold loadProjects_after_fetch.
    destruct (fetched resp (current l)) as [st1|err st1] eqn:Hf.
    + assert (H1 : projectsLoaded st1 = projectsLoaded (current l)).
      { unfold fetched in Hf. destruct resp as [|[] status [| |d]]; try done.
        simpl in Hf. by injection Hf as <-. }
      cbn [bind]. rewrite renderNext_normal. cbn [try_catch state_of].
      rewrite renderNext_loaded, H1. split; [lia|]. f_equal. lia.
    + assert (H1 : projectsLoaded st1 = projectsLoaded (current l)).
      { unfold fetched in Hf.
        destruct resp as [|[] status [| |d]]; simpl in Hf; try done;
          by injection Hf as _ <-. }
      cbn [bind try_catch state_of set_grid projectsLoaded]. rewrite H1.
      by rewrite Nat.sub_diag.
Qed.

Lemma play_rendered (events : list event) (l : loader) :
  Forall (fun e => e <> ReloadInvoked) events ->
  projectsLoaded (current l) <= projectsLoaded (current (play events l))
  /\ rendered_all events l
     = seq (projectsLoaded (current l))
         (projectsLoaded (current (play events l)) - projectsLoaded (current l)).
Proof.
  revert l. induction events as [|e events IH]; intros l Hno.
  - simpl. by rewrite Nat.sub_diag.
  - apply Forall_cons in Hno as [He Hno].
    destruct (react_rendered e l He) as [Hle Hr].
    destruct (IH (react e l) Hno) as [Hle' Hr'].
    change (play (e :: events) l) with (play events (react e l)).
    cbn [rendered_all]. rewrite Hr, Hr'. split; [lia|].
    set (a := projectsLoaded (current l)) in *.
    set (b := projectsLoaded (current (react e l))) in *.
    set (c := projectsLoaded (current (play events (react e l)))) in *.
    replace (c - a) with ((b - a) + (c - b)) by lia.
    rewrite seq_app. do 2 f_equal. lia.
Qed.

(** A call that needs no fetch renders the next slice at once. *)
Lemma invoked_renders (count : nat) (l : loader) (g : list node) :
  projectsGrid (current l) = Some g -> allProjects (current l) <> [] ->
  let st := current l in
  let page :=
    slice (projectsLoaded st)
      (Nat.min (projectsLoaded st + count) (length (allProjects st)))
      (allProjects st) in
  let l' := react (Invoked count) l in
  projectsGrid (current l') = Some (g ++ map visibleCard page)
  /\ projectsLoaded (current l') = projectsLoaded st + length page
  /\ allProjects (current l') = allProjects st
  /\ waiting l' = waiting l
  /\ rendered (Invoked count) l = seq (projectsLoaded st) (length page).
Proof.
  intros Hg Hall st page l'. subst l' page st. cbn [react rendered].
  unfold loadProjects_until_fetch. rewrite Hg.
  rewrite bool_decide_eq_false_2 by (by destruct (allProjects (current l))).
  destruct (renderNext_spec count (current l) g Hg) as (st' & -> & Hl & Ha & Hgrid & _).
  cbn [try_catch state_of current waiting]. by repeat split.
Qed.

(** A call that waited renders, when its response has come, the next
    slice of the array just put in memory, counted from the loaded
    count of that moment, into the emptied grid. *)
Lemma responded_renders (k count status : nat) (data : option (list project))
    (l : loader) :
  waiting l !! k = Some count ->
  let st := current l in
  let arr := reverse (default [] data) in
  let page :=
    slice (projectsLoaded st) (Nat.min (projectsLoaded st + count) (length arr))
      arr in
  let e := Responded k (Http true status (JsonData data)) in
  let l' := react e l in
  allProjects (current l') = arr
  /\ projectsGrid (current l') = Some (map visibleCard page)
  /\ projectsLoaded (current l') = projectsLoaded st + length page
  /\ waiting l' = delete k (waiting l)
  /\ rendered e l = seq (projectsLoaded st) (length page).
Proof.
  intros Hk st arr page e l'. subst l' e page arr st. cbn [react rendered].
  rewrite Hk. unfold loadProjects_after_fetch. cbn [fetched negb bind].
  match goal with |- context [renderNext count ?s] =>
    destruct (renderNext_spec count s [] eq_refl)
      as (st' & -> & Hl & Ha & Hgrid & _) end.
  cbn [try_catch state_of current waiting]. by repeat split.
Qed.
End ProjectsOverlap.

Section GalleryOverlap.
Import Gallery.

Lemma gallery_renderNext_normal (count : nat) (st : state) :
  renderNext count st = Normal (state_of (renderNext count st)).
Proof. unfold renderNext. by case_bool_decide. Qed.

Lemma fold_renderImage_loaded (page : list imageData) (st : state) :
  imagesLoaded (fold_left renderImage page st) = imagesLoaded st + length page.
Proof.
  revert st. induction page as [|p page IH]; intros st; simpl; [lia|].
  rewrite IH. simpl. lia.
Qed.

Lemma gallery_renderNext_loaded (count : nat) (st : state) :
  imagesLoaded (state_of (renderNext count st))
  = imagesLoaded st + length (imagesToLoad count st).
Proof.
  unfold renderNext. case_bool_decide; simpl; apply fold_renderImage_loaded.
Qed.

Lemma gallery_fetchAll_fetched (resp : response) (st : state) :
  allImages st = [] -> fetchAll resp st = fetched resp (count_fetch st).
Proof.
  intros Hall. unfold fetchAll, fetched. rewrite Hall. simpl.
  by destruct resp as [|[] status [| |d]].
Qed.

Lemma gallery_one_call (count : nat) (resp : response) (st : state) :
  play [Invoked count; Responded 0 resp] (idle st)
  = idle (state_of (loadImages count resp st)).
Proof.
  unfold play, idle, loadImages. cbn [fold_left react].
  unfold loadImages_until_fetch. cbn [current waiting].
  destruct (galleryGrid st) as [g|] eqn:Hg; [|done].
  destruct (allImages st) as [|p ps] eqn:Hall.
  - rewrite (gallery_fetchAll_fetched resp st Hall). simpl. done.
  - unfold fetchAll. rewrite Hall. simpl. done.
Qed.

Lemma gallery_one_reload (resp : response) (st : state) :
  play [ReloadInvoked; Responded 0 resp] (idle st)
  = idle (state_of (reload resp st)).
Proof.
  unfold reload. cbn [galleryGrid set_all set_loaded].
  destruct (galleryGrid st) as [g|] eqn:Hg.
  - rewrite <- gallery_one_call. unfold play, idle. cbn [fold_left react].
    cbn [current waiting galleryGrid set_all set_loaded]. by rewrite Hg.
  - unfold play, idle. cbn [fold_left react].
    cbn [current waiting galleryGrid set_all set_loaded]. by rewrite Hg.
Qed.

Lemma gallery_play_app (events1 events2 : list event) (l : loader) :
  play (events1 ++ events2) l = play events2 (play events1 l).
Proof. unfold play. apply fold_left_app. Qed.

Lemma gallery_one_by_one_run (calls : list call) (st : state) :
  play (one_by_one calls) (idle st) = idle (run calls st).
Proof.
  revert st. induction calls as [|c calls IH]; intros st; [done|].
  change (one_by_one (c :: calls))
    with ([event_of c; Responded 0 (response_of c)] ++ one_by_one calls).
  rewrite gallery_play_app.
  assert (Hc : play [event_of c; Responded 0 (response_of c)] (idle st)
               = idle (state_of (step c st))).
  { destruct c as [count resp|resp|resp]; simpl event_of; simpl response_of;
      cbn [step];
      [apply gallery_one_call | apply gallery_one_call | apply gallery_one_reload]. }
  rewrite Hc, IH. done.
Qed.

Lemma gallery_react_rendered (e : event) (l : loader) :
  e <> ReloadInvoked ->
  imagesLoaded (current l) <= imagesLoaded (current (react e l))
  /\ rendered e l
     = seq (imagesLoaded (current l))
         (imagesLoaded (current (react e l)) - imagesLoaded (current l)).
Proof.
  intros He. destruct e as [count|k resp|]; [| |done]; cbn [react rendered].
  - unfold loadImages_until_fetch.
    destruct (galleryGrid (current l)) as [g|]; [|by rewrite Nat.sub_diag].
    case_bool_decide; cbn [current]; [by rewrite Nat.sub_diag|].
    rewrite gallery_renderNext_normal. cbn [try_catch state_of].
    rewrite gallery_renderNext_loaded. split; [lia|]. f_equal. lia.
  - destruct (waiting l !! k) as [count|]; [|by rewrite Nat.sub_diag].
    cbn [current]. unfold loadImages_after_fetch.
    destruct (fetched resp (current l)) as [st1|err st1] eqn:Hf.
    + assert (H1 : imagesLoaded st1 = imagesLoaded (current l)).
      { unfold fetched in Hf. destruct resp as [|[] status [| |d]]; try done.
        simpl in Hf. by injection Hf as <-. }
      cbn [bind]. rewrite gallery_renderNext_normal. cbn [try_catch state_of].
      rewrite gallery_renderNext_loaded, H1. split; [lia|]. f_equal. lia.
    + assert (H1 : imagesLoaded st1 = imagesLoaded (current l)).
      { unfold fetched in Hf.
        destruct resp as [|[] status [| |d]]; simpl in Hf; try done;
          by injection Hf as _ <-. }
      cbn [bind try_catch state_of set_grid imagesLoaded]. rewrite H1.
      by rewrite Nat.sub_diag.
Qed.

Lemma gallery_play_rendered (events : list event) (l : loader) :
  Forall (fun e => e <> ReloadInvoked) events ->
  imagesLoaded (current l) <= imagesLoaded (current (play events l))
  /\ rendered_all events l
     = seq (imagesLoaded (current l))
         (imagesLoaded (current (play events l)) - imagesLoaded (current l)).
Proof.
  revert l. induction events as [|e events IH]; intros l Hno.
  - simpl. by rewrite Nat.sub_diag.
  - apply Forall_cons in Hno as [He Hno].
    destruct (gallery_react_rendered e l He) as [Hle Hr].
    destruct (IH (react e l) Hno) as [Hle' Hr'].
    change (play (e :: events) l) with (play events (react e l)).
    cbn [rendered_all]. rewrite Hr, Hr'. split; [lia|].
    set (a := imagesLoaded (current l)) in *.
    set (b := imagesLoaded (current (react e l))) in *.
    set (c := imagesLoaded (current (play events (react e l)))) in *.
    replace (c - a) with ((b - a) + (c - b)) by lia.
    rewrite seq_app. do 2 f_equal. lia.
Qed.

Lemma gallery_invoked_renders (count : nat) (l : loader) (g : list node) :
  galleryGrid (current l) = Some g -> allImages (current l) <> [] ->
  let st := current l in
  let page :=
    slice (imagesLoaded st)
      (Nat.min (imagesLoaded st + count) (length (allImages st)))
      (allImages st) in
  let l' := react (Invoked count) l in
  galleryGrid (current l') = Some (g ++ map createGalleryItem page)
  /\ imagesLoaded (current l') = imagesLoaded st + length page
  /\ allImages (current l') = allImages st
  /\ waiting l' = waiting l
  /\ rendered (Invoked count) l = seq (imagesLoaded st) (length page).
Proof.
  intros Hg Hall st page l'. subst l' page st. cbn [react rendered].
  unfold loadImages_until_fetch. rewrite Hg.
  rewrite bool_decide_eq_false_2 by (by destruct (allImages (current l))).
  destruct (renderNext_images count (current l) g Hg) as (st' & -> & Hl & Ha & Hgrid & _).
  cbn [try_catch state_of current waiting]. by repeat split.
Qed.

(** A call that waited appends the next slice of the array just put in
    memory to the grid as it is when the response comes. *)
Lemma gallery_responded_renders (k count status : nat)
    (data : option (list imageData)) (l : loader) (g : list node) :
  galleryGrid (current l) = Some g ->
  waiting l !! k = Some count ->
  let st := current l in
  let arr := default [] data in
  let page :=
    slice (imagesLoaded st) (Nat.min (imagesLoaded st + count) (length arr))
      arr in
  let e := Responded k (Http true status (JsonData data)) in
  let l' := react e l in
  allImages (current l') = arr
  /\ galleryGrid (current l') = Some (g ++ map createGalleryItem page)
  /\ imagesLoaded (current l') = imagesLoaded st + length page
  /\ waiting l' = delete k (waiting l)
  /\ rendered e l = seq (imagesLoaded st) (length page).
Proof.
  intros Hg Hk st arr page e l'. subst l' e page arr st. cbn [react rendered].
  rewrite Hk. unfold loadImages_after_fetch. cbn [fetched negb bind].
  match goal with |- context [renderNext count ?s] =>
    destruct (renderNext_images count s g Hg)
      as (st' & -> & Hl & Ha & Hgrid & _) end.
  cbn [try_catch state_of current waiting]. by repeat split.
Qed.
End GalleryOverlap.

(** ** The pagination contract of both loaders *)

(** C1.  No record of the fetched array is rendered twice.  Calls may
    overlap: a call that has to fetch renders when its response has
    come, and other calls may have been made and answered by then.  In
    every state of the loader, with whatever calls waiting: a call that
    needs no fetch appends to the grid exactly the cards of the slice of
    the in-memory array from the loaded count to min(loaded count +
    count, total), and a call that waited does so, when its response
    comes, with the array it has just put in memory and the loaded
    count of that moment; the loaded count advances by the size of the
    slice.  So through every sequence of calls and responses without a
    reload the loaded count never goes down and the places rendered
    are, in order, the consecutive ones from the loaded count at the
    start to the loaded count at the end: none is rendered twice.
    Projects loader, then gallery loader. *)
Theorem load_more_renders_next_slice :
  (forall (l : Projects.loader) (g : list node),
     Projects.projectsGrid (Projects.current l) = Some g ->
     let st := Projects.current l in
     (forall count,
        Projects.allProjects st <> [] ->
        let page :=
          slice (Projects.projectsLoaded st)
            (Nat.min (Projects.projectsLoaded st + count)
               (length (Projects.allProjects st)))
            (Projects.allProjects st) in
        let l' := Projects.react (Projects.Invoked count) l in
        Projects.projectsGrid (Projects.current l')
        = Some (g ++ map Projects.visibleCard page)
        /\ Projects.projectsLoaded (Projects.current l')
           = Projects.projectsLoaded st + length page
        /\ Projects.allProjects (Projects.current l') = Projects.allProjects st
        /\ Projects.rendered (Projects.Invoked count) l
           = seq (Projects.projectsLoaded st) (length page))
     /\ (forall k count status data,
           Projects.waiting l !! k = Some count ->
           let arr := reverse (default [] data) in
           let page :=
             slice (Projects.projectsLoaded st)
               (Nat.min (Projects.projectsLoaded st + count) (length arr)) arr in
           let e :=
             Projects.Responded k (Projects.Http true status (Projects.JsonData data)) in
           let l' := Projects.react e l in
           Projects.allProjects (Projects.current l') = arr
           /\ Projects.projectsGrid (Projects.current l')
              = Some (map Projects.visibleCard page)
           /\ Projects.projectsLoaded (Projects.current l')
              = Projects.projectsLoaded st + length page
           /\ Projects.rendered e l = seq (Projects.projectsLoaded st) (length page)))
  /\ (forall (events : list Projects.event) (l : Projects.loader),
        Forall (fun e => e <> Projects.ReloadInvoked) events ->
        let l' := Projects.play events l in
        Projects.projectsLoaded (Projects.current l)
        <= Projects.projectsLoaded (Projects.current l')
        /\ Projects.rendered_all events l
           = seq (Projects.projectsLoaded (Projects.current l))
               (Projects.projectsLoaded (Projects.current l')
                - Projects.projectsLoaded (Projects.current l))
        /\ NoDup (Projects.rendered_all events l))
  /\ (forall (l : Gallery.loader) (g : list node),
        Gallery.galleryGrid (Gallery.current l) = Some g ->
        let st := Gallery.current l in
        (forall count,
           Gallery.allImages st <> [] ->
           let page :=
             slice (Gallery.imagesLoaded st)
               (Nat.min (Gallery.imagesLoaded st + count)
                  (length (Gallery.allImages st)))
               (Gallery.allImages st) in
           let l' := Gallery.react (Gallery.Invoked count) l in
           Gallery.galleryGrid (Gallery.current l')
           = Some (g ++ map Gallery.createGalleryItem page)
           /\ Gallery.imagesLoaded (Gallery.current l')
              = Gallery.imagesLoaded st + length page
           /\ Gallery.allImages (Gallery.current l') = Gallery.allImages st
           /\ Gallery.rendered (Gallery.Invoked count) l
              = seq (Gallery.imagesLoaded st) (length page))
        /\ (forall k count status data,
              Gallery.waiting l !! k = Some count ->
              let arr := default [] data in
              let page :=
                slice (Gallery.imagesLoaded st)
                  (Nat.min (Gallery.imagesLoaded st + count) (length arr)) arr in
              let e :=
                Gallery.Responded k (Gallery.Http true status (Gallery.JsonData data)) in
              let l' := Gallery.react e l in
              Gallery.allImages (Gallery.current l') = arr
              /\ Gallery.galleryGrid (Gallery.current l')
                 = Some (g ++ map Gallery.createGalleryItem page)
              /\ Gallery.imagesLoaded (Gallery.current l')
                 = Gallery.imagesLoaded st + length page
              /\ Gallery.rendered e l = seq (Gallery.imagesLoaded st) (length page)))
  /\ (forall (events : list Gallery.event) (l : Gallery.loader),
        Forall (fun e => e <> Gallery.ReloadInvoked) events ->
        let l' := Gallery.play events l in
        Gallery.imagesLoaded (Gallery.current l)
        <= Gallery.imagesLoaded (Gallery.current l')
        /\ Gallery.rendered_all events l
           = seq (Gallery.imagesLoaded (Gallery.current l))
               (Gallery.imagesLoaded (Gallery.current l')
                - Gallery.imagesLoaded (Gallery.current l))
        /\ NoDup (Gallery.rendered_all events l)).
Proof.
  split; [|split; [|split]].
  - intros l g Hg st. split.
    + intros count Hall page l'.
      destruct (invoked_renders count l g Hg Hall) as (H1 & H2 & H3 & _ & H4).
      by repeat split.
    + intros k count status data Hk arr page e l'.
      destruct (responded_renders k count status data l Hk)
        as (H1 & H2 & H3 & _ & H4).
      by repeat split.
  - intros events l Hno l'.
    destruct (play_rendered events l Hno) as [Hle Hr].
    split; [exact Hle|]. split; [exact Hr|]. rewrite Hr. apply NoDup_seq.
  - intros l g Hg st. split.
    + intros count Hall page l'.
      destruct (gallery_invoked_renders count l g Hg Hall)
        as (H1 & H2 & H3 & _ & H4).
      by repeat split.
    + intros k count status data Hk arr page e l'.
      destruct (gallery_responded_renders k count status data l g Hg Hk)
        as (H1 & H2 & H3 & _ & H4).
      by repeat split.
  - intros events l Hno l'.
    destruct (gallery_play_rendered events l Hno) as [Hle Hr].
    split; [exact Hle|]. split; [exact Hr|]. rewrite Hr. apply NoDup_seq.
Qed.

Lemma load_more_renders_next_slice_witness :
  (let recs := map Projects.sample (seq 0 13) in
   let events :=
     [Projects.Invoked 6; Projects.Invoked 6;
      Projects.Responded 0 (Projects.ok_with recs);
      Projects.Responded 0 (Projects.ok_with recs);
      Projects.Invoked 6] in
   let l := Projects.idle (Projects.fresh (Some []) (Some [])) in
   Projects.rendered_all events l = seq 0 13
   /\ NoDup (Projects.rendered_all events l))
  /\ (let imgs := map Gallery.sample (seq 0 13) in
      let events :=
        [Gallery.Invoked 6; Gallery.Invoked 6;
         Gallery.Responded 1 (Gallery.ok_with imgs);
         Gallery.Responded 0 (Gallery.ok_with imgs)] in
      let l := Gallery.idle (Gallery.fresh (Some []) (Some [])) in
      Gallery.rendered_all events l = seq 0 12
      /\ NoDup (Gallery.rendered_all events l)).
Proof.
  split.
  - intros recs events l.
    destruct (proj1 (proj2 load_more_renders_next_slice) events l)
      as (_ & Hr & Hnodup).
    + repeat constructor; discriminate.
    + split; [exact Hr | exact Hnodup].
  - intros imgs events l.
    destruct (proj2 (proj2 (proj2 load_more_renders_next_slice)) events l)
      as (_ & Hr & Hnodup).
    + repeat constructor; discriminate.
    + split; [exact Hr | exact Hnodup].
Defined.

(** The example of the specification: 13 project records and page size
    6; three loads render 6, 6 and 1 cards, the last one hides the
    control, and one fetch was made. *)
Example thirteen_projects :
  let recs := map Projects.sample (seq 0 13) in
  let load := Projects.LoadMore (Projects.ok_with recs) in
  let st0 := Projects.fresh (Some []) (Some []) in
  let st1 := Projects.run [load] st0 in
  let st2 := Projects.run [load; load] st0 in
  let st3 := Projects.run [load; load; load] st0 in
  (length (Projects.cards st1), length (Projects.cards st2),
   length (Projects.cards st3)) = (6, 12, 13)
  /\ ~ Projects.hidden st1 /\ ~ Projects.hidden st2 /\ Projects.hidden st3
  /\ Projects.fetches st3 = 1
  /\ Projects.allProjects st3 = rev recs.
Proof. repeat split; try by vm_compute. Qed.

(** Page load and a click before the response has come, both fetches
    delivering the same twelve records: two fetches are made, twelve
    records count as loaded, the projects grid holds the six cards of
    the second call only, the gallery grid holds all twelve items. *)
Example overlapping_calls :
  (let recs := map Projects.sample (seq 0 12) in
   let l :=
     Projects.play
       [Projects.Invoked 6; Projects.Invoked 6;
        Projects.Responded 0 (Projects.ok_with recs);
        Projects.Responded 0 (Projects.ok_with recs)]
       (Projects.idle (Projects.fresh (Some []) (Some []))) in
   Projects.fetches (Projects.current l) = 2
   /\ Projects.projectsLoaded (Projects.current l) = 12
   /\ Projects.projectsGrid (Projects.current l)
      = Some (map Projects.visibleCard (drop 6 (reverse recs)))
   /\ Projects.waiting l = [])
  /\ (let imgs := map Gallery.sample (seq 0 12) in
      let l :=
        Gallery.play
          [Gallery.Invoked 6; Gallery.Invoked 6;
           Gallery.Responded 0 (Gallery.ok_with imgs);
           Gallery.Responded 0 (Gallery.ok_with imgs)]
          (Gallery.idle (Gallery.fresh (Some []) (Some []))) in
      Gallery.fetches (Gallery.current l) = 2
      /\ Gallery.imagesLoaded (Gallery.current l) = 12
      /\ Gallery.galleryGrid (Gallery.current l)
         = Some (map Gallery.createGalleryItem imgs)).
Proof. repeat split; by vm_compute. Qed.

(** C2, as stated, fails.  After everything was loaded and the control
    hidden, [reload] starts over with the first page but nothing shows
    the control again: with 7 records, the control is hidden while 6 of
    7 are loaded. *)
Lemma reload_leaves_control_hidden :
  let recs := map Projects.sample (seq 0 7) in
  let st := Projects.run
              [Projects.LoadMore (Projects.ok_with recs);
               Projects.LoadMore (Projects.ok_with recs);
               Projects.Reload (Projects.ok_with recs)]
              (Projects.fresh (Some []) (Some [])) in
  ~ (Projects.hidden st
     <-> Projects.projectsLoaded st = length (Projects.allProjects st)).
Proof.
  intros recs st [Hloaded _].
  assert (Hhidden : Projects.hidden st) by by vm_compute.
  specialize (Hloaded Hhidden). vm_compute in Hloaded. discriminate.
Qed.

(** The other direction fails too, after a failed fetch: nothing is
    loaded of nothing, and the control stays as it was. *)
Lemma failed_fetch_leaves_control_shown :
  let st := Projects.run [Projects.LoadMore Projects.NetworkError]
              (Projects.fresh (Some []) (Some [])) in
  Projects.projectsLoaded st = length (Projects.allProjects st)
  /\ ~ Projects.hidden st.
Proof. split; by vm_compute. Qed.

(** C2, amended.  On a freshly loaded page (grid and control present,
    control not hidden by the markup), after one or more load, load-more
    and reload calls whose fetches succeed and deliver the same
    document, none of the reloads invoked while the control is hidden,
    the control is hidden if and only if the loaded count equals the
    total count.  Projects loader, then gallery loader. *)
Theorem control_hidden_iff_all_loaded :
  (forall (data : option (list Projects.project)) (c : Projects.call)
          (calls : list Projects.call) (g : list node) (display : jsstring),
     display <> js "none" ->
     Forall (Projects.delivers data) (c :: calls) ->
     Projects.reloads_while_shown (c :: calls)
       (Projects.fresh (Some g) (Some display)) ->
     let st := Projects.run (c :: calls) (Projects.fresh (Some g) (Some display)) in
     Projects.hidden st
     <-> Projects.projectsLoaded st = length (Projects.allProjects st))
  /\ (forall (data : option (list Gallery.imageData)) (c : Gallery.call)
             (calls : list Gallery.call) (g : list node) (display : jsstring),
        display <> js "none" ->
        Forall (Gallery.delivers data) (c :: calls) ->
        Gallery.reloads_while_shown (c :: calls)
          (Gallery.fresh (Some g) (Some display)) ->
        let st := Gallery.run (c :: calls) (Gallery.fresh (Some g) (Some display)) in
        Gallery.hidden st
        <-> Gallery.imagesLoaded st = length (Gallery.allImages st)).
Proof.
  split.
  - intros data c calls g display Hd Hcalls [_ Hrel] st.
    apply Forall_cons in Hcalls as [Hc Hcalls].
    assert (Hst : Projects.shows data st).
    { apply (run_shows data calls
               (state_of (Projects.step c (Projects.fresh (Some g) (Some display)))));
        [done | done | by apply first_call_shows]. }
    by destruct Hst as (_ & _ & _ & _ & Hiff).
  - intros data c calls g display Hd Hcalls [_ Hrel] st.
    apply Forall_cons in Hcalls as [Hc Hcalls].
    assert (Hst : Gallery.shows data st).
    { apply (gallery_run_shows data calls
               (state_of (Gallery.step c (Gallery.fresh (Some g) (Some display)))));
        [done | done | by apply gallery_first_call_shows]. }
    by destruct Hst as (_ & _ & _ & _ & Hiff).
Qed.

Lemma control_hidden_iff_all_loaded_witness :
  (let recs := map Projects.sample (seq 0 7) in
   let st := Projects.run
               [Projects.LoadMore (Projects.ok_with recs);
                Projects.Reload (Projects.ok_with recs);
                Projects.LoadMore (Projects.ok_with recs)]
               (Projects.fresh (Some []) (Some [])) in
   Projects.hidden st
   <-> Projects.projectsLoaded st = length (Projects.allProjects st))
  /\ (let imgs := map Gallery.sample (seq 0 7) in
      let st := Gallery.run
                  [Gallery.Load 3 (Gallery.ok_with imgs);
                   Gallery.LoadMore (Gallery.ok_with imgs)]
                  (Gallery.fresh (Some []) (Some [])) in
      Gallery.hidden st
      <-> Gallery.imagesLoaded st = length (Gallery.allImages st)).
Proof.
  split.
  - intros recs st.
    apply (proj1 control_hidden_iff_all_loaded (Some recs)
             (Projects.LoadMore (Projects.ok_with recs))
             [Projects.Reload (Projects.ok_with recs);
              Projects.LoadMore (Projects.ok_with recs)] [] []).
    + vm_compute. discriminate.
    + repeat constructor.
    + split; [discriminate|].
      split; [intros _; vm_compute; discriminate|].
      split; [discriminate | exact I].
  - intros imgs st.
    apply (proj2 control_hidden_iff_all_loaded (Some imgs)
             (Gallery.Load 3 (Gallery.ok_with imgs))
             [Gallery.LoadMore (Gallery.ok_with imgs)] [] []).
    + vm_compute. discriminate.
    + repeat constructor.
    + split; [discriminate|]. split; [discriminate | exact I].
Defined.

(** ** Failed fetches *)

(** C8.  When a call of the projects or gallery load operation fetches
    (grid present, nothing in memory) and the fetch fails -- network
    error, non-success status or a body that does not parse -- the call
    still returns normally and the grid then holds the retry affordance
    and nothing else.  No call of either load operation ends by a
    throw, whatever the response. *)
Theorem failed_fetch_shows_retry :
  (forall (count : nat) (resp : Projects.response) (st : Projects.state)
          (g : list node),
     Projects.projectsGrid st = Some g -> Projects.allProjects st = [] ->
     Projects.fetch_fails resp = true ->
     exists st',
       Projects.loadProjects count resp st = Normal st'
       /\ Projects.projectsGrid st' = Some [Projects.errorMessage]
       /\ Projects.fetches st' = S (Projects.fetches st))
  /\ (forall count resp st, exists st',
        Projects.loadProjects count resp st = Normal st')
  /\ (forall (count : nat) (resp : Gallery.response) (st : Gallery.state)
             (g : list node),
        Gallery.galleryGrid st = Some g -> Gallery.allImages st = [] ->
        Gallery.fetch_fails resp = true ->
        exists st',
          Gallery.loadImages count resp st = Normal st'
          /\ Gallery.galleryGrid st' = Some [Gallery.errorMessage]
          /\ Gallery.fetches st' = S (Gallery.fetches st))
  /\ (forall count resp st, exists st',
        Gallery.loadImages count resp st = Normal st').
Proof.
  split; [|split; [|split]].
  - intros count resp st g Hg Hall Hf.
    rewrite (loadProjects_failed count resp st g Hg Hall Hf). by eexists.
  - apply loadProjects_returns.
  - intros count resp st g Hg Hall Hf.
    rewrite (loadImages_failed count resp st g Hg Hall Hf). by eexists.
  - apply loadImages_returns.
Qed.

Lemma failed_fetch_shows_retry_witness :
  (exists st',
     Projects.loadProjects 6 (Projects.Http false 404 Projects.JsonInvalid)
       (Projects.fresh (Some []) (Some [])) = Normal st'
     /\ Projects.projectsGrid st' = Some [Projects.errorMessage]
     /\ Projects.fetches st' = 1)
  /\ (exists st',
        Gallery.loadImages 6 Gallery.NetworkError
          (Gallery.fresh (Some []) (Some [])) = Normal st'
        /\ Gallery.galleryGrid st' = Some [Gallery.errorMessage]
        /\ Gallery.fetches st' = 1).
Proof.
  split.
  - apply (proj1 failed_fetch_shows_retry 6
             (Projects.Http false 404 Projects.JsonInvalid)
             (Projects.fresh (Some []) (Some [])) []); reflexivity.
  - apply (proj1 (proj2 (proj2 failed_fetch_shows_retry)) 6
             Gallery.NetworkError (Gallery.fresh (Some []) (Some [])) []);
      reflexivity.
Defined.

(** ** How often the resource is fetched *)

Lemma projects_run_cons (c : Projects.call) (calls : list Projects.call)
    (st : Projects.state) :
  Projects.run (c :: calls) st = Projects.run calls (state_of (Projects.step c st)).
Proof. reflexivity. Qed.

Lemma gallery_run_cons (c : Gallery.call) (calls : list Gallery.call)
    (st : Gallery.state) :
  Gallery.run (c :: calls) st = Gallery.run calls (state_of (Gallery.step c st)).
Proof. reflexivity. Qed.

(** Once a non-empty array is in memory, later load and load-more calls
    do not fetch: the first call's fetch is the only one. *)
Lemma nonempty_payload_fetched_once
    (recs : list Projects.project) (calls : list Projects.call)
    (g : list node) (btn : option jsstring) :
  recs <> [] ->
  Forall (fun c => forall resp, c <> Projects.Reload resp) calls ->
  Projects.fetches
    (Projects.run (Projects.LoadMore (Projects.ok_with recs) :: calls)
       (Projects.fresh (Some g) btn)) = 1.
Proof.
  intros Hne Hcalls.
  set (st1 := state_of (Projects.step (Projects.LoadMore (Projects.ok_with recs))
                          (Projects.fresh (Some g) btn))).
  change (Projects.fetches (Projects.run calls st1) = 1).
  assert (H1 : Projects.fetches st1 = 1 /\ Projects.allProjects st1 = reverse recs).
  { subst st1.
    destruct (loadProjects_cases Projects.projectsPerLoad (Projects.ok_with recs)
                (Projects.fresh (Some g) btn))
      as [[Hg _]|[(g' & _ & Hall & _)|[(g' & status & d & _ & _ & Hresp & Heq)
         |(g' & _ & _ & [Hf|[? Hf]] & _)]]]; try done.
    injection Hresp as <- <-. simpl in Heq |- *. rewrite Heq.
    match goal with |- context [Projects.renderNext ?n ?s] =>
      destruct (renderNext_spec n s [] eq_refl)
        as (st' & -> & _ & Ha & _ & Hf & _) end.
    simpl. by rewrite Ha, Hf. }
  destruct H1 as [Hf Ha].
  destruct (cached_calls_do_not_fetch calls st1) as [Hf' _]; [|done|].
  - rewrite Ha. intros Hrev. apply (f_equal length) in Hrev.
    rewrite length_reverse in Hrev. by destruct recs.
  - by rewrite Hf'.
Qed.

(** C9 fails on an empty array.  The loaders take an empty in-memory
    array to mean "not fetched yet", so when the fetched array is empty
    every later call fetches again: [n] calls make [n] fetches.
    Projects loader, then gallery loader. *)
Theorem empty_payload_fetched_every_call (n : nat) (g : list node)
    (btn : option jsstring) :
  Projects.fetches
    (Projects.run (replicate n (Projects.LoadMore (Projects.ok_with [])))
       (Projects.fresh (Some g) btn)) = n
  /\ Gallery.fetches
       (Gallery.run (replicate n (Gallery.LoadMore (Gallery.ok_with [])))
          (Gallery.fresh (Some g) btn)) = n.
Proof.
  split.
  - assert (H : forall st g',
              Projects.projectsGrid st = Some g' -> Projects.allProjects st = [] ->
              Projects.projectsLoaded st = 0 ->
              Projects.fetches
                (Projects.run (replicate n (Projects.LoadMore (Projects.ok_with []))) st)
              = Projects.fetches st + n).
    { induction n as [|n IH]; intros st g' Hg Hall H0.
      { simpl. lia. }
      destruct (empty_payload_step st g' Hg Hall H0) as (Hg' & Hall' & H0' & Hf).
      cbn [replicate]. rewrite projects_run_cons, (IH _ _ Hg' Hall' H0'), Hf. lia. }
    by rewrite (H _ g).
  - assert (H : forall st g',
              Gallery.galleryGrid st = Some g' -> Gallery.allImages st = [] ->
              Gallery.imagesLoaded st = 0 ->
              Gallery.fetches
                (Gallery.run (replicate n (Gallery.LoadMore (Gallery.ok_with []))) st)
              = Gallery.fetches st + n).
    { induction n as [|n IH]; intros st g' Hg Hall H0.
      { simpl. lia. }
      destruct (empty_gallery_step st g' Hg Hall H0) as (Hg' & Hall' & H0' & Hf).
      cbn [replicate]. rewrite gallery_run_cons, (IH _ _ Hg' Hall' H0'), Hf. lia. }
    by rewrite (H _ g).
Qed.

(** ** Theme controller *)

Section ThemeFacts.
Import ThemeToggle.

Lemma dark_is_not_light : THEMES.DARK <> THEMES.LIGHT.
Proof. by vm_compute. Qed.

(** Case analysis of a call of [applyTheme] on state [st]: the theme is
    light or not, and each of the two elements is there or not. *)
Ltac applyTheme_cases st :=
  unfold applyTheme, write_icon, write_title;
  case_bool_decide; simpl;
  destruct (themeIcon st) as [?|] eqn:Hicon; simpl;
  destruct (themeToggle st) as [?|] eqn:Htoggle; simpl;
  rewrite ?Hicon, ?Htoggle; simpl.

(** The attribute after [applyTheme], also when a write to a missing
    element cuts it short. *)
Lemma applyTheme_data_theme (theme : jsstring) (st : state) :
  data_theme (state_of (applyTheme theme st))
  = if bool_decide (theme = THEMES.LIGHT) then Some THEMES.LIGHT else None.
Proof.
  applyTheme_cases st; done.
Qed.

Lemma applyTheme_themeToggle (theme : jsstring) (st : state) :
  is_Some (themeToggle (state_of (applyTheme theme st)))
  <-> is_Some (themeToggle st).
Proof.
  applyTheme_cases st; by rewrite !is_Some_alt.
Qed.

Lemma applyTheme_themeIcon (theme : jsstring) (st : state) :
  is_Some (themeIcon (state_of (applyTheme theme st)))
  <-> is_Some (themeIcon st).
Proof.
  applyTheme_cases st; by rewrite !is_Some_alt.
Qed.

(** With both elements on the page, [applyTheme] runs to its end. *)
Lemma applyTheme_complete (theme : jsstring) (st : state) (icon : jsstring)
    (b : button) :
  themeIcon st = Some icon -> themeToggle st = Some b ->
  applyTheme theme st
  = Normal
      {| data_theme :=
           if bool_decide (theme = THEMES.LIGHT) then Some THEMES.LIGHT else None;
         themeIcon :=
           Some (if bool_decide (theme = THEMES.LIGHT)
                 then ICONS.LIGHT else ICONS.DARK);
         themeToggle :=
           Some {| title :=
                     Some (js "Switch to "
                           ++ (if bool_decide (theme = THEMES.DARK)
                               then js "light" else js "dark")
                           ++ js " mode");
                   classList := classList b |};
         localStorage := <[storage_key := theme]> (localStorage st);
         prefersLight := prefersLight st;
         dispatched := dispatched st ++ [theme];
         timeouts := timeouts st |}.
Proof.
  intros Hi Hb. unfold applyTheme, write_icon, write_title.
  case_bool_decide; simpl; rewrite Hi; simpl; rewrite Hb; done.
Qed.

Lemma toggleTheme_data_theme (st : state) :
  data_theme (state_of (toggleTheme st))
  = match themeToggle st with
    | None => data_theme st
    | Some _ =>
        if bool_decide (data_theme st = Some THEMES.LIGHT)
        then None else Some THEMES.LIGHT
    end.
Proof.
  unfold toggleTheme. destruct (themeToggle st) as [b|]; [|done].
  destruct (bool_decide (data_theme st = Some THEMES.LIGHT));
    match goal with |- context [applyTheme ?t ?s] =>
      pose proof (applyTheme_data_theme t s) as H;
      destruct (applyTheme t s) as [st'|e st'] end; simpl in *; by rewrite H.
Qed.

Lemma toggleTheme_themeToggle (st : state) :
  is_Some (themeToggle (state_of (toggleTheme st))) <-> is_Some (themeToggle st).
Proof.
  unfold toggleTheme.
  destruct (themeToggle st) as [b|] eqn:Hb; [|simpl; by rewrite Hb].
  match goal with |- context [applyTheme ?t ?s] =>
    pose proof (applyTheme_themeToggle t s) as H;
    destruct (applyTheme t s) as [st'|e st'] end; simpl in *.
  - rewrite H. split; by eauto.
  - rewrite H. split; by eauto.
Qed.

(** C3.  Starting from a document whose data-theme attribute is 'light'
    or absent, toggling the theme twice leaves the attribute, and with
    it the current theme, as it was; with the toggle button on the page
    a single toggle does change it. *)
Theorem toggleTheme_involution (st : state) :
  data_theme st = None \/ data_theme st = Some THEMES.LIGHT ->
  let st1 := state_of (toggleTheme st) in
  let st2 := state_of (toggleTheme st1) in
  data_theme st2 = data_theme st
  /\ getCurrentTheme st2 = getCurrentTheme st
  /\ (is_Some (themeToggle st) -> data_theme st1 <> data_theme st).
Proof.
  intros Hstart st1 st2.
  assert (H2 : data_theme st2 = data_theme st).
  { subst st2. rewrite toggleTheme_data_theme.
    pose proof (toggleTheme_themeToggle st) as Hpresent. fold st1 in Hpresent.
    pose proof (toggleTheme_data_theme st) as H1. fold st1 in H1.
    destruct (themeToggle st) as [b|] eqn:Hb.
    - destruct (proj2 Hpresent (mk_is_Some _ _ eq_refl)) as [b1 ->].
      rewrite H1. destruct Hstart as [-> | ->].
      + by rewrite (bool_decide_eq_false_2 (None = _)), bool_decide_eq_true_2.
      + rewrite (bool_decide_eq_true_2 (Some THEMES.LIGHT = _)) by done.
        by rewrite bool_decide_eq_false_2.
    - destruct (themeToggle st1) as [b1|] eqn:Hb1; [|done].
      destruct (proj1 Hpresent (mk_is_Some _ _ eq_refl)) as [? [=]]. }
  split; [done|]. split.
  - unfold getCurrentTheme. by rewrite H2.
  - intros [b Hb]. subst st1. rewrite toggleTheme_data_theme, Hb.
    destruct Hstart as [-> | ->].
    + by rewrite bool_decide_eq_false_2.
    + by rewrite bool_decide_eq_true_2.
Qed.
Lemma toggleTheme_involution_witness :
  let st := state_of (initThemeToggle (page_before_load (Some true))) in
  let st2 := state_of (toggleTheme (state_of (toggleTheme st))) in
  data_theme st = Some THEMES.LIGHT
  /\ data_theme st2 = data_theme st
  /\ data_theme (state_of (toggleTheme st)) <> data_theme st.
Proof.
  intros st st2.
  assert (Hstart : data_theme st = Some THEMES.LIGHT) by reflexivity.
  destruct (toggleTheme_involution st (or_intror Hstart)) as (H2 & _ & H1).
  split; [done|]. split; [done|]. apply H1. by eexists.
Defined.

(** With both elements on the page, [toggleTheme] runs to its end. *)
Lemma toggleTheme_complete (st : state) (icon : jsstring) (b : button) :
  themeIcon st = Some icon -> themeToggle st = Some b ->
  let light := bool_decide (data_theme st = Some THEMES.LIGHT) in
  toggleTheme st
  = Normal
      {| data_theme := if light then None else Some THEMES.LIGHT;
         themeIcon := Some (if light then ICONS.DARK else ICONS.LIGHT);
         themeToggle :=
           Some {| title :=
                     Some (js "Switch to "
                           ++ (if light then js "light" else js "dark")
                           ++ js " mode");
                   classList := {["animate-rotate-in"]} ∪ classList b |};
         localStorage :=
           <[storage_key := if light then THEMES.DARK else THEMES.LIGHT]>
             (localStorage st);
         prefersLight := prefersLight st;
         dispatched :=
           dispatched st ++ [if light then THEMES.DARK else THEMES.LIGHT];
         timeouts := S (timeouts st) |}.
Proof.
  intros Hi Hb light. unfold toggleTheme. rewrite Hb.
  erewrite applyTheme_complete by (simpl; done). fold light.
  by destruct light.
Qed.

(** On a page with both elements, two toggles also bring back the icon,
    the stored value and the button title that [applyTheme] had set. *)
Lemma toggleTheme_twice_applied (theme : jsstring) (st0 : state) :
  theme = THEMES.DARK \/ theme = THEMES.LIGHT ->
  is_Some (themeIcon st0) -> is_Some (themeToggle st0) ->
  let st := state_of (applyTheme theme st0) in
  let st2 := state_of (toggleTheme (state_of (toggleTheme st))) in
  data_theme st2 = data_theme st
  /\ themeIcon st2 = themeIcon st
  /\ localStorage st2 = localStorage st
  /\ (title <$> themeToggle st2) = (title <$> themeToggle st).
Proof.
  intros Htheme [icon Hi] [b Hb] st st2. subst st st2.
  rewrite (applyTheme_complete theme st0 icon b Hi Hb).
  destruct Htheme as [-> | ->]; cbn [state_of].
  - erewrite toggleTheme_complete by reflexivity. cbn [state_of].
    erewrite toggleTheme_complete by reflexivity. simpl.
    repeat split. by rewrite !insert_insert_eq.
  - erewrite toggleTheme_complete by reflexivity. cbn [state_of].
    erewrite toggleTheme_complete by reflexivity. simpl.
    repeat split. by rewrite !insert_insert_eq.
Qed.

Lemma truthy_item_Some (saved : jsstring) :
  saved <> [] -> truthy_item (Some saved) = true.
Proof. by destruct saved. Qed.

(** C4.  While a theme choice is persisted under the theme key, an
    OS-level color-scheme change leaves the controller's state, and so
    the applied theme, as it is.  While no value is persisted under the
    key, the change event applies the OS theme: the handler is
    [applyTheme] of that theme, the attribute becomes that of the OS
    theme, and on a page with both elements the icon, the stored value
    and the current theme follow.  Both hold in every state, reachable
    or not. *)
Theorem system_change_respects_choice (matches : bool) (st : state) :
  (forall saved, getItem storage_key st = Some saved -> saved <> [] ->
     handleSystemThemeChange matches st = Normal st)
  /\ (getItem storage_key st = None ->
      let systemTheme := if matches then THEMES.LIGHT else THEMES.DARK in
      let st' := state_of (handleSystemThemeChange matches st) in
      handleSystemThemeChange matches st = applyTheme systemTheme st
      /\ data_theme st' = (if matches then Some THEMES.LIGHT else None)
      /\ getCurrentTheme st' = systemTheme
      /\ (is_Some (themeIcon st) -> is_Some (themeToggle st) ->
          handleSystemThemeChange matches st = Normal st'
          /\ getItem storage_key st' = Some systemTheme
          /\ themeIcon st' = Some (if matches then ICONS.LIGHT else ICONS.DARK))).
Proof.
  split.
  - intros saved Hsaved Hne. unfold handleSystemThemeChange.
    by rewrite Hsaved, truthy_item_Some.
  - intros Hnone systemTheme st'.
    assert (Hcall : handleSystemThemeChange matches st = applyTheme systemTheme st).
    { unfold handleSystemThemeChange. by rewrite Hnone. }
    assert (Hattr : data_theme st' = if matches then Some THEMES.LIGHT else None).
    { subst st' systemTheme. rewrite Hcall, applyTheme_data_theme.
      by destruct matches. }
    split; [done|]. split; [done|]. split.
    + unfold getCurrentTheme. rewrite Hattr. by destruct matches.
    + intros [icon Hi] [b Hb]. subst st'. rewrite Hcall.
      rewrite (applyTheme_complete systemTheme st icon b Hi Hb). simpl.
      split; [done|]. split.
      * unfold getItem. simpl. by rewrite lookup_insert_eq.
      * subst systemTheme. by destruct matches.
Qed.

Lemma system_change_respects_choice_witness :
  (let st := state_of (initThemeToggle (page_before_load (Some false))) in
   handleSystemThemeChange true st = Normal st)
  /\ (let st := page_before_load (Some false) in
      let st' := state_of (handleSystemThemeChange true st) in
      data_theme st' = Some THEMES.LIGHT
      /\ getItem storage_key st' = Some THEMES.LIGHT).
Proof.
  split.
  - intros st.
    apply (proj1 (system_change_respects_choice true st) THEMES.DARK);
      [reflexivity | by vm_compute].
  - intros st st'.
    destruct (proj2 (system_change_respects_choice true st) eq_refl)
      as (_ & Hattr & _ & Hfull).
    split; [exact Hattr|].
    destruct Hfull as (_ & Hsaved & _); [by eexists | by eexists | exact Hsaved].
Defined.

Lemma toggleTheme_themeIcon (st : state) :
  is_Some (themeIcon (state_of (toggleTheme st))) <-> is_Some (themeIcon st).
Proof.
  unfold toggleTheme.
  destruct (themeToggle st) as [b|] eqn:Hb; [|done].
  match goal with |- context [applyTheme ?t ?s] =>
    pose proof (applyTheme_themeIcon t s) as H;
    destruct (applyTheme t s) as [st'|e st'] end; simpl in *; by rewrite H.
Qed.

Lemma handleSystemThemeChange_cases (matches : bool) (st : state) :
  handleSystemThemeChange matches st = Normal st
  \/ exists theme, handleSystemThemeChange matches st = applyTheme theme st.
Proof.
  unfold handleSystemThemeChange.
  destruct (negb (truthy_item (getItem storage_key st))); eauto.
Qed.

(** No step adds or removes the icon or the button. *)
Lemma step_elements (e : event) (st : state) :
  (is_Some (themeIcon (step e st)) <-> is_Some (themeIcon st))
  /\ (is_Some (themeToggle (step e st)) <-> is_Some (themeToggle st)).
Proof.
  destruct e as [|theme|matches|]; simpl.
  - split; [apply toggleTheme_themeIcon | apply toggleTheme_themeToggle].
  - split; [apply applyTheme_themeIcon | apply applyTheme_themeToggle].
  - destruct (handleSystemThemeChange_cases matches st) as [-> | [theme ->]];
      [done|].
    split; [apply applyTheme_themeIcon | apply applyTheme_themeToggle].
  - unfold timeoutFired. destruct (themeToggle st) as [b|] eqn:Hb; simpl.
    + split; [done|]. by rewrite !is_Some_alt.
    + by rewrite Hb.
Qed.

Lemma applyTheme_persists (theme : jsstring) (st : state) :
  is_Some (themeIcon st) -> is_Some (themeToggle st) ->
  getItem storage_key (state_of (applyTheme theme st)) = Some theme.
Proof.
  intros [icon Hi] [b Hb].
  rewrite (applyTheme_complete theme st icon b Hi Hb). unfold getItem. simpl.
  by rewrite lookup_insert_eq.
Qed.

(** A page load with both elements persists the resolved theme, chosen
    by the user or not, and every later step keeps a value under the
    key: after [initThemeToggle] the "nothing persisted" case of the
    change handler arises only if the storage is cleared from outside. *)
Lemma reachable_persisted (st : state) :
  reachable st ->
  is_Some (themeIcon st) -> is_Some (themeToggle st) ->
  is_Some (getItem storage_key st).
Proof.
  induction 1 as [st0|e st Hreach IH]; intros Hicon Htoggle.
  - unfold initThemeToggle in *.
    apply applyTheme_themeIcon in Hicon. apply applyTheme_themeToggle in Htoggle.
    by rewrite applyTheme_persists.
  - destruct (step_elements e st) as [Hi Ht].
    apply Hi in Hicon. apply Ht in Htoggle. specialize (IH Hicon Htoggle).
    destruct e as [|theme|matches|]; simpl.
    + destruct Hicon as [icon Hicon], Htoggle as [b Htoggle].
      rewrite (toggleTheme_complete st icon b Hicon Htoggle).
      unfold getItem. simpl. by rewrite lookup_insert_eq.
    + by rewrite applyTheme_persists.
    + destruct (handleSystemThemeChange_cases matches st) as [-> | [theme ->]];
        [done|]. by rewrite applyTheme_persists.
    + unfold timeoutFired, getItem in *. by destruct (themeToggle st).
Qed.
End ThemeFacts.

(** ** Navigation: active link *)

Section NavBarFacts.
Import NavBar.
Local Open Scope Z_scope.

Lemma active_added (classes : gset string) :
  "active" ∈ ({["active"]} ∪ classes : gset string).
Proof. by apply elem_of_union_l, elem_of_singleton. Qed.

Lemma active_removed (classes : gset string) :
  "active" ∉ classes ∖ {["active"]}.
Proof. rewrite elem_of_difference, elem_of_singleton. by intros [_ H]. Qed.

(** After [updateActiveLink], a link is marked exactly when its href is
    the active id; hrefs and the order of the links are unchanged. *)
Lemma updateActiveLink_active (activeId : jsstring) (links : list link) :
  Forall (fun l => is_active l <-> href l = Some activeId)
    (updateActiveLink activeId links)
  /\ map href (updateActiveLink activeId links) = map href links.
Proof.
  unfold updateActiveLink. split.
  - apply Forall_map, Forall_true. intros l. unfold is_active. simpl.
    case_bool_decide as Hhref; split; try done.
    + intros _. apply active_added.
    + intros Hin. by apply active_removed in Hin.
  - rewrite map_map. done.
Qed.

(** A section changes the marks only if the scroll position is within
    its extent, moved up by the height of the bar plus 100 pixels. *)
Lemma visit_section_spec (scrollPosition navbarHeight : Z) (p : page)
    (s : section) :
  visit_section scrollPosition navbarHeight p s
  = if bool_decide (offsetTop s - navbarHeight - 100 <= scrollPosition
                    < offsetTop s - navbarHeight - 100 + offsetHeight s)
    then set_links (updateActiveLink (js "#" ++ id s) (navLinks p)) p
    else p.
Proof.
  unfold visit_section. repeat case_bool_decide; simpl; try done; lia.
Qed.

(** C7.  Two sections with vertical extents [0,500) and [500,1200), a
    navigation bar less than 500 pixels high, one link per section, and
    scroll position 600: the scroll handler returns with the second
    link carrying the active class and the first link not carrying it,
    whatever the marks were before. *)
Theorem handleScroll_marks_second_link (h : Z) (classes : gset string)
    (id1 id2 : jsstring) (l1 l2 : link) :
  0 <= h < 500 -> id1 <> id2 ->
  href l1 = Some (js "#" ++ id1) -> href l2 = Some (js "#" ++ id2) ->
  let p :=
    {| navbar := Some {| navbarClasses := classes; navbarHeight := h |};
       navLinks := [l1; l2];
       sections := [{| id := id1; offsetTop := 0; offsetHeight := 500 |};
                    {| id := id2; offsetTop := 500; offsetHeight := 700 |}];
       scrollY := 600 |} in
  exists p' l1' l2',
    handleScroll p = Normal p'
    /\ navLinks p' = [l1'; l2']
    /\ href l1' = href l1 /\ href l2' = href l2
    /\ ~ is_active l1' /\ is_active l2'.
Proof.
  intros Hh Hid H1 H2 p. unfold handleScroll. simpl.
  rewrite !visit_section_spec. simpl.
  rewrite (bool_decide_eq_false_2 (0 - h - 100 <= 600 < 0 - h - 100 + 500)) by lia.
  rewrite (bool_decide_eq_true_2 (500 - h - 100 <= 600 < 500 - h - 100 + 700)) by lia.
  simpl. rewrite H1, H2.
  rewrite bool_decide_eq_false_2, bool_decide_eq_true_2; [|done|].
  - do 3 eexists. split; [reflexivity|]. simpl.
    split; [reflexivity|]. unfold is_active. simpl.
    repeat split; try done; [apply active_removed | apply active_added].
  - intros [= Heq]. by apply Hid.
Qed.

Lemma handleScroll_marks_second_link_witness :
  let home := {| href := Some (js "#home"); classList := {["nav-link"; "active"]} |} in
  let about := {| href := Some (js "#about"); classList := {["nav-link"]} |} in
  let p :=
    {| navbar := Some {| navbarClasses := ∅; navbarHeight := 70 |};
       navLinks := [home; about];
       sections := [{| id := js "home"; offsetTop := 0; offsetHeight := 500 |};
                    {| id := js "about"; offsetTop := 500; offsetHeight := 700 |}];
       scrollY := 600 |} in
  exists p' l1' l2',
    handleScroll p = Normal p'
    /\ navLinks p' = [l1'; l2']
    /\ href l1' = href home /\ href l2' = href about
    /\ ~ is_active l1' /\ is_active l2'.
Proof.
  intros home about p.
  apply (handleScroll_marks_second_link 70 ∅ (js "home") (js "about") home about).
  - lia.
  - vm_compute. discriminate.
  - reflexivity.
  - reflexivity.
Defined.
End NavBarFacts.

(** * Further properties of the scripts *)

(** ** The languages of the two patterns *)

Lemma Matches_Cat_iff (r1 r2 : regex) (s : jsstring) :
  Matches (Cat r1 r2) s
  <-> exists s1 s2, s = s1 ++ s2 /\ Matches r1 s1 /\ Matches r2 s2.
Proof.
  split.
  - intros H. inversion H; subst. eauto.
  - intros (s1 & s2 & -> & H1 & H2). by constructor.
Qed.

Lemma Matches_Class_iff (n : bool) (atoms : list class_atom) (s : jsstring) :
  Matches (Class n atoms) s
  <-> exists c, s = [c] /\ class_matches n atoms c = true.
Proof.
  split.
  - intros H. inversion H; subst. eauto.
  - intros (c & -> & H). by constructor.
Qed.

Lemma Matches_Star_Class (n : bool) (atoms : list class_atom) (s : jsstring) :
  Matches (Star (Class n atoms)) s
  <-> Forall (fun c => class_matches n atoms c = true) s.
Proof.
  split.
  - intros H. remember (Star (Class n atoms)) as r eqn:Hr.
    induction H as [| | | | | |r s1 s2 H1 _ H2 IH]; try discriminate.
    + constructor.
    + injection Hr as ->. apply Matches_Class_iff in H1 as (c & -> & Hc).
      constructor; [done|]. by apply IH.
  - induction 1 as [|c s Hc _ IH].
    + constructor.
    + change (c :: s) with ([c] ++ s). constructor; [by constructor | done].
Qed.

Lemma Matches_Plus_Class (n : bool) (atoms : list class_atom) (s : jsstring) :
  Matches (Plus (Class n atoms)) s
  <-> s <> [] /\ Forall (fun c => class_matches n atoms c = true) s.
Proof.
  unfold Plus. rewrite Matches_Cat_iff. split.
  - intros (s1 & s2 & -> & H1 & H2).
    apply Matches_Class_iff in H1 as (c & -> & Hc).
    apply Matches_Star_Class in H2. split; [done|]. by constructor.
  - intros [Hne H]. destruct H as [|c s Hc H]; [done|].
    exists [c], s. split; [done|]. split.
    + by constructor.
    + by apply Matches_Star_Class.
Qed.

Section FieldRules.
Import ContactForm.

(** The characters the name pattern admits: an ASCII letter or white
    space. *)
Lemma name_class_matches (c : code_unit) :
  class_matches false [CRange (cu "a") (cu "z"); CRange (cu "A") (cu "Z"); CSpace] c
  = true
  <-> ((cu "a" <= c <= cu "z")%N \/ (cu "A" <= c <= cu "Z")%N
       \/ is_whitespace c = true).
Proof.
  unfold class_matches. cbn [existsb atom_matches xorb].
  rewrite !orb_true_iff, !andb_true_iff, !N.leb_le. intuition discriminate.
Qed.

(** The characters the email pattern admits around [@] and the dot:
    anything but white space and [@]. *)
Lemma email_class_matches (c : code_unit) :
  class_matches true [CSpace; CChar (cu "@")] c = true
  <-> is_whitespace c = false /\ c <> cu "@".
Proof.
  unfold class_matches. cbn [existsb atom_matches].
  destruct (is_whitespace c); cbn [orb xorb negb].
  - split; [done | by intros [? _]].
  - rewrite orb_false_r. destruct (N.eqb_spec c (cu "@")); cbn [xorb negb].
    + split; [done | by intros [_ ?]].
    + by split.
Qed.

Lemma validationRules_name : validationRules !! js "name" = Some name_rules.
Proof. by vm_compute. Qed.

Lemma validationRules_subject :
  validationRules !! js "subject" = Some subject_rules.
Proof. by vm_compute. Qed.

(** X1.  The name field is valid exactly when its trimmed value has at
    least two characters, each an ASCII letter or a white-space
    character: digits, hyphens, apostrophes and letters outside a-z and
    A-Z make it invalid. *)
Theorem name_field_valid_iff (v : jsstring) :
  isValid (validateField {| name := js "name"; value := v |}) = true
  <-> 2 <= length (trim v)
      /\ Forall (fun c => (cu "a" <= c <= cu "z")%N \/ (cu "A" <= c <= cu "Z")%N
                          \/ is_whitespace c = true) (trim v).
Proof.
  rewrite validateField_valid_iff, validationRules_name.
  cbn [name_rules required minLength maxLength pattern bound_set].
  split.
  - intros (_ & Hmin & _ & Hpat).
    split; [by apply Hmin|].
    specialize (Hpat _ eq_refl). apply test_Matches in Hpat.
    apply Matches_Plus_Class in Hpat as [_ Hall].
    eapply Forall_impl; [exact Hall|]. intros c. apply name_class_matches.
  - intros [Hlen Hall]. repeat split.
    + intros _ Hnil. rewrite Hnil in Hlen. simpl in Hlen. lia.
    + by intros m [= <-].
    + done.
    + intros p [= <-]. apply test_Matches, Matches_Plus_Class. split.
      * intros Hnil. rewrite Hnil in Hlen. simpl in Hlen. lia.
      * eapply Forall_impl; [exact Hall|]. intros c. apply name_class_matches.
Qed.

Lemma Matches_Chr (x : ascii) (s : jsstring) :
  Matches (Chr x) s <-> s = [cu x].
Proof.
  unfold Chr. rewrite Matches_Class_iff. unfold class_matches.
  cbn [existsb atom_matches xorb]. split.
  - intros (c & -> & Hc). rewrite orb_false_r in Hc.
    by apply N.eqb_eq in Hc as ->.
  - intros ->. exists (cu x). by rewrite N.eqb_refl.
Qed.

(** The language of the email pattern. *)
Lemma email_pattern_language (s : jsstring) :
  Matches email_pattern s
  <-> exists a b c,
        s = a ++ [cu "@"] ++ b ++ [cu "."] ++ c
        /\ a <> [] /\ b <> [] /\ c <> []
        /\ Forall (fun x => is_whitespace x = false /\ x <> cu "@") (a ++ b ++ c).
Proof.
  unfold email_pattern. cbv zeta. split.
  - intros H.
    apply Matches_Cat_iff in H as (a & ? & -> & Ha & H).
    apply Matches_Cat_iff in H as (? & ? & -> & Hat & H).
    apply Matches_Cat_iff in H as (b & ? & -> & Hb & H).
    apply Matches_Cat_iff in H as (? & c & -> & Hdot & Hc).
    apply Matches_Chr in Hat as ->. apply Matches_Chr in Hdot as ->.
    apply Matches_Plus_Class in Ha as [Ha Hfa].
    apply Matches_Plus_Class in Hb as [Hb Hfb].
    apply Matches_Plus_Class in Hc as [Hc Hfc].
    exists a, b, c. split; [done|]. split; [done|]. split; [done|]. split; [done|].
    rewrite !Forall_app. repeat split;
      (eapply Forall_impl; [eassumption|]; intros x; apply email_class_matches).
  - intros (a & b & c & -> & Ha & Hb & Hc & Hall).
    rewrite !Forall_app in Hall. destruct Hall as (Hfa & Hfb & Hfc).
    assert (Hplus : forall l, l <> [] ->
              Forall (fun x => is_whitespace x = false /\ x <> cu "@") l ->
              Matches (Plus (Class true [CSpace; CChar (cu "@")])) l).
    { intros l Hne Hl. apply Matches_Plus_Class. split; [done|].
      eapply Forall_impl; [exact Hl|]. intros x. apply email_class_matches. }
    apply Matches_Cat_iff. exists a, ([cu "@"] ++ b ++ [cu "."] ++ c).
    split; [done|]. split; [by apply Hplus|].
    apply Matches_Cat_iff. exists [cu "@"], (b ++ [cu "."] ++ c).
    split; [done|]. split; [by apply Matches_Chr|].
    apply Matches_Cat_iff. exists b, ([cu "."] ++ c).
    split; [done|]. split; [by apply Hplus|].
    apply Matches_Cat_iff. exists [cu "."], c.
    split; [done|]. split; [by apply Matches_Chr | by apply Hplus].
Qed.

(** X2.  The email field is valid exactly when its trimmed value is
    three non-empty parts joined by an [@] and a dot, none of the parts
    containing white space or a further [@]. *)
Theorem email_field_valid_iff (v : jsstring) :
  isValid (validateField {| name := js "email"; value := v |}) = true
  <-> exists a b c,
        trim v = a ++ [cu "@"] ++ b ++ [cu "."] ++ c
        /\ a <> [] /\ b <> [] /\ c <> []
        /\ Forall (fun x => is_whitespace x = false /\ x <> cu "@") (a ++ b ++ c).
Proof.
  rewrite validateField_valid_iff, validationRules_email.
  cbn [email_rules required minLength maxLength pattern bound_set].
  rewrite <- email_pattern_language, <- test_Matches. split.
  - intros (_ & _ & _ & Hpat). by apply Hpat.
  - intros Hpat. repeat split; try done.
    + intros _ Hnil. rewrite Hnil in Hpat. by vm_compute in Hpat.
    + by intros p [= <-].
Qed.

(** X3.  For the subject and message fields the length of the trimmed
    value decides alone, whatever the characters: the subject is valid
    from 5 characters on, the message from 10 up to 1000. *)
Theorem length_fields_valid_iff (v : jsstring) :
  (isValid (validateField {| name := js "subject"; value := v |}) = true
   <-> 5 <= length (trim v))
  /\ (isValid (validateField {| name := js "message"; value := v |}) = true
      <-> 10 <= length (trim v) <= 1000).
Proof.
  split.
  - rewrite validateField_valid_iff, validationRules_subject.
    cbn [subject_rules required minLength maxLength pattern bound_set].
    split.
    + intros (_ & Hmin & _). by apply Hmin.
    + intros Hlen. repeat split; try done.
      * intros _ Hnil. rewrite Hnil in Hlen. simpl in Hlen. lia.
      * by intros m [= <-].
  - rewrite validateField_message_length, andb_true_iff, !Nat.leb_le. done.
Qed.
End FieldRules.

(** ** Contact form: feedback and the submission gate *)

Section FormFacts.
Import ContactForm FormUi.

(** A rejected field always comes with a message. *)
Lemma validateField_invalid_message (f : field) :
  isValid (validateField f) = false -> truthy (feedback (validateField f)) = true.
Proof.
  unfold validateField.
  destruct (validationRules !! name f) as [r|] eqn:Hr; [|done].
  assert (Hmsg : truthy (message r) = true).
  { by destruct (validationRules_keys _ _ Hr)
      as [[_ ->]|[[_ ->]|[[_ ->]|[_ ->]]]]. }
  assert (Hreq : truthy (capitalize (name f) ++ js " is required") = true).
  { by destruct (capitalize (name f)). }
  repeat match goal with
         | |- context [if ?b then _ else _] => destruct b; simpl
         end; done.
Qed.

Lemma showFieldFeedback_classes (i : input) (ok : bool) (msg : jsstring) :
  let i' := showFieldFeedback i ok msg in
  ("valid" ∈ classList i' <-> ok = true)
  /\ ("invalid" ∈ classList i' <-> ok = false)
  /\ (forall c, c <> "valid" -> c <> "invalid" ->
        c ∈ classList i' <-> c ∈ classList i)
  /\ control i' = control i.
Proof.
  simpl. repeat split; try done.
  all: rewrite ?elem_of_union, ?elem_of_singleton, ?elem_of_difference,
         ?elem_of_singleton; destruct ok; intuition (try discriminate; eauto).
Qed.

(** X5.  After a field is validated and its feedback shown, whatever
    its classes were before, it carries [valid] exactly when the
    verdict is "valid" and [invalid] exactly when it is not, its other
    classes are untouched, and -- given at most one feedback element
    before -- its form group holds exactly the message of a rejection
    and none after an acceptance: feedback messages never pile up. *)
Theorem validateAndShow_feedback (i : input) :
  length (feedbacks i) <= 1 ->
  let verdict := validateField (control i) in
  let i' := validateAndShow i in
  ("valid" ∈ classList i' <-> isValid verdict = true)
  /\ ("invalid" ∈ classList i' <-> isValid verdict = false)
  /\ (forall c, c <> "valid" -> c <> "invalid" ->
        c ∈ classList i' <-> c ∈ classList i)
  /\ feedbacks i' = (if isValid verdict then [] else [feedback verdict])
  /\ length (feedbacks i') <= 1.
Proof.
  intros Hlen verdict i'.
  destruct (showFieldFeedback_classes i (isValid verdict) (feedback verdict))
    as (Hv & Hi & Hc & _).
  assert (Hf : feedbacks i' = if isValid verdict then [] else [feedback verdict]).
  { subst i'. unfold validateAndShow, showFieldFeedback. fold verdict. simpl.
    pose proof (validateField_invalid_message (control i)) as Hmsg. fold verdict in Hmsg.
    destruct (feedbacks i) as [|old [|? ?]]; simpl in Hlen; try lia;
      destruct (isValid verdict); simpl; try done; by rewrite Hmsg. }
  repeat split; try done; try apply Hv; try apply Hi; try apply Hc; try done.
  rewrite Hf. destruct (isValid verdict); simpl; lia.
Qed.

Lemma validateAndShow_feedback_witness :
  let i := {| control := {| name := js "subject"; value := js "Hi" |};
              classList := {["valid"; "wide"]};
              feedbacks := [js "old message"] |} in
  feedbacks (validateAndShow i) = [message subject_rules]
  /\ "invalid" ∈ classList (validateAndShow i).
Proof.
  intros i.
  destruct (validateAndShow_feedback i) as (_ & Hinvalid & _ & Hf & _).
  - simpl. lia.
  - split; [exact Hf | by apply Hinvalid].
Defined.












End FormFacts.

(** ** Contact form: debounced validation and the character counter *)

Lemma trimStart_length (s : jsstring) : length (trimStart s) <= length s.
Proof.
  induction s as [|c s IH]; simpl; [done|].
  destruct (is_whitespace c); simpl; lia.
Qed.

Lemma trim_length (s : jsstring) : length (trim s) <= length s.
Proof.
  unfold trim, trimEnd. rewrite length_rev.
  etrans; [apply trimStart_length|]. rewrite length_rev. apply trimStart_length.
Qed.

Section RealtimeFacts.
Import ContactForm FormUi.

(** What the timers of a state keep between events: every pending
    timer of an input whose name is not ['__proto__'] is the one its
    field name is registered with, no timer id is still to come, and
    nothing is registered under ['__proto__']. *)
Lemma ui_step_timers (e : ui_event) (st : realtime) :
  (forall id index, pending st !! id = Some index ->
     exists input, fields st !! index = Some input
       /\ (name (control input) <> js "__proto__" ->
           debounceTimers st !! name (control input) = Some id)) ->
  (forall nm id, debounceTimers st !! nm = Some id -> id < nextTimer st) ->
  debounceTimers st !! js "__proto__" = None ->
  let st' := ui_step e st in
  (forall id index, pending st' !! id = Some index ->
     exists input, fields st' !! index = Some input
       /\ (name (control input) <> js "__proto__" ->
           debounceTimers st' !! name (control input) = Some id))
  /\ (forall nm id, debounceTimers st' !! nm = Some id -> id < nextTimer st')
  /\ debounceTimers st' !! js "__proto__" = None.
Proof.
  intros Hpending Hbound Hproto.
  assert (Hrename : forall (l : list input) (k : nat) (old new : input),
            l !! k = Some old -> name (control new) = name (control old) ->
            forall j input, l !! j = Some input ->
              exists input', <[k := new]> l !! j = Some input'
                /\ name (control input') = name (control input)).
  { intros l k old new Hk Hname j input Hj. destruct (decide (k = j)) as [->|Hne].
    - exists new. split.
      + apply list_lookup_insert_eq. by eapply lookup_lt_Some.
      + congruence.
    - exists input. by rewrite list_lookup_insert_ne. }
  destruct e as [index v|id|index]; simpl.
  - (* typing: the value changes, then the input listener runs *)
    unfold onInput, setValue. simpl.
    destruct (fields st !! index) as [input|] eqn:Hinput; simpl;
      [|rewrite Hinput; by repeat split].
    rewrite list_lookup_insert_eq by by eapply lookup_lt_Some. simpl.
    set (nm := name (control input)).
    set (typed := {| control := {| name := nm; value := v |};
                     classList := classList input; feedbacks := feedbacks input |}).
    unfold setTimer. destruct (decide (nm = js "__proto__")) as [Hnm|Hnm].
    + (* nothing is registered and nothing cleared *)
      rewrite bool_decide_eq_true_2 by done. rewrite Hnm, Hproto.
      split; [|split; [|done]].
      * intros id j Hid. destruct (decide (id = nextTimer st)) as [->|Hne].
        -- rewrite lookup_insert_eq in Hid. injection Hid as <-.
           exists typed. split; [apply list_lookup_insert_eq; by eapply lookup_lt_Some|].
           intros Hnot. by destruct Hnot.
        -- rewrite lookup_insert_ne in Hid by done.
           destruct (Hpending id j Hid) as (inputj & Hfj & Htj).
           destruct (Hrename (fields st) index input typed Hinput eq_refl j inputj Hfj)
             as (input' & Hf' & Hn').
           exists input'. split; [done|]. rewrite Hn'. exact Htj.
      * intros nm' id Hid. specialize (Hbound _ _ Hid). lia.
    + rewrite bool_decide_eq_false_2 by done.
      split; [|split].
      * intros id j Hid. destruct (decide (id = nextTimer st)) as [->|Hne].
        -- rewrite lookup_insert_eq in Hid. injection Hid as <-.
           exists typed. split; [apply list_lookup_insert_eq; by eapply lookup_lt_Some|].
           intros _. simpl. by rewrite lookup_insert_eq.
        -- rewrite lookup_insert_ne in Hid by done.
           assert (Hold : pending st !! id = Some j
                          /\ debounceTimers st !! nm <> Some id).
           { destruct (debounceTimers st !! nm) as [old|] eqn:Hold; [|done].
             destruct (decide (old = id)) as [->|Hoi].
             - by rewrite lookup_delete_eq in Hid.
             - rewrite lookup_delete_ne in Hid by done. split; [done|congruence]. }
           destruct Hold as [Hj Hnot].
           destruct (Hpending id j Hj) as (inputj & Hfj & Htj).
           destruct (Hrename (fields st) index input typed Hinput eq_refl j inputj Hfj)
             as (input' & Hf' & Hn').
           exists input'. split; [done|]. rewrite Hn'. intros Hnp.
           specialize (Htj Hnp).
           rewrite lookup_insert_ne; [done|]. intros Heq. apply Hnot. by rewrite Heq.
      * intros nm' id Hid. destruct (decide (nm = nm')) as [<-|Hne].
        -- rewrite lookup_insert_eq in Hid. injection Hid as <-. lia.
        -- rewrite lookup_insert_ne in Hid by done.
           specialize (Hbound _ _ Hid). lia.
      * by rewrite lookup_insert_ne.
  - (* a timer fires *)
    unfold onTimer. destruct (pending st !! id) as [index|] eqn:Hid;
      [|by repeat split].
    simpl. split; [|by split].
    intros id' j Hj. destruct (decide (id = id')) as [->|Hne].
    { by rewrite lookup_delete_eq in Hj. }
    rewrite lookup_delete_ne in Hj by done.
    destruct (Hpending id' j Hj) as (inputj & Hfj & Htj).
    destruct (fields st !! index) as [input|] eqn:Hinput; [|by eauto].
    destruct (truthy (trim (value (control input)))); [|by eauto].
    destruct (Hrename (fields st) index input (validateAndShow input)
                Hinput eq_refl j inputj Hfj) as (input' & Hf' & Hn').
    exists input'. split; [done|]. by rewrite Hn'.
  - (* blur *)
    unfold onBlur. simpl. split; [|by split].
    intros id j Hj. destruct (Hpending id j Hj) as (inputj & Hfj & Htj).
    destruct (fields st !! index) as [input|] eqn:Hinput; [|by eauto].
    destruct (Hrename (fields st) index input (validateAndShow input)
                Hinput eq_refl j inputj Hfj) as (input' & Hf' & Hn').
    exists input'. split; [done|]. by rewrite Hn'.
Qed.

Lemma ui_run_timers (events : list ui_event) (st : realtime) :
  (forall id index, pending st !! id = Some index ->
     exists input, fields st !! index = Some input
       /\ (name (control input) <> js "__proto__" ->
           debounceTimers st !! name (control input) = Some id)) ->
  (forall nm id, debounceTimers st !! nm = Some id -> id < nextTimer st) ->
  debounceTimers st !! js "__proto__" = None ->
  let st' := ui_run events st in
  (forall id index, pending st' !! id = Some index ->
     exists input, fields st' !! index = Some input
       /\ (name (control input) <> js "__proto__" ->
           debounceTimers st' !! name (control input) = Some id))
  /\ (forall nm id, debounceTimers st' !! nm = Some id -> id < nextTimer st')
  /\ debounceTimers st' !! js "__proto__" = None.
Proof.
  revert st. induction events as [|e events IH]; intros st H1 H2 H3;
    [by repeat split|].
  destruct (ui_step_timers e st H1 H2 H3) as (H1' & H2' & H3').
  apply (IH (ui_step e st) H1' H2' H3').
Qed.

(** X7.  Debouncing: whatever the user types, leaves or lets time out,
    there is never more than one pending validation timer per field
    name, for every name but ['__proto__']; and right after a key
    stroke in an input, the timer just set is pending for it.  For an
    input named ['__proto__'] the plain object keeps no timer id, so a
    key stroke clears nothing: its timers pile up. *)
Theorem one_timer_per_field (inputs : list input) (events : list ui_event) :
  let st := ui_run events (listening inputs) in
  (forall id1 id2 index1 index2 input1 input2,
     pending st !! id1 = Some index1 -> pending st !! id2 = Some index2 ->
     fields st !! index1 = Some input1 -> fields st !! index2 = Some input2 ->
     name (control input1) = name (control input2) ->
     name (control input1) <> js "__proto__" ->
     id1 = id2)
  /\ (forall index v input,
        fields st !! index = Some input ->
        pending (ui_step (Typed index v) st) !! nextTimer st = Some index)
  /\ (forall index v input,
        fields st !! index = Some input ->
        name (control input) = js "__proto__" ->
        pending (ui_step (Typed index v) st)
        = <[nextTimer st := index]> (pending st)).
Proof.
  intros st.
  destruct (ui_run_timers events (listening inputs)) as (Hpending & _ & Hproto).
  { intros id index Hid. simpl in Hid. by rewrite lookup_empty in Hid. }
  { intros nm id Hid. simpl in Hid. by rewrite lookup_empty in Hid. }
  { simpl. by rewrite lookup_empty. }
  fold st in Hpending, Hproto. split; [|split].
  - intros id1 id2 index1 index2 input1 input2 Hp1 Hp2 Hf1 Hf2 Hname Hnot.
    destruct (Hpending _ _ Hp1) as (i1 & Hi1 & Ht1).
    destruct (Hpending _ _ Hp2) as (i2 & Hi2 & Ht2).
    rewrite Hf1 in Hi1. rewrite Hf2 in Hi2.
    injection Hi1 as <-. injection Hi2 as <-.
    specialize (Ht1 Hnot). rewrite <- Hname in Ht2. specialize (Ht2 Hnot).
    congruence.
  - intros index v input Hinput. simpl. unfold onInput, setValue. simpl.
    rewrite Hinput. rewrite list_lookup_insert_eq by by eapply lookup_lt_Some.
    simpl. by rewrite lookup_insert_eq.
  - intros index v input Hinput Hname. simpl. unfold onInput, setValue. simpl.
    rewrite Hinput. rewrite list_lookup_insert_eq by by eapply lookup_lt_Some.
    simpl. by rewrite Hname, Hproto.
Qed.

Lemma one_timer_per_field_witness :
  let message := {| control := {| name := js "message"; value := [] |};
                    classList := ∅; feedbacks := [] |} in
  let odd := {| control := {| name := js "__proto__"; value := [] |};
                classList := ∅; feedbacks := [] |} in
  let st := ui_run [Typed 0 (js "H"); Typed 1 (js "x")] (listening [message; odd]) in
  pending (ui_step (Typed 0 (js "He")) st) !! nextTimer st = Some 0
  /\ pending (ui_step (Typed 1 (js "xy")) st)
     = <[nextTimer st := 1]> (pending st).
Proof.
  intros message odd st.
  destruct (one_timer_per_field [message; odd]
              [Typed 0 (js "H"); Typed 1 (js "x")]) as (_ & Hset & Hodd).
  split.
  - apply (Hset 0 (js "He")
             {| control := {| name := js "message"; value := js "H" |};
                classList := ∅; feedbacks := [] |}).
    reflexivity.
  - apply (Hodd 1 (js "xy")
             {| control := {| name := js "__proto__"; value := js "x" |};
                classList := ∅; feedbacks := [] |}); reflexivity.
Defined.

Lemma validateField_blank (nm v : jsstring) (r : rules) :
  validationRules !! nm = Some r -> all_whitespace v ->
  validateField {| name := nm; value := v |}
  = {| isValid := false; feedback := capitalize nm ++ js " is required" |}.
Proof.
  intros Hr Hv. unfold validateField. cbn [name value].
  by rewrite Hr, (validationRules_required _ _ Hr), (trim_all_whitespace v Hv).
Qed.

(** X8.  A blank field (empty or white space only) is not judged while
    the user types: when its debounce timer fires, no input changes.
    Leaving the field does judge it: a configured field is then marked
    invalid and its last feedback says "<Field> is required". *)
Theorem blank_field_judged_on_blur (st : realtime) (index id : nat) (input : input) :
  fields st !! index = Some input ->
  all_whitespace (value (control input)) ->
  (pending st !! id = Some index -> fields (onTimer id st) = fields st)
  /\ (forall r, validationRules !! name (control input) = Some r ->
        exists input',
          fields (onBlur index st) !! index = Some input'
          /\ "invalid" ∈ classList input'
          /\ last (feedbacks input')
             = Some (capitalize (name (control input)) ++ js " is required")).
Proof.
  intros Hinput Hblank. split.
  - intros Hid. unfold onTimer. rewrite Hid. simpl.
    by rewrite Hinput, (trim_all_whitespace _ Hblank).
  - intros r Hr. unfold onBlur. simpl. rewrite Hinput.
    exists (validateAndShow input). split.
    + apply list_lookup_insert_eq. by eapply lookup_lt_Some.
    + unfold validateAndShow. destruct input as [[nm v] classes fb].
      simpl in *. rewrite (validateField_blank nm v r Hr Hblank). simpl. split.
      * by apply elem_of_union_l, elem_of_singleton.
      * assert (Hreq : truthy (capitalize nm ++ js " is required") = true)
          by by destruct (capitalize nm).
        rewrite Hreq. by rewrite last_snoc.
Qed.

Lemma blank_field_judged_on_blur_witness :
  let subject := {| control := {| name := js "subject"; value := js "  " |};
                    classList := ∅; feedbacks := [] |} in
  let st := ui_step (Typed 0 (js "  ")) (listening [subject]) in
  fields (onTimer 1 st) = fields st
  /\ exists input',
       fields (onBlur 0 st) !! 0 = Some input'
       /\ "invalid" ∈ classList input'
       /\ last (feedbacks input') = Some (js "Subject is required").
Proof.
  intros subject st.
  destruct (blank_field_judged_on_blur st 0 1 subject) as [Htimer Hblur].
  - reflexivity.
  - by repeat constructor.
  - split; [by apply Htimer|]. by apply (Hblur subject_rules).
Defined.

(** X9.  The character counter counts the untrimmed value, the
    validator the trimmed one.  So as long as the counter is not
    negative the maximum length is never the reason of a rejection: the
    message is then valid exactly when its trimmed value has at least
    10 characters. *)
Theorem counter_within_limit (v : jsstring) :
  (0 <= remaining v)%Z ->
  isValid (validateField {| name := js "message"; value := v |})
  = (10 <=? length (trim v))%nat.
Proof.
  unfold remaining.
  change (default 0%nat (maxLength message_rules)) with 1000%nat. intros Hrem.
  rewrite validateField_message_length.
  pose proof (trim_length v) as Hlen.
  replace (length (trim v) <=? 1000)%nat with true; [by rewrite andb_true_r|].
  symmetry. apply Nat.leb_le. lia.
Qed.

Lemma counter_within_limit_witness :
  isValid (validateField {| name := js "message"; value := js "  too short " |})
  = false.
Proof.
  rewrite (counter_within_limit (js "  too short ")); [reflexivity|].
  by vm_compute.
Defined.
End RealtimeFacts.

(** ** Loaders: what a run of calls shows *)

Lemma slice_from_start {A : Type} (count : nat) (arr : list A) :
  slice 0 (Nat.min (0 + count) (length arr)) arr = take (Nat.min count (length arr)) arr.
Proof. unfold slice. simpl. by rewrite Nat.sub_0_r. Qed.

Section ProjectsRuns.
Import Projects.

(** A fetching call that succeeds, on an empty array with count 0: the
    whole state it leaves. *)
Lemma loadProjects_first (count status : nat) (data : option (list project))
    (st : state) (g : list node) :
  projectsGrid st = Some g -> allProjects st = [] -> projectsLoaded st = 0 ->
  let arr := reverse (default [] data) in
  let shown := Nat.min count (length arr) in
  loadProjects count (Http true status (JsonData data)) st
  = Normal {| projectsLoaded := shown;
              allProjects := arr;
              projectsGrid := Some (map visibleCard (take shown arr));
              loadMoreBtn :=
                if bool_decide (length arr <= shown)
                then (fun _ => js "none") <$> loadMoreBtn st
                else loadMoreBtn st;
              fetches := S (fetches st) |}.
Proof.
  intros Hg Hall H0 arr shown. unfold loadProjects, fetchAll.
  rewrite Hg, Hall. simpl. unfold renderNext, projectsToLoad. simpl. rewrite H0.
  fold arr. rewrite slice_from_start. fold shown.
  erewrite fold_renderProject by reflexivity. simpl. rewrite H0.
  assert (Hlen : length (take shown arr) = shown)
    by (rewrite length_take; subst shown; lia).
  rewrite Hlen. simpl. by case_bool_decide.
Qed.

(** A successful load from a state that shows the first records of the
    document, or has nothing in memory. *)
Lemma loadProjects_advances (count status : nat) (data : option (list project))
    (st : state) :
  let arr := reverse (default [] data) in
  is_Some (projectsGrid st) ->
  (allProjects st = arr /\ arr <> []
   /\ projectsGrid st = Some (map visibleCard (take (projectsLoaded st) arr))
   /\ projectsLoaded st <= length arr)
  \/ (allProjects st = [] /\ projectsLoaded st = 0) ->
  let st' := state_of (loadProjects count (Http true status (JsonData data)) st) in
  allProjects st' = arr
  /\ projectsLoaded st' = Nat.min (projectsLoaded st + count) (length arr)
  /\ projectsGrid st' = Some (map visibleCard (take (projectsLoaded st') arr)).
Proof.
  intros arr [g Hg] [(Hall & Hne & Hgrid & Hle)|[Hall H0]].
  - destruct (loadProjects_cases count (Http true status (JsonData data)) st)
      as [[Hno _]|[(g' & _ & _ & ->)|[(? & ? & ? & _ & Hnil & _)
         |(? & _ & Hnil & _)]]]; try congruence.
    destruct (renderNext_spec count st g Hg) as (st' & -> & Hl & Ha & Hg' & _).
    simpl. unfold projectsToLoad in Hl, Hg'. rewrite Hall in Hl, Hg', Ha.
    set (page := slice _ _ arr) in *.
    assert (Hlen : length page = Nat.min count (length arr - projectsLoaded st))
      by by apply slice_length.
    assert (Hgeq : g = map visibleCard (take (projectsLoaded st) arr)) by congruence.
    split; [done|]. split; [lia|].
    rewrite Hg', Hl, Hgeq, <- map_app. do 2 f_equal. apply take_slice.
  - simpl. rewrite (loadProjects_first count status data st g Hg Hall H0). simpl.
    by rewrite H0.
Qed.

Lemma run_advances (data : option (list project)) (calls : list call) (st : state) :
  let arr := reverse (default [] data) in
  Forall (fun c => delivers data c /\ is_reload c = false) calls ->
  is_Some (projectsGrid st) ->
  (allProjects st = arr /\ arr <> []
   /\ projectsGrid st = Some (map visibleCard (take (projectsLoaded st) arr))
   /\ projectsLoaded st <= length arr)
  \/ (allProjects st = [] /\ projectsLoaded st = 0) ->
  let st' := run calls st in
  projectsLoaded st'
  = Nat.min (projectsLoaded st + sum_list (map requested calls)) (length arr)
  /\ (calls <> [] ->
      allProjects st' = arr
      /\ projectsGrid st' = Some (map visibleCard (take (projectsLoaded st') arr))).
Proof.
  intros arr. subst arr. revert st.
  induction calls as [|c calls IH]; intros st Hcalls Hg Hst.
  - simpl. split; [|done]. rewrite Nat.add_0_r.
    destruct Hst as [(_ & _ & _ & Hle)|[_ ->]]; lia.
  - apply Forall_cons in Hcalls as [[Hc Hnot] Hcalls].
    destruct (delivers_response data c Hc) as [status Hresp].
    assert (Hstep : step c st
                    = loadProjects (requested c) (Http true status (JsonData data)) st).
    { destruct c; simpl in *; by subst. }
    destruct (loadProjects_advances (requested c) status data st Hg Hst)
      as (Ha & Hl & Hgrid).
    rewrite <- Hstep in Ha, Hl, Hgrid.
    rewrite projects_run_cons. set (st1 := state_of (step c st)) in *.
    destruct (IH st1 Hcalls) as [IHl IHrest].
    { rewrite Hgrid. by eexists. }
    { destruct (decide (reverse (default [] data) = [])) as [Hnil|Hne].
      - right. split; [by rewrite Ha|]. rewrite Hl, Hnil. simpl. lia.
      - left. repeat split; try done. rewrite Hl. lia. }
    split.
    + rewrite IHl, Hl. simpl. lia.
    + intros _. destruct calls as [|c' calls']; [by simpl|]. by apply IHrest.
Qed.
End ProjectsRuns.

Section GalleryRuns.
Import Gallery.

Lemma loadImages_first (count status : nat) (data : option (list imageData))
    (st : state) (g : list node) :
  galleryGrid st = Some g -> allImages st = [] -> imagesLoaded st = 0 ->
  let arr := default [] data in
  let shown := Nat.min count (length arr) in
  loadImages count (Http true status (JsonData data)) st
  = Normal {| imagesLoaded := shown;
              allImages := arr;
              galleryGrid := Some (g ++ map createGalleryItem (take shown arr));
              loadMoreBtn :=
                if bool_decide (length arr <= shown)
                then (fun _ => js "none") <$> loadMoreBtn st
                else loadMoreBtn st;
              fetches := S (fetches st) |}.
Proof.
  intros Hg Hall H0 arr shown. unfold loadImages, fetchAll.
  rewrite Hg, Hall. simpl. unfold renderNext, imagesToLoad. simpl. rewrite H0.
  fold arr. rewrite slice_from_start. fold shown.
  erewrite fold_renderImage by (simpl; exact Hg). simpl. rewrite H0.
  assert (Hlen : length (take shown arr) = shown)
    by (rewrite length_take; subst shown; lia).
  rewrite Hlen. simpl. by case_bool_decide.
Qed.

Lemma loadImages_advances (count status : nat) (data : option (list imageData))
    (st : state) (g0 : list node) :
  let arr := default [] data in
  galleryGrid st = Some (g0 ++ map createGalleryItem (take (imagesLoaded st) arr)) ->
  (allImages st = arr /\ arr <> [] /\ imagesLoaded st <= length arr)
  \/ (allImages st = [] /\ imagesLoaded st = 0) ->
  let st' := state_of (loadImages count (Http true status (JsonData data)) st) in
  allImages st' = arr
  /\ imagesLoaded st' = Nat.min (imagesLoaded st + count) (length arr)
  /\ galleryGrid st'
     = Some (g0 ++ map createGalleryItem (take (imagesLoaded st') arr)).
Proof.
  intros arr Hg [(Hall & Hne & Hle)|[Hall H0]].
  - destruct (loadImages_cases count (Http true status (JsonData data)) st)
      as [[Hno _]|[(g' & _ & _ & ->)|[(? & ? & ? & _ & Hnil & _)
         |(? & _ & Hnil & _)]]]; try congruence.
    destruct (renderNext_images count st _ Hg) as (st' & -> & Hl & Ha & Hg' & _).
    simpl. unfold imagesToLoad in Hl, Hg'. rewrite Hall in Hl, Hg', Ha.
    set (page := slice _ _ arr) in *.
    assert (Hlen : length page = Nat.min count (length arr - imagesLoaded st))
      by by apply slice_length.
    split; [done|]. split; [lia|].
    rewrite Hg', Hl, <- app_assoc, <- map_app. do 3 f_equal. apply take_slice.
  - simpl. rewrite H0 in Hg. simpl in Hg. rewrite app_nil_r in Hg.
    rewrite (loadImages_first count status data st g0 Hg Hall H0). simpl.
    by rewrite H0.
Qed.

Lemma gallery_run_advances (data : option (list imageData)) (calls : list call)
    (st : state) (g0 : list node) :
  Forall (fun c => delivers data c /\ is_reload c = false) calls ->
  galleryGrid st
  = Some (g0 ++ map createGalleryItem (take (imagesLoaded st) (default [] data))) ->
  (allImages st = default [] data /\ default [] data <> []
   /\ imagesLoaded st <= length (default [] data))
  \/ (allImages st = [] /\ imagesLoaded st = 0) ->
  let st' := run calls st in
  imagesLoaded st'
  = Nat.min (imagesLoaded st + sum_list (map requested calls))
      (length (default [] data))
  /\ galleryGrid st'
     = Some (g0 ++ map createGalleryItem (take (imagesLoaded st') (default [] data)))
  /\ (calls <> [] -> allImages st' = default [] data).
Proof.
  revert st. induction calls as [|c calls IH]; intros st Hcalls Hg Hst.
  - simpl. split; [|done]. rewrite Nat.add_0_r.
    destruct Hst as [(_ & _ & Hle)|[_ ->]]; lia.
  - apply Forall_cons in Hcalls as [[Hc Hnot] Hcalls].
    destruct (gallery_delivers_response data c Hc) as [status Hresp].
    assert (Hstep : step c st
                    = loadImages (requested c) (Http true status (JsonData data)) st).
    { destruct c; simpl in *; by subst. }
    destruct (loadImages_advances (requested c) status data st g0 Hg Hst)
      as (Ha & Hl & Hgrid).
    rewrite <- Hstep in Ha, Hl, Hgrid.
    rewrite gallery_run_cons. set (st1 := state_of (step c st)) in *.
    destruct (IH st1 Hcalls Hgrid) as (IHl & IHg & IHrest).
    { destruct (decide (default [] data = [])) as [Hnil|Hne].
      - right. split; [by rewrite Ha|]. rewrite Hl, Hnil. simpl. lia.
      - left. repeat split; try done. rewrite Hl. lia. }
    split; [rewrite IHl, Hl; simpl; lia|]. split; [done|].
    intros _. destruct calls as [|c' calls']; [by simpl|]. by apply IHrest.
Qed.
End GalleryRuns.

(** X10.  Loading in pages.  On a fresh page with a grid, when load and
    load-more calls are made one after the other, each answered before
    the next is made, and all succeed with the same document of [n]
    records, the number of records loaded is the sum of the requested
    counts (6 for each load-more), capped at [n]; the projects grid
    then holds exactly the cards of the first so many records in
    reverse document order (newest first), and the gallery grid holds
    what the markup had put there, followed by the items of the first
    so many records in document order.  When a second call is made
    before the first is answered, both fetch and the count still adds
    up, but the projects grid holds the cards of the second call only,
    while the gallery grid holds the items of both. *)
Theorem pages_add_up :
  (forall (data : option (list Projects.project)) (c : Projects.call)
          (calls : list Projects.call) (g : list node) (btn : option jsstring),
     Forall (fun c => Projects.delivers data c /\ Projects.is_reload c = false)
       (c :: calls) ->
     let arr := reverse (default [] data) in
     let l := Projects.play (Projects.one_by_one (c :: calls))
                (Projects.idle (Projects.fresh (Some g) btn)) in
     let st := Projects.current l in
     let shown :=
       Nat.min (sum_list (map Projects.requested (c :: calls))) (length arr) in
     Projects.waiting l = []
     /\ Projects.projectsLoaded st = shown
     /\ Projects.allProjects st = arr
     /\ Projects.projectsGrid st = Some (map Projects.visibleCard (take shown arr)))
  /\ (forall (data : option (list Gallery.imageData)) (c : Gallery.call)
             (calls : list Gallery.call) (g : list node) (btn : option jsstring),
        Forall (fun c => Gallery.delivers data c /\ Gallery.is_reload c = false)
          (c :: calls) ->
        let arr := default [] data in
        let l := Gallery.play (Gallery.one_by_one (c :: calls))
                   (Gallery.idle (Gallery.fresh (Some g) btn)) in
        let st := Gallery.current l in
        let shown :=
          Nat.min (sum_list (map Gallery.requested (c :: calls))) (length arr) in
        Gallery.waiting l = []
        /\ Gallery.imagesLoaded st = shown
        /\ Gallery.allImages st = arr
        /\ Gallery.galleryGrid st
           = Some (g ++ map Gallery.createGalleryItem (take shown arr)))
  /\ (forall (data : option (list Projects.project)) (count1 count2 status : nat)
             (g : list node) (btn : option jsstring),
        let arr := reverse (default [] data) in
        let ok := Projects.Http true status (Projects.JsonData data) in
        let l := Projects.play
                   [Projects.Invoked count1; Projects.Invoked count2;
                    Projects.Responded 0 ok; Projects.Responded 0 ok]
                   (Projects.idle (Projects.fresh (Some g) btn)) in
        let st := Projects.current l in
        let first := Nat.min count1 (length arr) in
        let shown := Nat.min (count1 + count2) (length arr) in
        Projects.waiting l = []
        /\ Projects.fetches st = 2
        /\ Projects.projectsLoaded st = shown
        /\ Projects.projectsGrid st
           = Some (map Projects.visibleCard (drop first (take shown arr))))
  /\ (forall (data : option (list Gallery.imageData)) (count1 count2 status : nat)
             (g : list node) (btn : option jsstring),
        let arr := default [] data in
        let ok := Gallery.Http true status (Gallery.JsonData data) in
        let l := Gallery.play
                   [Gallery.Invoked count1; Gallery.Invoked count2;
                    Gallery.Responded 0 ok; Gallery.Responded 0 ok]
                   (Gallery.idle (Gallery.fresh (Some g) btn)) in
        let st := Gallery.current l in
        let shown := Nat.min (count1 + count2) (length arr) in
        Gallery.waiting l = []
        /\ Gallery.fetches st = 2
        /\ Gallery.imagesLoaded st = shown
        /\ Gallery.galleryGrid st
           = Some (g ++ map Gallery.createGalleryItem (take shown arr))).
Proof.
  split; [|split; [|split]].
  - intros data c calls g btn Hcalls arr l st shown. subst st l.
    rewrite one_by_one_run. cbn [Projects.current Projects.waiting Projects.idle].
    destruct (run_advances data (c :: calls) (Projects.fresh (Some g) btn) Hcalls)
      as [Hl Hrest]; [by eexists | by right |].
    destruct Hrest as [Ha Hg]; [done|].
    split; [done|]. split; [exact Hl|]. split; [exact Ha|].
    rewrite Hl in Hg. exact Hg.
  - intros data c calls g btn Hcalls arr l st shown. subst st l.
    rewrite gallery_one_by_one_run.
    cbn [Gallery.current Gallery.waiting Gallery.idle].
    destruct (gallery_run_advances data (c :: calls) (Gallery.fresh (Some g) btn) g
                Hcalls) as (Hl & Hg & Ha).
    { simpl. by rewrite app_nil_r. }
    { by right. }
    split; [done|]. split; [exact Hl|]. split; [by apply Ha|].
    rewrite Hl in Hg. exact Hg.
  - intros data count1 count2 status g btn arr ok l st first shown.
    subst st l. unfold Projects.play. cbn [fold_left].
    set (l2 := Projects.react (Projects.Invoked count2)
                 (Projects.react (Projects.Invoked count1)
                    (Projects.idle (Projects.fresh (Some g) btn)))).
    assert (H2 : Projects.waiting l2 = [count1; count2]
                 /\ Projects.projectsLoaded (Projects.current l2) = 0
                 /\ Projects.fetches (Projects.current l2) = 2) by done.
    destruct H2 as (Hw2 & Hl2 & Hf2).
    destruct (responded_renders 0 count1 status data l2) as (Ha3 & Hg3 & Hl3 & Hw3 & _);
      [by rewrite Hw2|].
    fold ok in Ha3, Hg3, Hl3, Hw3.
    set (l3 := Projects.react (Projects.Responded 0 ok) l2) in *.
    assert (Hf3 : Projects.fetches (Projects.current l3) = 2).
    { subst l3. cbn [Projects.react]. rewrite Hw2. cbn [lookup list_lookup].
      unfold Projects.loadProjects_after_fetch, ok. cbn [Projects.fetched negb bind].
      match goal with |- context [Projects.renderNext count1 ?s] =>
        destruct (renderNext_spec count1 s [] eq_refl)
          as (st' & -> & _ & _ & _ & Hf & _) end.
      cbn [try_catch state_of Projects.current]. by rewrite Hf. }
    rewrite Hw2 in Hw3. cbn [delete list_delete] in Hw3.
    rewrite Hl2 in Hl3, Hg3.
    rewrite slice_from_start in Hl3, Hg3. fold arr in Hl3, Hg3, Ha3.
    rewrite length_take in Hl3.
    destruct (responded_renders 0 count2 status data l3) as (Ha4 & Hg4 & Hl4 & Hw4 & _);
      [by rewrite Hw3|].
    fold ok arr in Ha4, Hg4, Hl4, Hw4.
    set (l4 := Projects.react (Projects.Responded 0 ok) l3) in *.
    assert (Hf4 : Projects.fetches (Projects.current l4) = 2).
    { subst l4. cbn [Projects.react]. rewrite Hw3. cbn [lookup list_lookup].
      unfold Projects.loadProjects_after_fetch, ok. cbn [Projects.fetched negb bind].
      match goal with |- context [Projects.renderNext count2 ?s] =>
        destruct (renderNext_spec count2 s [] eq_refl)
          as (st' & -> & _ & _ & _ & Hf & _) end.
      cbn [try_catch state_of Projects.current]. by rewrite Hf. }
    rewrite Hw3 in Hw4. cbn [delete list_delete] in Hw4.
    assert (Hfirst : Projects.projectsLoaded (Projects.current l3) = first)
      by (rewrite Hl3; subst first; lia).
    rewrite Hfirst in Hl4, Hg4.
    assert (Hpage : slice first (Nat.min (first + count2) (length arr)) arr
                    = drop first (take shown arr)).
    { unfold slice. rewrite take_drop_commute. do 2 f_equal. subst first shown. lia. }
    rewrite Hpage in Hl4, Hg4.
    split; [exact Hw4|]. split; [exact Hf4|]. split; [|exact Hg4].
    rewrite Hl4, length_drop, length_take. subst first shown. lia.
  - intros data count1 count2 status g btn arr ok l st shown.
    subst st l. unfold Gallery.play. cbn [fold_left].
    set (l2 := Gallery.react (Gallery.Invoked count2)
                 (Gallery.react (Gallery.Invoked count1)
                    (Gallery.idle (Gallery.fresh (Some g) btn)))).
    assert (H2 : Gallery.waiting l2 = [count1; count2]
                 /\ Gallery.imagesLoaded (Gallery.current l2) = 0
                 /\ Gallery.fetches (Gallery.current l2) = 2
                 /\ Gallery.galleryGrid (Gallery.current l2) = Some g) by done.
    destruct H2 as (Hw2 & Hl2 & Hf2 & Hgrid2).
    destruct (gallery_responded_renders 0 count1 status data l2 g Hgrid2)
      as (Ha3 & Hg3 & Hl3 & Hw3 & _); [by rewrite Hw2|].
    fold ok in Ha3, Hg3, Hl3, Hw3.
    set (l3 := Gallery.react (Gallery.Responded 0 ok) l2) in *.
    assert (Hf3 : Gallery.fetches (Gallery.current l3) = 2).
    { subst l3. cbn [Gallery.react]. rewrite Hw2. cbn [lookup list_lookup].
      unfold Gallery.loadImages_after_fetch, ok. cbn [Gallery.fetched negb bind].
      match goal with |- context [Gallery.renderNext count1 ?s] =>
        destruct (renderNext_images count1 s g Hgrid2)
          as (st' & -> & _ & _ & _ & Hf & _) end.
      cbn [try_catch state_of Gallery.current]. by rewrite Hf. }
    rewrite Hw2 in Hw3. cbn [delete list_delete] in Hw3.
    rewrite Hl2 in Hl3, Hg3.
    rewrite slice_from_start in Hl3, Hg3. fold arr in Hl3, Hg3, Ha3.
    rewrite length_take in Hl3.
    set (first := Nat.min count1 (length arr)) in *.
    destruct (gallery_responded_renders 0 count2 status data l3 _ Hg3)
      as (Ha4 & Hg4 & Hl4 & Hw4 & _); [by rewrite Hw3|].
    fold ok arr in Ha4, Hg4, Hl4, Hw4.
    set (l4 := Gallery.react (Gallery.Responded 0 ok) l3) in *.
    assert (Hf4 : Gallery.fetches (Gallery.current l4) = 2).
    { subst l4. cbn [Gallery.react]. rewrite Hw3. cbn [lookup list_lookup].
      unfold Gallery.loadImages_after_fetch, ok. cbn [Gallery.fetched negb bind].
      match goal with |- context [Gallery.renderNext count2 ?s] =>
        destruct (renderNext_images count2 s _ Hg3)
          as (st' & -> & _ & _ & _ & Hf & _) end.
      cbn [try_catch state_of Gallery.current]. by rewrite Hf. }
    rewrite Hw3 in Hw4. cbn [delete list_delete] in Hw4.
    assert (Hfirst : Gallery.imagesLoaded (Gallery.current l3) = first)
      by (rewrite Hl3; lia).
    rewrite Hfirst in Hl4, Hg4.
    assert (Hpage : take first arr
                    ++ slice first (Nat.min (first + count2) (length arr)) arr
                    = take shown arr).
    { rewrite (take_slice first count2 arr). f_equal.
      rewrite slice_length by (subst first; lia). subst first shown. lia. }
    split; [exact Hw4|]. split; [exact Hf4|]. split.
    + rewrite Hl4, slice_length by (subst first; lia). subst first shown. lia.
    + rewrite Hg4, <- (assoc_L (++)), <- map_app, Hpage. done.
Qed.

Lemma pages_add_up_witness :
  let recs := map Projects.sample (seq 0 13) in
  let l := Projects.play
             (Projects.one_by_one
                [Projects.LoadMore (Projects.ok_with recs);
                 Projects.Load 4 (Projects.ok_with recs)])
             (Projects.idle (Projects.fresh (Some []) None)) in
  Projects.projectsLoaded (Projects.current l) = 10
  /\ Projects.projectsGrid (Projects.current l)
     = Some (map Projects.visibleCard (take 10 (reverse recs))).
Proof.
  intros recs l.
  destruct (proj1 pages_add_up (Some recs)
              (Projects.LoadMore (Projects.ok_with recs))
              [Projects.Load 4 (Projects.ok_with recs)] [] None)
    as (_ & Hl & _ & Hg).
  - repeat constructor.
  - split; [exact Hl | exact Hg].
Defined.

(** ** Loaders: the control, a missing grid, retries, reloads *)

Section ProjectsEdges.
Import Projects.

Lemma loadProjects_button (count : nat) (resp : response) (st : state) :
  let st' := state_of (loadProjects count resp st) in
  loadMoreBtn st' = loadMoreBtn st
  \/ loadMoreBtn st' = (fun _ => js "none") <$> loadMoreBtn st.
Proof.
  destruct (loadProjects_cases count resp st)
    as [[_ ->]|[(g & Hg & _ & ->)|[(g & status & d & Hg & _ & _ & ->)
       |(g & _ & _ & _ & ->)]]]; [by left | | | by left].
  - destruct (renderNext_spec count st g Hg) as (st' & -> & _ & _ & _ & _ & Hb).
    simpl. rewrite Hb. case_bool_decide; auto.
  - match goal with |- context [renderNext count ?s] =>
      destruct (renderNext_spec count s [] eq_refl)
        as (st' & -> & _ & _ & _ & _ & Hb) end.
    simpl in *. rewrite Hb. case_bool_decide; auto.
Qed.

Lemma step_button (c : call) (st : state) :
  let st' := state_of (step c st) in
  loadMoreBtn st' = loadMoreBtn st
  \/ loadMoreBtn st' = (fun _ => js "none") <$> loadMoreBtn st.
Proof.
  destruct c as [count resp|resp|resp]; simpl; try apply loadProjects_button.
  unfold reload. simpl. destruct (projectsGrid st); simpl; [|by left].
  match goal with |- context [loadProjects ?n ?r ?s] =>
    apply (loadProjects_button n r s) end.
Qed.

Lemma run_button (calls : list call) (st : state) :
  let st' := run calls st in
  loadMoreBtn st' = loadMoreBtn st
  \/ loadMoreBtn st' = (fun _ => js "none") <$> loadMoreBtn st.
Proof.
  revert st. induction calls as [|c calls IH]; intros st; [by left|].
  rewrite projects_run_cons. simpl.
  destruct (IH (state_of (step c st))) as [-> | ->];
    destruct (step_button c st) as [-> | ->]; auto.
  right. by destruct (loadMoreBtn st).
Qed.

Lemma run_without_grid (calls : list call) (st : state) :
  projectsGrid st = None ->
  Forall (fun c => is_reload c = false) calls ->
  run calls st = st.
Proof.
  intros Hg. induction calls as [|c calls IH]; intros Hcalls; [done|].
  apply Forall_cons in Hcalls as [Hc Hcalls]. rewrite projects_run_cons.
  assert (Hstep : state_of (step c st) = st).
  { destruct c as [count resp|resp|resp]; simpl in *; try done;
      unfold loadProjects; by rewrite Hg. }
  rewrite Hstep. by apply IH.
Qed.

(** After any number of failed fetches nothing is in memory, and the
    grid holds the retry block (or still its first content, if there
    was no call). *)
Lemma run_failures (fails : list response) (st : state) (g : list node) :
  projectsGrid st = Some g -> allProjects st = [] -> projectsLoaded st = 0 ->
  Forall (fun r => fetch_fails r = true) fails ->
  let st' := run (map LoadMore fails) st in
  projectsGrid st' = Some (match fails with [] => g | _ => [errorMessage] end)
  /\ allProjects st' = [] /\ projectsLoaded st' = 0
  /\ loadMoreBtn st' = loadMoreBtn st
  /\ fetches st' = fetches st + length fails.
Proof.
  revert st g. induction fails as [|r fails IH]; intros st g Hg Hall H0 Hfails.
  - simpl. repeat split; try done; lia.
  - apply Forall_cons in Hfails as [Hr Hfails].
    cbn [map]. rewrite projects_run_cons. cbn [step].
    rewrite (loadProjects_failed projectsPerLoad r st g Hg Hall Hr). cbn [state_of].
    match goal with |- context [run _ ?s] =>
      destruct (IH s [errorMessage]) as (IHg & IHa & IHl & IHb & IHf);
        try done end.
    repeat split; try done.
    + rewrite IHg. by destruct fails.
    + rewrite IHf. simpl. lia.
Qed.
End ProjectsEdges.

Section GalleryEdges.
Import Gallery.

Lemma loadImages_button (count : nat) (resp : response) (st : state) :
  let st' := state_of (loadImages count resp st) in
  loadMoreBtn st' = loadMoreBtn st
  \/ loadMoreBtn st' = (fun _ => js "none") <$> loadMoreBtn st.
Proof.
  destruct (loadImages_cases count resp st)
    as [[_ ->]|[(g & Hg & _ & ->)|[(g & status & d & Hg & _ & _ & ->)
       |(g & _ & _ & _ & ->)]]]; [by left | | | by left].
  - destruct (renderNext_images count st g Hg) as (st' & -> & _ & _ & _ & _ & Hb).
    simpl. rewrite Hb. case_bool_decide; auto.
  - match goal with |- context [renderNext count ?s] =>
      destruct (renderNext_images count s g Hg)
        as (st' & -> & _ & _ & _ & _ & Hb) end.
    simpl in *. rewrite Hb. case_bool_decide; auto.
Qed.

Lemma gallery_step_button (c : call) (st : state) :
  let st' := state_of (step c st) in
  loadMoreBtn st' = loadMoreBtn st
  \/ loadMoreBtn st' = (fun _ => js "none") <$> loadMoreBtn st.
Proof.
  destruct c as [count resp|resp|resp]; simpl; try apply loadImages_button.
  unfold reload. simpl. destruct (galleryGrid st); simpl; [|by left].
  match goal with |- context [loadImages ?n ?r ?s] =>
    apply (loadImages_button n r s) end.
Qed.

Lemma gallery_run_button (calls : list call) (st : state) :
  let st' := run calls st in
  loadMoreBtn st' = loadMoreBtn st
  \/ loadMoreBtn st' = (fun _ => js "none") <$> loadMoreBtn st.
Proof.
  revert st. induction calls as [|c calls IH]; intros st; [by left|].
  rewrite gallery_run_cons. simpl.
  destruct (IH (state_of (step c st))) as [-> | ->];
    destruct (gallery_step_button c st) as [-> | ->]; auto.
  right. by destruct (loadMoreBtn st).
Qed.

Lemma gallery_run_without_grid (calls : list call) (st : state) :
  galleryGrid st = None ->
  Forall (fun c => is_reload c = false) calls ->
  run calls st = st.
Proof.
  intros Hg. induction calls as [|c calls IH]; intros Hcalls; [done|].
  apply Forall_cons in Hcalls as [Hc Hcalls]. rewrite gallery_run_cons.
  assert (Hstep : state_of (step c st) = st).
  { destruct c as [count resp|resp|resp]; simpl in *; try done;
      unfold loadImages; by rewrite Hg. }
  rewrite Hstep. by apply IH.
Qed.

Lemma gallery_run_failures (fails : list response) (st : state) (g : list node) :
  galleryGrid st = Some g -> allImages st = [] -> imagesLoaded st = 0 ->
  Forall (fun r => fetch_fails r = true) fails ->
  let st' := run (map LoadMore fails) st in
  galleryGrid st' = Some (match fails with [] => g | _ => [errorMessage] end)
  /\ allImages st' = [] /\ imagesLoaded st' = 0
  /\ loadMoreBtn st' = loadMoreBtn st
  /\ fetches st' = fetches st + length fails.
Proof.
  revert st g. induction fails as [|r fails IH]; intros st g Hg Hall H0 Hfails.
  - simpl. repeat split; try done; lia.
  - apply Forall_cons in Hfails as [Hr Hfails].
    cbn [map]. rewrite gallery_run_cons. cbn [step].
    rewrite (loadImages_failed imagesPerLoad r st g Hg Hall Hr). cbn [state_of].
    match goal with |- context [run _ ?s] =>
      destruct (IH s [errorMessage]) as (IHg & IHa & IHl & IHb & IHf);
        try done end.
    repeat split; try done.
    + rewrite IHg. by destruct fails.
    + rewrite IHf. simpl. lia.
Qed.
End GalleryEdges.

(** X11.  The loaders only ever hide the "load more" control.  Through
    any run of load, load-more and reload calls, with any responses, a
    hidden control stays hidden, an absent control stays absent, and a
    control's display is either what it was or ['none']. *)
Theorem control_only_hidden :
  (forall (calls : list Projects.call) (st : Projects.state),
     let st' := Projects.run calls st in
     (Projects.hidden st -> Projects.hidden st')
     /\ (Projects.loadMoreBtn st = None -> Projects.loadMoreBtn st' = None)
     /\ (Projects.loadMoreBtn st' = Projects.loadMoreBtn st \/ Projects.hidden st'))
  /\ (forall (calls : list Gallery.call) (st : Gallery.state),
        let st' := Gallery.run calls st in
        (Gallery.hidden st -> Gallery.hidden st')
        /\ (Gallery.loadMoreBtn st = None -> Gallery.loadMoreBtn st' = None)
        /\ (Gallery.loadMoreBtn st' = Gallery.loadMoreBtn st \/ Gallery.hidden st')).
Proof.
  split.
  - intros calls st st'. unfold Projects.hidden.
    destruct (run_button calls st) as [H|H]; fold st' in H; rewrite H;
      destruct (Projects.loadMoreBtn st); simpl; repeat split; auto; try done.
  - intros calls st st'. unfold Gallery.hidden.
    destruct (gallery_run_button calls st) as [H|H]; fold st' in H; rewrite H;
      destruct (Gallery.loadMoreBtn st); simpl; repeat split; auto; try done.
Qed.

Lemma control_only_hidden_witness :
  let recs := map Projects.sample (seq 0 3) in
  let st := Projects.run [Projects.LoadMore (Projects.ok_with recs)]
              (Projects.fresh (Some []) (Some [])) in
  Projects.hidden
    (Projects.run [Projects.Reload Projects.NetworkError;
                   Projects.LoadMore (Projects.ok_with (recs ++ recs ++ recs))] st).
Proof.
  intros recs st.
  apply (proj1 (proj1 control_only_hidden
                  [Projects.Reload Projects.NetworkError;
                   Projects.LoadMore (Projects.ok_with (recs ++ recs ++ recs))] st)).
  reflexivity.
Defined.

(** X12.  Without the grid element the loaders do nothing: load and
    load-more calls leave the state as it is, so nothing is fetched,
    and [reload] resets the counters and then throws a [TypeError] that
    nothing catches. *)
Theorem no_grid_no_load :
  (forall (calls : list Projects.call) (st : Projects.state) (resp : Projects.response),
     Projects.projectsGrid st = None ->
     Forall (fun c => Projects.is_reload c = false) calls ->
     Projects.run calls st = st
     /\ Projects.reload resp st
        = Thrown TypeError (Projects.set_all [] (Projects.set_loaded 0 st)))
  /\ (forall (calls : list Gallery.call) (st : Gallery.state) (resp : Gallery.response),
        Gallery.galleryGrid st = None ->
        Forall (fun c => Gallery.is_reload c = false) calls ->
        Gallery.run calls st = st
        /\ Gallery.reload resp st
           = Thrown TypeError (Gallery.set_all [] (Gallery.set_loaded 0 st))).
Proof.
  split.
  - intros calls st resp Hg Hcalls. split; [by apply run_without_grid|].
    unfold Projects.reload. simpl. by rewrite Hg.
  - intros calls st resp Hg Hcalls. split; [by apply gallery_run_without_grid|].
    unfold Gallery.reload. simpl. by rewrite Hg.
Qed.

Lemma no_grid_no_load_witness :
  let recs := map Projects.sample (seq 0 3) in
  Projects.fetches
    (Projects.run [Projects.LoadMore (Projects.ok_with recs);
                   Projects.Load 2 Projects.NetworkError]
       (Projects.fresh None (Some []))) = 0.
Proof.
  intros recs.
  rewrite (proj1 (proj1 no_grid_no_load
                    [Projects.LoadMore (Projects.ok_with recs);
                     Projects.Load 2 Projects.NetworkError]
                    (Projects.fresh None (Some [])) Projects.NetworkError
                    eq_refl ltac:(repeat constructor))).
  reflexivity.
Defined.

Lemma projects_run_app (calls1 calls2 : list Projects.call) (st : Projects.state) :
  Projects.run (calls1 ++ calls2) st = Projects.run calls2 (Projects.run calls1 st).
Proof. unfold Projects.run. apply fold_left_app. Qed.

Lemma gallery_run_app (calls1 calls2 : list Gallery.call) (st : Gallery.state) :
  Gallery.run (calls1 ++ calls2) st = Gallery.run calls2 (Gallery.run calls1 st).
Proof. unfold Gallery.run. apply fold_left_app. Qed.

(** X13.  Retrying after failures.  However many fetches failed before,
    the first call whose fetch succeeds shows the first page and has
    cost one fetch per call.  In the projects grid the retry block is
    gone: the grid holds the cards and nothing else.  In the gallery
    grid the retry block stays, in front of the items. *)
Theorem retry_after_failures :
  (forall (fails : list Projects.response) (count status : nat)
          (data : option (list Projects.project)) (g : list node)
          (btn : option jsstring),
     Forall (fun r => Projects.fetch_fails r = true) fails ->
     let arr := reverse (default [] data) in
     let shown := Nat.min count (length arr) in
     let st :=
       Projects.run
         (map Projects.LoadMore fails
          ++ [Projects.Load count (Projects.Http true status (Projects.JsonData data))])
         (Projects.fresh (Some g) btn) in
     Projects.projectsGrid st = Some (map Projects.visibleCard (take shown arr))
     /\ Projects.projectsLoaded st = shown
     /\ Projects.allProjects st = arr
     /\ Projects.fetches st = S (length fails))
  /\ (forall (r : Gallery.response) (fails : list Gallery.response)
             (count status : nat)
             (data : option (list Gallery.imageData)) (g : list node)
             (btn : option jsstring),
        Forall (fun r => Gallery.fetch_fails r = true) (r :: fails) ->
        let arr := default [] data in
        let shown := Nat.min count (length arr) in
        let st :=
          Gallery.run
            (map Gallery.LoadMore (r :: fails)
             ++ [Gallery.Load count (Gallery.Http true status (Gallery.JsonData data))])
            (Gallery.fresh (Some g) btn) in
        Gallery.galleryGrid st
        = Some (Gallery.errorMessage
                  :: map Gallery.createGalleryItem (take shown arr))
        /\ Gallery.imagesLoaded st = shown
        /\ Gallery.allImages st = arr
        /\ Gallery.fetches st = S (S (length fails))).
Proof.
  split.
  - intros fails count status data g btn Hfails arr shown st. subst st.
    rewrite projects_run_app.
    destruct (run_failures fails (Projects.fresh (Some g) btn) g)
      as (Hg & Ha & Hl & _ & Hf); try done.
    set (st1 := Projects.run (map Projects.LoadMore fails) _) in *.
    rewrite projects_run_cons. cbn [Projects.run fold_left Projects.step].
    rewrite (loadProjects_first count status data st1 _ Hg Ha Hl). simpl.
    repeat split; try done. by rewrite Hf.
  - intros r fails count status data g btn Hfails arr shown st. subst st.
    rewrite gallery_run_app.
    destruct (gallery_run_failures (r :: fails) (Gallery.fresh (Some g) btn) g)
      as (Hg & Ha & Hl & _ & Hf); try done.
    set (st1 := Gallery.run (map Gallery.LoadMore (r :: fails)) _) in *.
    rewrite gallery_run_cons. cbn [Gallery.run fold_left Gallery.step].
    rewrite (loadImages_first count status data st1 _ Hg Ha Hl). simpl.
    repeat split; try done. rewrite Hf. simpl. lia.
Qed.

Lemma retry_after_failures_witness :
  let recs := map Gallery.sample (seq 0 3) in
  let st :=
    Gallery.run
      [Gallery.LoadMore Gallery.NetworkError;
       Gallery.Load 6 (Gallery.Http true 200 (Gallery.JsonData (Some recs)))]
      (Gallery.fresh (Some []) (Some [])) in
  Gallery.galleryGrid st
  = Some (Gallery.errorMessage :: map Gallery.createGalleryItem recs).
Proof.
  intros recs st.
  destruct (proj2 retry_after_failures Gallery.NetworkError [] 6 200 (Some recs)
              [] (Some [])) as (Hg & _).
  - by repeat constructor.
  - exact Hg.
Defined.

Lemma reload_first_page (st : Projects.state) (g : list node) (status : nat)
    (data : option (list Projects.project)) (resp : Projects.response) :
  Projects.projectsGrid st = Some g ->
  let arr := reverse (default [] data) in
  let shown := Nat.min Projects.projectsPerLoad (length arr) in
  Projects.reload (Projects.Http true status (Projects.JsonData data)) st
  = Normal {| Projects.projectsLoaded := shown;
              Projects.allProjects := arr;
              Projects.projectsGrid :=
                Some (map Projects.visibleCard (take shown arr));
              Projects.loadMoreBtn :=
                if bool_decide (length arr <= shown)
                then (fun _ => js "none") <$> Projects.loadMoreBtn st
                else Projects.loadMoreBtn st;
              Projects.fetches := S (Projects.fetches st) |}
  /\ (Projects.fetch_fails resp = true ->
      Projects.reload resp st
      = Normal {| Projects.projectsLoaded := 0;
                  Projects.allProjects := [];
                  Projects.projectsGrid := Some [Projects.errorMessage];
                  Projects.loadMoreBtn := Projects.loadMoreBtn st;
                  Projects.fetches := S (Projects.fetches st) |}).
Proof.
  intros Hg arr shown. unfold Projects.reload. simpl. rewrite Hg. split.
  - by rewrite (loadProjects_first Projects.projectsPerLoad status data _ []).
  - intros Hf.
    by rewrite (loadProjects_failed Projects.projectsPerLoad resp _ []).
Qed.

Lemma gallery_reload_first_page (st : Gallery.state) (g : list node)
    (status : nat) (data : option (list Gallery.imageData))
    (resp : Gallery.response) :
  Gallery.galleryGrid st = Some g ->
  let arr := default [] data in
  let shown := Nat.min Gallery.imagesPerLoad (length arr) in
  Gallery.reload (Gallery.Http true status (Gallery.JsonData data)) st
  = Normal {| Gallery.imagesLoaded := shown;
              Gallery.allImages := arr;
              Gallery.galleryGrid :=
                Some (map Gallery.createGalleryItem (take shown arr));
              Gallery.loadMoreBtn :=
                if bool_decide (length arr <= shown)
                then (fun _ => js "none") <$> Gallery.loadMoreBtn st
                else Gallery.loadMoreBtn st;
              Gallery.fetches := S (Gallery.fetches st) |}
  /\ (Gallery.fetch_fails resp = true ->
      Gallery.reload resp st
      = Normal {| Gallery.imagesLoaded := 0;
                  Gallery.allImages := [];
                  Gallery.galleryGrid := Some [Gallery.errorMessage];
                  Gallery.loadMoreBtn := Gallery.loadMoreBtn st;
                  Gallery.fetches := S (Gallery.fetches st) |}).
Proof.
  intros Hg arr shown. unfold Gallery.reload. simpl. rewrite Hg. split.
  - by rewrite (loadImages_first Gallery.imagesPerLoad status data _ []).
  - intros Hf.
    by rewrite (loadImages_failed Gallery.imagesPerLoad resp _ []).
Qed.

(** X14.  [reload] starts over, but neither waits for a call nor
    cancels one.  On a page with a grid the reload itself resets the
    count and the array, empties the grid (the projects loader then
    shows its loading message), issues a fetch and leaves its own load
    waiting behind the calls that waited already.  If no call waits
    when the reload is made and the response comes before anything
    else, a successful fetch shows exactly the first six records of the
    newly fetched document, hiding the control if that is everything
    and leaving it as it was otherwise, and a failed fetch leaves only
    the retry block, with nothing loaded and nothing in memory. *)
Theorem reload_starts_over :
  (forall (l : Projects.loader) (g : list node) (status : nat)
          (data : option (list Projects.project)) (resp : Projects.response),
     Projects.projectsGrid (Projects.current l) = Some g ->
     let st := Projects.current l in
     let arr := reverse (default [] data) in
     let shown := Nat.min Projects.projectsPerLoad (length arr) in
     Projects.react Projects.ReloadInvoked l
     = {| Projects.current :=
            {| Projects.projectsLoaded := 0;
               Projects.allProjects := [];
               Projects.projectsGrid := Some [Projects.loadingMessage];
               Projects.loadMoreBtn := Projects.loadMoreBtn st;
               Projects.fetches := S (Projects.fetches st) |};
          Projects.waiting := Projects.waiting l ++ [Projects.projectsPerLoad] |}
     /\ (Projects.waiting l = [] ->
         Projects.play
           [Projects.ReloadInvoked;
            Projects.Responded 0 (Projects.Http true status (Projects.JsonData data))]
           l
         = Projects.idle
             {| Projects.projectsLoaded := shown;
                Projects.allProjects := arr;
                Projects.projectsGrid :=
                  Some (map Projects.visibleCard (take shown arr));
                Projects.loadMoreBtn :=
                  if bool_decide (length arr <= shown)
                  then (fun _ => js "none") <$> Projects.loadMoreBtn st
                  else Projects.loadMoreBtn st;
                Projects.fetches := S (Projects.fetches st) |}
         /\ (Projects.fetch_fails resp = true ->
             Projects.play [Projects.ReloadInvoked; Projects.Responded 0 resp] l
             = Projects.idle
                 {| Projects.projectsLoaded := 0;
                    Projects.allProjects := [];
                    Projects.projectsGrid := Some [Projects.errorMessage];
                    Projects.loadMoreBtn := Projects.loadMoreBtn st;
                    Projects.fetches := S (Projects.fetches st) |})))
  /\ (forall (l : Gallery.loader) (g : list node) (status : nat)
             (data : option (list Gallery.imageData)) (resp : Gallery.response),
        Gallery.galleryGrid (Gallery.current l) = Some g ->
        let st := Gallery.current l in
        let arr := default [] data in
        let shown := Nat.min Gallery.imagesPerLoad (length arr) in
        Gallery.react Gallery.ReloadInvoked l
        = {| Gallery.current :=
               {| Gallery.imagesLoaded := 0;
                  Gallery.allImages := [];
                  Gallery.galleryGrid := Some [];
                  Gallery.loadMoreBtn := Gallery.loadMoreBtn st;
                  Gallery.fetches := S (Gallery.fetches st) |};
             Gallery.waiting := Gallery.waiting l ++ [Gallery.imagesPerLoad] |}
        /\ (Gallery.waiting l = [] ->
            Gallery.play
              [Gallery.ReloadInvoked;
               Gallery.Responded 0 (Gallery.Http true status (Gallery.JsonData data))]
              l
            = Gallery.idle
                {| Gallery.imagesLoaded := shown;
                   Gallery.allImages := arr;
                   Gallery.galleryGrid :=
                     Some (map Gallery.createGalleryItem (take shown arr));
                   Gallery.loadMoreBtn :=
                     if bool_decide (length arr <= shown)
                     then (fun _ => js "none") <$> Gallery.loadMoreBtn st
                     else Gallery.loadMoreBtn st;
                   Gallery.fetches := S (Gallery.fetches st) |}
            /\ (Gallery.fetch_fails resp = true ->
                Gallery.play [Gallery.ReloadInvoked; Gallery.Responded 0 resp] l
                = Gallery.idle
                    {| Gallery.imagesLoaded := 0;
                       Gallery.allImages := [];
                       Gallery.galleryGrid := Some [Gallery.errorMessage];
                       Gallery.loadMoreBtn := Gallery.loadMoreBtn st;
                       Gallery.fetches := S (Gallery.fetches st) |}))).
Proof.
  split.
  - intros [st w] g status data resp Hg st0 arr shown. subst st0.
    cbn [Projects.current Projects.waiting] in *. split.
    + cbn [Projects.react]. simpl. by rewrite Hg.
    + intros ->. change {| Projects.current := st; Projects.waiting := [] |}
        with (Projects.idle st).
      rewrite !one_reload.
      destruct (reload_first_page st g status data resp Hg) as [Hok Hfail].
      split; [by rewrite Hok|]. intros Hf. by rewrite Hfail.
  - intros [st w] g status data resp Hg st0 arr shown. subst st0.
    cbn [Gallery.current Gallery.waiting] in *. split.
    + cbn [Gallery.react]. simpl. by rewrite Hg.
    + intros ->. change {| Gallery.current := st; Gallery.waiting := [] |}
        with (Gallery.idle st).
      rewrite !gallery_one_reload.
      destruct (gallery_reload_first_page st g status data resp Hg) as [Hok Hfail].
      split; [by rewrite Hok|]. intros Hf. by rewrite Hfail.
Qed.

Lemma reload_starts_over_witness :
  let recs := map Projects.sample (seq 0 8) in
  let l := Projects.play
             (Projects.one_by_one
                [Projects.LoadMore (Projects.ok_with recs);
                 Projects.LoadMore (Projects.ok_with recs)])
             (Projects.idle (Projects.fresh (Some []) (Some []))) in
  Projects.projectsLoaded (Projects.current l) = 8
  /\ Projects.projectsLoaded
       (Projects.current
          (Projects.play
             [Projects.ReloadInvoked;
              Projects.Responded 0 (Projects.ok_with (take 3 recs))] l)) = 3
  /\ Projects.projectsGrid
       (Projects.current
          (Projects.play
             [Projects.ReloadInvoked; Projects.Responded 0 Projects.NetworkError] l))
     = Some [Projects.errorMessage].
Proof.
  intros recs l.
  destruct (proj1 reload_starts_over l
              (map Projects.visibleCard (reverse recs)) 200 (Some (take 3 recs))
              Projects.NetworkError) as [_ Hquiet].
  - reflexivity.
  - destruct Hquiet as [Hok Hfail]; [reflexivity|].
    split; [reflexivity|]. split.
    + unfold Projects.ok_with. by rewrite Hok.
    + by rewrite Hfail.
Defined.

(** X15.  Odd documents.  A JSON document without the array field is
    taken for an empty list: nothing is rendered, no error is shown and
    the control is hidden.  The document [null] is an error like a
    failed fetch: the grid gets the retry block and nothing is kept in
    memory. *)
Theorem odd_documents :
  (forall (count status : nat) (st : Projects.state) (g : list node),
     Projects.projectsGrid st = Some g -> Projects.allProjects st = [] ->
     Projects.projectsLoaded st = 0 ->
     Projects.loadProjects count
       (Projects.Http true status (Projects.JsonData None)) st
     = Normal {| Projects.projectsLoaded := 0; Projects.allProjects := [];
                 Projects.projectsGrid := Some [];
                 Projects.loadMoreBtn :=
                   (fun _ => js "none") <$> Projects.loadMoreBtn st;
                 Projects.fetches := S (Projects.fetches st) |}
     /\ Projects.loadProjects count
          (Projects.Http true status Projects.JsonNull) st
        = Normal {| Projects.projectsLoaded := 0; Projects.allProjects := [];
                    Projects.projectsGrid := Some [Projects.errorMessage];
                    Projects.loadMoreBtn := Projects.loadMoreBtn st;
                    Projects.fetches := S (Projects.fetches st) |})
  /\ (forall (count status : nat) (st : Gallery.state) (g : list node),
        Gallery.galleryGrid st = Some g -> Gallery.allImages st = [] ->
        Gallery.imagesLoaded st = 0 ->
        Gallery.loadImages count
          (Gallery.Http true status (Gallery.JsonData None)) st
        = Normal {| Gallery.imagesLoaded := 0; Gallery.allImages := [];
                    Gallery.galleryGrid := Some g;
                    Gallery.loadMoreBtn :=
                      (fun _ => js "none") <$> Gallery.loadMoreBtn st;
                    Gallery.fetches := S (Gallery.fetches st) |}
        /\ Gallery.loadImages count
             (Gallery.Http true status Gallery.JsonNull) st
           = Normal {| Gallery.imagesLoaded := 0; Gallery.allImages := [];
                       Gallery.galleryGrid := Some [Gallery.errorMessage];
                       Gallery.loadMoreBtn := Gallery.loadMoreBtn st;
                       Gallery.fetches := S (Gallery.fetches st) |}).
Proof.
  split.
  - intros count status st g Hg Hall H0. split.
    + rewrite (loadProjects_first count status None st g Hg Hall H0). simpl.
      by rewrite Nat.min_0_r.
    + unfold Projects.loadProjects, Projects.fetchAll. rewrite Hg, Hall. simpl.
      unfold Projects.set_grid. simpl. by rewrite H0, Hall.
  - intros count status st g Hg Hall H0. split.
    + rewrite (loadImages_first count status None st g Hg Hall H0). simpl.
      by rewrite Nat.min_0_r, app_nil_r.
    + unfold Gallery.loadImages, Gallery.fetchAll. rewrite Hg, Hall. simpl.
      unfold Gallery.set_grid. simpl. by rewrite H0, Hall.
Qed.

Lemma odd_documents_witness :
  Projects.hidden
    (state_of (Projects.loadProjects 6
                 (Projects.Http true 200 (Projects.JsonData None))
                 (Projects.fresh (Some [Projects.loadingMessage]) (Some []))))
  /\ Gallery.galleryGrid
       (state_of (Gallery.loadImages 6 (Gallery.Http true 200 Gallery.JsonNull)
                    (Gallery.fresh (Some []) (Some []))))
     = Some [Gallery.errorMessage].
Proof.
  split.
  - rewrite (proj1 (proj1 odd_documents 6 200
                      (Projects.fresh (Some [Projects.loadingMessage]) (Some []))
                      [Projects.loadingMessage] eq_refl eq_refl eq_refl)).
    reflexivity.
  - rewrite (proj2 (proj2 odd_documents 6 200
                      (Gallery.fresh (Some []) (Some [])) [] eq_refl eq_refl eq_refl)).
    reflexivity.
Defined.

(** ** Gallery lightbox *)

Lemma class_remove_absent (c : string) (classes : gset string) :
  c ∉ classes -> classes ∖ {[c]} = classes.
Proof.
  intros Hc. apply set_eq. intros x.
  rewrite elem_of_difference, elem_of_singleton. split; [by intros [? _]|].
  intros Hx. split; [done|]. by intros ->.
Qed.

Lemma class_add_remove (c : string) (classes : gset string) :
  c ∉ classes -> ({[c]} ∪ classes) ∖ {[c]} = classes.
Proof.
  intros Hc. apply set_eq. intros x.
  rewrite elem_of_difference, elem_of_union, elem_of_singleton. split.
  - by intros [[->|Hx] Hne].
  - intros Hx. split; [by right|]. by intros ->.
Qed.

Lemma class_remove_add (c : string) (classes : gset string) :
  c ∈ classes -> {[c]} ∪ classes ∖ {[c]} = classes.
Proof.
  intros Hc. apply set_eq. intros x.
  rewrite elem_of_union, elem_of_difference, elem_of_singleton. split.
  - by intros [->|[Hx _]].
  - intros Hx. destruct (decide (x = c)) as [->|Hne]; [by left | by right].
Qed.

Section LightboxFacts.
Import Lightbox.

(** Open, listener and body overflow go together. *)
Lemma lightbox_step_linked (e : event) (st : state) :
  complete st ->
  (is_open st <-> keydownListener st = true) ->
  bodyOverflow st = (if keydownListener st then js "hidden" else []) ->
  let st' := step e st in
  complete st'
  /\ (is_open st' <-> keydownListener st' = true)
  /\ bodyOverflow st' = (if keydownListener st' then js "hidden" else []).
Proof.
  intros ([classes Hbox] & [img Himg] & [ttl Httl] & [dsc Hdsc]) Hopen Hover.
  assert (Hclose : let st' := closeLightbox st in
            complete st'
            /\ (is_open st' <-> keydownListener st' = true)
            /\ bodyOverflow st' = (if keydownListener st' then js "hidden" else [])).
  { unfold closeLightbox, complete, is_open. rewrite Hbox. simpl.
    rewrite Himg, Httl, Hdsc.
    split; [repeat split; by eexists|]. split; [|done]. split; [|done].
    intros (c & [= <-] & Hin). apply elem_of_difference in Hin as [_ Hin].
    destruct Hin. by apply elem_of_singleton. }
  assert (Hsame : complete st
            /\ (is_open st <-> keydownListener st = true)
            /\ bodyOverflow st = (if keydownListener st then js "hidden" else [])).
  { split; [|done]. unfold complete. rewrite Hbox, Himg, Httl, Hdsc.
    repeat split; by eexists. }
  destruct e as [d| | | |key]; simpl; try done.
  - unfold openLightbox. rewrite Hbox, Himg, Httl, Hdsc.
    unfold complete, is_open. simpl.
    split; [repeat split; by eexists|]. split; [|done]. split; [done|].
    intros _. eexists. split; [done|]. by apply elem_of_union_l, elem_of_singleton.
  - destruct (keydownListener st) eqn:Hl; [|by rewrite Hl].
    unfold handleLightboxKeydown. case_bool_decide; [done | by rewrite Hl].
Qed.

(** X16.  On a page with all four lightbox elements, starting closed,
    whatever the user clicks and types: the lightbox is open exactly
    while the Escape listener is registered and exactly while the body
    is kept from scrolling; when it is closed the body scrolls
    again. *)
Theorem lightbox_open_listener_overflow (events : list event) (st : state) :
  complete st -> closed st ->
  let st' := run events st in
  (is_open st' <-> keydownListener st' = true)
  /\ (is_open st' <-> bodyOverflow st' = js "hidden")
  /\ (~ is_open st' -> bodyOverflow st' = []).
Proof.
  intros Hcomplete (Hnot & Hover & Hlisten) st'.
  assert (Hlinked : complete st'
            /\ (is_open st' <-> keydownListener st' = true)
            /\ bodyOverflow st' = (if keydownListener st' then js "hidden" else [])).
  { subst st'. revert st Hcomplete Hnot Hover Hlisten.
    assert (Hgen : forall st,
              complete st -> (is_open st <-> keydownListener st = true) ->
              bodyOverflow st = (if keydownListener st then js "hidden" else []) ->
              complete (run events st)
              /\ (is_open (run events st) <-> keydownListener (run events st) = true)
              /\ bodyOverflow (run events st)
                 = (if keydownListener (run events st) then js "hidden" else [])).
    { induction events as [|e events IH]; intros st H1 H2 H3; [done|].
      destruct (lightbox_step_linked e st H1 H2 H3) as (H1' & H2' & H3').
      apply (IH (step e st) H1' H2' H3'). }
    intros st Hcomplete Hnot Hover Hlisten. apply Hgen; try done.
    - rewrite Hlisten. split; [done | discriminate].
    - by rewrite Hlisten. }
  destruct Hlinked as (_ & Hopen & Hover').
  split; [done|]. rewrite Hopen, Hover'.
  destruct (keydownListener st'); split; done.
Qed.

Lemma lightbox_sample_closed :
  let st := {| lightbox := Some ∅; lightboxImage := Some ([], []);
               lightboxTitle := Some []; lightboxDescription := Some [];
               bodyOverflow := []; keydownListener := false |} in
  complete st /\ closed st.
Proof.
  intros st. split.
  - repeat split; by eexists.
  - split; [|done]. intros (c & [= <-] & Hin). by apply not_elem_of_empty in Hin.
Qed.

Lemma lightbox_open_listener_overflow_witness :
  let st := {| lightbox := Some ∅; lightboxImage := Some ([], []);
               lightboxTitle := Some []; lightboxDescription := Some [];
               bodyOverflow := []; keydownListener := false |} in
  let st' := run [ItemClicked (Gallery.sample 1); InsideClicked;
                  KeyDown (js "Enter")] st in
  is_open st' <-> bodyOverflow st' = js "hidden".
Proof.
  intros st st'.
  destruct lightbox_sample_closed as [Hcomplete Hclosed].
  apply (lightbox_open_listener_overflow
           [ItemClicked (Gallery.sample 1); InsideClicked; KeyDown (js "Enter")]
           st Hcomplete Hclosed).
Defined.

(** X17.  Opening and closing.  On a complete page with the lightbox
    closed, a click on an item shows that item's path, title and
    description; Escape, the close button or a click on the background
    then bring the lightbox element, the body and the listener back to
    exactly what they were, the shown content staying in place; any
    other key while open, and any key while closed, changes nothing. *)
Theorem lightbox_open_close (d : Gallery.imageData) (st : state) :
  complete st -> closed st ->
  let opened := step (ItemClicked d) st in
  let shown :=
    {| lightbox := lightbox st;
       lightboxImage := Some (Gallery.path d, Gallery.title d);
       lightboxTitle := Some (Gallery.title d);
       lightboxDescription := Some (Gallery.description d);
       bodyOverflow := bodyOverflow st;
       keydownListener := keydownListener st |} in
  is_open opened
  /\ lightboxImage opened = Some (Gallery.path d, Gallery.title d)
  /\ lightboxTitle opened = Some (Gallery.title d)
  /\ lightboxDescription opened = Some (Gallery.description d)
  /\ step (KeyDown (js "Escape")) opened = shown
  /\ step CloseClicked opened = shown
  /\ step BackgroundClicked opened = shown
  /\ (forall key, key <> js "Escape" -> step (KeyDown key) opened = opened)
  /\ (forall key, step (KeyDown key) st = st).
Proof.
  intros ([classes Hbox] & [img Himg] & [ttl Httl] & [dsc Hdsc])
         (Hnot & Hover & Hlisten) opened shown.
  assert (Hactive : "active" ∉ classes).
  { intros Hin. apply Hnot. by exists classes. }
  assert (Hopened : opened
            = {| lightbox := Some ({["active"]} ∪ classes);
                 lightboxImage := Some (Gallery.path d, Gallery.title d);
                 lightboxTitle := Some (Gallery.title d);
                 lightboxDescription := Some (Gallery.description d);
                 bodyOverflow := js "hidden"; keydownListener := true |}).
  { subst opened. simpl. unfold openLightbox. by rewrite Hbox, Himg, Httl, Hdsc. }
  clearbody opened. subst opened.
  assert (Hclose : closeLightbox
                     {| lightbox := Some ({["active"]} ∪ classes);
                        lightboxImage := Some (Gallery.path d, Gallery.title d);
                        lightboxTitle := Some (Gallery.title d);
                        lightboxDescription := Some (Gallery.description d);
                        bodyOverflow := js "hidden"; keydownListener := true |}
                   = shown).
  { unfold closeLightbox. simpl. subst shown.
    by rewrite class_add_remove, Hbox, Hover, Hlisten. }
  split.
  { eexists. split; [done|]. by apply elem_of_union_l, elem_of_singleton. }
  split; [done|]. split; [done|]. split; [done|]. split.
  { simpl. unfold handleLightboxKeydown. by rewrite bool_decide_eq_true_2. }
  split; [done|]. split; [done|]. split.
  - intros key Hkey. simpl. unfold handleLightboxKeydown.
    by rewrite bool_decide_eq_false_2.
  - intros key. simpl. by rewrite Hlisten.
Qed.

Lemma lightbox_open_close_witness :
  let st := {| lightbox := Some ∅; lightboxImage := Some ([], []);
               lightboxTitle := Some []; lightboxDescription := Some [];
               bodyOverflow := []; keydownListener := false |} in
  lightboxTitle (run [ItemClicked (Gallery.sample 1); KeyDown (js "Escape")] st)
  = Some (Gallery.title (Gallery.sample 1)).
Proof.
  intros st. destruct lightbox_sample_closed as [Hcomplete Hclosed].
  destruct (lightbox_open_close (Gallery.sample 1) st Hcomplete Hclosed)
    as (_ & _ & _ & _ & Hescape & _).
  change (run [ItemClicked (Gallery.sample 1); KeyDown (js "Escape")] st)
    with (step (KeyDown (js "Escape")) (step (ItemClicked (Gallery.sample 1)) st)).
  by rewrite Hescape.
Defined.

(** X18.  If one of the four lightbox elements is missing from the
    page, the lightbox never opens: from the closed state no click and
    no key changes anything. *)
Theorem lightbox_incomplete_page (events : list event) (st : state) :
  ~ complete st -> closed st -> run events st = st.
Proof.
  intros Hmissing (Hnot & Hover & Hlisten).
  assert (Hopen : forall d, openLightbox d st = st).
  { intros d. unfold openLightbox.
    destruct (lightbox st) eqn:?, (lightboxImage st) eqn:?,
             (lightboxTitle st) eqn:?, (lightboxDescription st) eqn:?; try done.
    destruct Hmissing. unfold complete. repeat split; by eauto. }
  assert (Hclose : closeLightbox st = st).
  { unfold closeLightbox. destruct (lightbox st) as [classes|] eqn:Hbox; [|done].
    rewrite class_remove_absent.
    - destruct st. simpl in *. by subst.
    - intros Hin. apply Hnot. by exists classes. }
  induction events as [|e events IH]; [done|].
  unfold run in *. simpl.
  assert (Hstep : step e st = st).
  { destruct e; simpl; try done. by rewrite Hlisten. }
  by rewrite Hstep.
Qed.

Lemma lightbox_incomplete_page_witness :
  let st := {| lightbox := Some ∅; lightboxImage := None;
               lightboxTitle := Some []; lightboxDescription := Some [];
               bodyOverflow := []; keydownListener := false |} in
  run [ItemClicked (Gallery.sample 1); CloseClicked] st = st.
Proof.
  intros st. apply lightbox_incomplete_page.
  - intros (_ & [x Hx] & _). discriminate.
  - split; [|done]. intros (c & [= <-] & Hin). by apply not_elem_of_empty in Hin.
Defined.
End LightboxFacts.

(** ** Navigation: mobile menu, link clicks, scroll marks *)

Section MenuFacts.
Import NavBar Menu.
Local Open Scope Z_scope.

Lemma toggle_class_elem (c : string) (classes : gset string) :
  c ∈ toggle_class c classes <-> c ∉ classes.
Proof.
  unfold toggle_class. case_bool_decide as Hc.
  - split; [|done]. rewrite elem_of_difference, elem_of_singleton. by intros [_ ?].
  - split; [done|]. intros _. by apply elem_of_union_l, elem_of_singleton.
Qed.

Lemma toggle_class_twice (c : string) (classes : gset string) :
  toggle_class c (toggle_class c classes) = classes.
Proof.
  destruct (decide (c ∈ classes)) as [Hc|Hc].
  - assert (H1 : c ∉ toggle_class c classes) by (by intros H%toggle_class_elem).
    unfold toggle_class at 1. rewrite bool_decide_eq_false_2 by done.
    unfold toggle_class. rewrite bool_decide_eq_true_2 by done.
    by apply class_remove_add.
  - assert (H1 : c ∈ toggle_class c classes) by (by rewrite toggle_class_elem).
    unfold toggle_class at 1. rewrite bool_decide_eq_true_2 by done.
    unfold toggle_class. rewrite bool_decide_eq_false_2 by done.
    by apply class_add_remove.
Qed.

Lemma closeMobileMenu_present (st : state) (h m : gset string) :
  hamburger st = Some h -> navMenu st = Some m ->
  closeMobileMenu st
  = Normal {| page := page st; hamburger := Some (h ∖ {["active"]});
              navMenu := Some (m ∖ {["active"]});
              bodyOverflow := []; scrolledTo := scrolledTo st |}.
Proof.
  intros Hh Hm. unfold closeMobileMenu. rewrite Hh. simpl. by rewrite Hm.
Qed.

Lemma toggleMobileMenu_present (st : state) (h m : gset string) :
  hamburger st = Some h -> navMenu st = Some m ->
  toggleMobileMenu st
  = Normal {| page := page st; hamburger := Some (toggle_class "active" h);
              navMenu := Some (toggle_class "active" m);
              bodyOverflow :=
                if bool_decide ("active" ∈ toggle_class "active" m)
                then js "hidden" else [];
              scrolledTo := scrolledTo st |}.
Proof.
  intros Hh Hm. unfold toggleMobileMenu. rewrite Hh. simpl. by rewrite Hm.
Qed.

(** [in_step] reads the button, the menu and the body style only. *)
Lemma in_step_ext (st st' : state) :
  hamburger st' = hamburger st -> navMenu st' = navMenu st ->
  bodyOverflow st' = bodyOverflow st ->
  in_step st -> in_step st'.
Proof.
  intros Hh Hm Ho (h & m & ? & ? & ? & ?). exists h, m.
  by rewrite Hh, Hm, Ho.
Qed.

Lemma closed_in_step (p : NavBar.page) (h m : gset string) (top : option Z) :
  in_step {| page := p; hamburger := Some (h ∖ {["active"]});
             navMenu := Some (m ∖ {["active"]});
             bodyOverflow := []; scrolledTo := top |}.
Proof.
  exists (h ∖ {["active"]}), (m ∖ {["active"]}). simpl.
  split; [done|]. split; [done|]. split.
  - split; intros Hin; by apply active_removed in Hin.
  - rewrite bool_decide_eq_false_2; [done | apply active_removed].
Qed.

Lemma closeMobileMenu_in_step (st : state) :
  in_step st -> in_step (state_of (closeMobileMenu st)).
Proof.
  intros (h & m & Hh & Hm & _).
  rewrite (closeMobileMenu_present st h m Hh Hm). apply closed_in_step.
Qed.

Lemma toggleMobileMenu_in_step (st : state) :
  in_step st -> in_step (state_of (toggleMobileMenu st)).
Proof.
  intros (h & m & Hh & Hm & Hhm & _).
  rewrite (toggleMobileMenu_present st h m Hh Hm).
  exists (toggle_class "active" h), (toggle_class "active" m). simpl.
  split; [done|]. split; [done|]. split; [|done].
  rewrite !toggle_class_elem. by rewrite Hhm.
Qed.

(** Escape and a wide resize end in the same way: the menu is closed
    if it was open, and nothing happens otherwise. *)
Lemma close_if_open_cases (st : state) (h m : gset string) :
  hamburger st = Some h -> navMenu st = Some m ->
  (if bool_decide ("active" ∈ m) then closeMobileMenu st else Normal st)
  = Normal (if bool_decide ("active" ∈ m)
            then {| page := page st; hamburger := Some (h ∖ {["active"]});
                    navMenu := Some (m ∖ {["active"]});
                    bodyOverflow := []; scrolledTo := scrolledTo st |}
            else st).
Proof.
  intros Hh Hm. case_bool_decide; [|done]. by apply closeMobileMenu_present.
Qed.

Lemma handleKeyboard_in_step (key : jsstring) (st : state) :
  in_step st -> in_step (state_of (handleKeyboard key st)).
Proof.
  intros Hst. pose proof Hst as (h & m & Hh & Hm & _).
  unfold handleKeyboard. case_bool_decide; [|done].
  rewrite Hm, (close_if_open_cases st h m Hh Hm).
  case_bool_decide; [apply closed_in_step | done].
Qed.

Lemma handleResize_in_step (w : Z) (st : state) :
  in_step st -> in_step (state_of (handleResize w st)).
Proof.
  intros Hst. pose proof Hst as (h & m & Hh & Hm & _).
  unfold handleResize. case_bool_decide; [|done].
  rewrite Hm, (close_if_open_cases st h m Hh Hm).
  case_bool_decide; [apply closed_in_step | done].
Qed.

Lemma handleSmoothScroll_in_step (targetId : option jsstring) (target : query)
    (st : state) :
  in_step st -> in_step (snd (state_of (handleSmoothScroll targetId target st))).
Proof.
  intros Hst. pose proof Hst as (h & m & Hh & Hm & _).
  unfold handleSmoothScroll. destruct targetId as [id|]; [|done].
  destruct (startsWithHash id); [|done].
  destruct target as [| |top]; [done|done|].
  rewrite (closeMobileMenu_present st h m Hh Hm). simpl.
  destruct (navbar (page st)) as [nb|]; simpl; apply closed_in_step.
Qed.

Lemma onScroll_elements (st : state) :
  hamburger (state_of (onScroll st)) = hamburger st
  /\ navMenu (state_of (onScroll st)) = navMenu st
  /\ bodyOverflow (state_of (onScroll st)) = bodyOverflow st
  /\ scrolledTo (state_of (onScroll st)) = scrolledTo st.
Proof.
  unfold onScroll. by destruct (handleScroll (page st)).
Qed.

Lemma step_in_step (e : event) (st : state) :
  in_step st -> in_step (step e st).
Proof.
  intros Hst. destruct e as [|key|w|targetId target|y]; simpl.
  - by apply toggleMobileMenu_in_step.
  - by apply handleKeyboard_in_step.
  - by apply handleResize_in_step.
  - by apply handleSmoothScroll_in_step.
  - match goal with |- in_step (state_of (onScroll ?s)) =>
      destruct (onScroll_elements s) as (Hh & Hm & Ho & _) end.
    eapply in_step_ext; [exact Hh | exact Hm | exact Ho |].
    by eapply in_step_ext; [| | |exact Hst].
Qed.

(** X19.  On a page with the hamburger button and the menu, whose
    button and menu carry the active class together and whose body
    scroll is blocked exactly while the menu is open, this stays so
    after every sequence of clicks on the button, key presses, resizes,
    clicks on navigation links and scrolls, also when a handler throws
    for want of the navigation bar. *)
Theorem menu_stays_in_step (events : list event) (st : state) :
  in_step st -> in_step (run events st).
Proof.
  unfold run. revert st.
  induction events as [|e events IH]; intros st Hst; [done|].
  simpl. apply IH. by apply step_in_step.
Qed.

Lemma menu_sample_in_step :
  in_step {| page := {| navbar := None; navLinks := []; sections := [];
                        scrollY := 0 |};
             hamburger := Some ∅; navMenu := Some ∅;
             bodyOverflow := []; scrolledTo := None |}.
Proof.
  exists ∅, ∅. simpl. split; [done|]. split; [done|]. split; [done|].
  by rewrite bool_decide_eq_false_2 by apply not_elem_of_empty.
Qed.

Lemma menu_stays_in_step_witness :
  in_step
    (run [HamburgerClicked; Scrolled 300;
          LinkClicked (Some (js "#about")) (Found 500); HamburgerClicked;
          KeyPressed (js "Escape")]
       {| page := {| navbar := None; navLinks := []; sections := [];
                     scrollY := 0 |};
          hamburger := Some ∅; navMenu := Some ∅;
          bodyOverflow := []; scrolledTo := None |}).
Proof.
  apply menu_stays_in_step. exact menu_sample_in_step.
Defined.

Lemma menu_open_toggled (st : state) (h m : gset string) :
  hamburger st = Some h -> navMenu st = Some m ->
  menu_open (state_of (toggleMobileMenu st)) <-> ~ menu_open st.
Proof.
  intros Hh Hm. rewrite (toggleMobileMenu_present st h m Hh Hm).
  unfold menu_open. simpl. rewrite Hm. split.
  - intros (m' & [= <-] & Hin) (m'' & [= <-] & Hin').
    by apply toggle_class_elem in Hin.
  - intros Hclosed. eexists. split; [done|]. apply toggle_class_elem.
    intros Hin. apply Hclosed. by exists m.
Qed.

(** X20.  With button, menu and body in step, a click on the hamburger
    button opens a closed menu and closes an open one, blocks the body
    scroll exactly when it opens the menu, and a second click brings
    back the state before the first. *)
Theorem toggleMobileMenu_twice (st : state) :
  in_step st ->
  let st1 := state_of (toggleMobileMenu st) in
  (menu_open st1 <-> ~ menu_open st)
  /\ (bodyOverflow st1 = js "hidden" <-> menu_open st1)
  /\ state_of (toggleMobileMenu st1) = st.
Proof.
  intros Hst st1. pose proof Hst as (h & m & Hh & Hm & Hhm & Ho).
  split; [by apply (menu_open_toggled st h m)|].
  subst st1. rewrite (toggleMobileMenu_present st h m Hh Hm). cbn [state_of].
  split.
  - unfold menu_open. simpl. clear Ho. case_bool_decide as Hin; split; try done.
    + intros _. eexists. split; [reflexivity | done].
    + intros (m' & [= <-] & Hin'). done.
  - erewrite toggleMobileMenu_present by reflexivity. cbn [state_of].
    rewrite !toggle_class_twice. destruct st as [p oh om ov top].
    simpl in *. by rewrite Hh, Hm, Ho.
Qed.

Lemma toggleMobileMenu_twice_witness :
  let st := {| page := {| navbar := None; navLinks := []; sections := [];
                          scrollY := 0 |};
               hamburger := Some ∅; navMenu := Some ∅;
               bodyOverflow := []; scrolledTo := None |} in
  bodyOverflow (state_of (toggleMobileMenu st)) = js "hidden"
  /\ state_of (toggleMobileMenu (state_of (toggleMobileMenu st))) = st.
Proof.
  intros st.
  destruct (toggleMobileMenu_twice st menu_sample_in_step) as (Hopen & Hbody & Hback).
  split; [|exact Hback]. apply Hbody, Hopen.
  intros (m & [= <-] & Hin). by apply not_elem_of_empty in Hin.
Defined.

Lemma not_open_closed (p : NavBar.page) (h m : gset string) (top : option Z) :
  ~ menu_open {| page := p; hamburger := Some h;
                 navMenu := Some (m ∖ {["active"]});
                 bodyOverflow := []; scrolledTo := top |}.
Proof.
  intros (m' & [= <-] & Hin). by apply active_removed in Hin.
Qed.

(** X21.  With button, menu and body in step: the Escape key, and a
    resize to more than 768 pixels, leave the menu closed and the body
    scroll free, and change nothing when the menu was closed already;
    every other key and every resize to 768 pixels or less changes
    nothing. *)
Theorem escape_and_wide_resize_close (key : jsstring) (w : Z) (st : state) :
  in_step st ->
  let escaped := step (KeyPressed (js "Escape")) st in
  let resized := step (Resized w) st in
  (~ menu_open escaped /\ bodyOverflow escaped = [])
  /\ (768 < w -> ~ menu_open resized /\ bodyOverflow resized = [])
  /\ (~ menu_open st -> escaped = st /\ resized = st)
  /\ (key <> js "Escape" -> step (KeyPressed key) st = st)
  /\ (w <= 768 -> resized = st).
Proof.
  intros Hst escaped resized. pose proof Hst as (h & m & Hh & Hm & Hhm & Ho).
  assert (Hesc : escaped
                 = if bool_decide ("active" ∈ m)
                   then {| page := page st; hamburger := Some (h ∖ {["active"]});
                           navMenu := Some (m ∖ {["active"]});
                           bodyOverflow := []; scrolledTo := scrolledTo st |}
                   else st).
  { subst escaped. simpl. unfold handleKeyboard.
    rewrite bool_decide_eq_true_2 by done.
    by rewrite Hm, (close_if_open_cases st h m Hh Hm). }
  assert (Hres : 768 < w ->
                 resized
                 = if bool_decide ("active" ∈ m)
                   then {| page := page st; hamburger := Some (h ∖ {["active"]});
                           navMenu := Some (m ∖ {["active"]});
                           bodyOverflow := []; scrolledTo := scrolledTo st |}
                   else st).
  { intros Hw. subst resized. simpl. unfold handleResize.
    rewrite bool_decide_eq_true_2 by done.
    by rewrite Hm, (close_if_open_cases st h m Hh Hm). }
  assert (Hcl : let st' := if bool_decide ("active" ∈ m)
                   then {| page := page st; hamburger := Some (h ∖ {["active"]});
                           navMenu := Some (m ∖ {["active"]});
                           bodyOverflow := []; scrolledTo := scrolledTo st |}
                   else st in
                ~ menu_open st' /\ bodyOverflow st' = []).
  { simpl. case_bool_decide as Hin.
    - split; [apply not_open_closed | done].
    - rewrite Ho, ?bool_decide_eq_false_2 by done. split; [|done].
      intros (m' & Hm' & Hin'). rewrite Hm in Hm'. by injection Hm' as <-. }
  assert (Hnoop : w <= 768 -> resized = st).
  { intros Hw. subst resized. simpl. unfold handleResize.
    rewrite bool_decide_eq_false_2; [done | lia]. }
  split; [by rewrite Hesc|]. split; [intros Hw; by rewrite Hres|]. split.
  - intros Hclosed.
    assert (Hin : "active" ∉ m) by (intros Hin; apply Hclosed; by exists m).
    split.
    + by rewrite Hesc, bool_decide_eq_false_2.
    + destruct (decide (768 < w)) as [Hw|Hw].
      * by rewrite Hres, bool_decide_eq_false_2.
      * apply Hnoop. lia.
  - split; [|done]. intros Hkey. simpl. unfold handleKeyboard.
    by rewrite bool_decide_eq_false_2.
Qed.

Lemma escape_and_wide_resize_close_witness :
  let st := {| page := {| navbar := None; navLinks := []; sections := [];
                          scrollY := 0 |};
               hamburger := Some ∅; navMenu := Some ∅;
               bodyOverflow := []; scrolledTo := None |} in
  let opened := step HamburgerClicked st in
  ~ menu_open (step (KeyPressed (js "Escape")) opened)
  /\ ~ menu_open (step (Resized 1024) opened)
  /\ step (KeyPressed (js "Enter")) opened = opened.
Proof.
  intros st opened.
  assert (Hopened : in_step opened).
  { apply step_in_step. exact menu_sample_in_step. }
  destruct (escape_and_wide_resize_close (js "Enter") 1024 opened Hopened)
    as ((Hesc & _) & Hres & _ & Hkey & _).
  split; [exact Hesc|]. split; [apply Hres; lia|]. apply Hkey. by vm_compute.
Defined.

(** X22.  A click on a navigation link whose href starts with '#' and
    whose target section is in the document, on a page with hamburger
    button, menu and navigation bar: the default action is prevented,
    the menu is closed and the body scroll freed, the window is
    scrolled to the section's top less the height of the bar, and
    exactly the links with that href are marked active. *)
Theorem link_click_scrolls_below_bar (id : jsstring) (top : Z)
    (nb : navbar_element) (st : state) :
  startsWithHash id = true ->
  is_Some (hamburger st) -> is_Some (navMenu st) ->
  navbar (page st) = Some nb ->
  exists st',
    handleSmoothScroll (Some id) (Found top) st = Normal (true, st')
    /\ scrolledTo st' = Some (top - navbarHeight nb)
    /\ ~ menu_open st' /\ bodyOverflow st' = []
    /\ Forall (fun l => is_active l <-> href l = Some id) (navLinks (page st'))
    /\ map href (navLinks (page st')) = map href (navLinks (page st)).
Proof.
  intros Hhash [h Hh] [m Hm] Hnb. unfold handleSmoothScroll. rewrite Hhash.
  rewrite (closeMobileMenu_present st h m Hh Hm). simpl. rewrite Hnb.
  eexists. split; [reflexivity|]. simpl. split; [done|]. split.
  { intros (m' & [= <-] & Hin). by apply active_removed in Hin. }
  split; [done|]. apply updateActiveLink_active.
Qed.

Lemma link_click_scrolls_below_bar_witness :
  let home := {| href := Some (js "#home"); classList := {["active"]} |} in
  let about := {| href := Some (js "#about"); classList := ∅ |} in
  let st := {| page := {| navbar := Some {| navbarClasses := ∅;
                                            navbarHeight := 70 |};
                          navLinks := [home; about]; sections := [];
                          scrollY := 0 |};
               hamburger := Some {["active"]}; navMenu := Some {["active"]};
               bodyOverflow := js "hidden"; scrolledTo := None |} in
  exists st',
    handleSmoothScroll (Some (js "#about")) (Found 500) st = Normal (true, st')
    /\ scrolledTo st' = Some 430
    /\ ~ menu_open st'.
Proof.
  intros home about st.
  destruct (link_click_scrolls_below_bar (js "#about") 500
              {| navbarClasses := ∅; navbarHeight := 70 |} st)
    as (st' & Hcall & Htop & Hclosed & _).
  - reflexivity.
  - by eexists.
  - by eexists.
  - reflexivity.
  - exists st'. split; [exact Hcall|]. split; [exact Htop | exact Hclosed].
Defined.

(** X23.  What a click on a navigation link never does.  The default
    action is prevented exactly when the href exists and starts with
    '#'.  The window is scrolled, or a link mark changed, only if
    moreover the target section was found and the hamburger button, the
    menu and the navigation bar are all in the document; a missing one
    of these makes the handler throw after [preventDefault], so that
    the click neither scrolls nor follows the link. *)
Theorem link_click_effects_need_everything (targetId : option jsstring)
    (target : query) (st : state) :
  let prevented := fst (state_of (handleSmoothScroll targetId target st)) in
  let st' := snd (state_of (handleSmoothScroll targetId target st)) in
  (prevented = true <-> exists id, targetId = Some id /\ startsWithHash id = true)
  /\ (scrolledTo st' <> scrolledTo st \/ page st' <> page st ->
      exists id top h m nb,
        targetId = Some id /\ startsWithHash id = true /\ target = Found top
        /\ hamburger st = Some h /\ navMenu st = Some m
        /\ navbar (page st) = Some nb)
  /\ (forall id top,
        targetId = Some id -> startsWithHash id = true -> target = Found top ->
        hamburger st = None \/ navMenu st = None \/ navbar (page st) = None ->
        exists st1,
          handleSmoothScroll targetId target st = Thrown TypeError (true, st1)
          /\ scrolledTo st1 = scrolledTo st /\ page st1 = page st).
Proof.
  intros prevented st'. subst prevented st'. unfold handleSmoothScroll.
  destruct targetId as [id|].
  2:{ simpl. split; [split; [done | by intros (? & ? & _)]|].
      split; [by intros [? | ?] | by intros ? ? ?]. }
  destruct (startsWithHash id) eqn:Hhash.
  2:{ simpl. split.
      { split; [done|]. intros (id' & [= <-] & Hid). by rewrite Hhash in Hid. }
      split; [by intros [? | ?]|]. intros id' top [= <-] Hid. by rewrite Hhash in Hid. }
  assert (Hprevented : exists id', Some id = Some id' /\ startsWithHash id' = true)
    by (by exists id).
  destruct target as [| |top].
  { simpl. split; [done|]. split; [by intros [? | ?] | by intros ? ? ? ? ?]. }
  { simpl. split; [done|]. split; [by intros [? | ?] | by intros ? ? ? ? ?]. }
  unfold closeMobileMenu.
  destruct (hamburger st) as [h|] eqn:Hh; simpl.
  2:{ split; [done|]. split; [by intros [? | ?]|]. intros _ _ _ _ _ _. by eexists. }
  destruct (navMenu st) as [m|] eqn:Hm; simpl.
  2:{ split; [done|]. split; [by intros [? | ?]|]. intros _ _ _ _ _ _. by eexists. }
  destruct (navbar (page st)) as [nb|] eqn:Hnb; simpl.
  2:{ split; [done|]. split; [by intros [? | ?]|]. intros _ _ _ _ _ _. by eexists. }
  split; [done|]. split.
  - intros _. by exists id, top, h, m, nb.
  - intros id' top' _ _ _ [? | [? | ?]]; done.
Qed.

Lemma link_click_effects_need_everything_witness :
  let st := {| page := {| navbar := None; navLinks := []; sections := [];
                          scrollY := 0 |};
               hamburger := Some ∅; navMenu := Some ∅;
               bodyOverflow := []; scrolledTo := None |} in
  exists st1,
    handleSmoothScroll (Some (js "#about")) (Found 500) st
    = Thrown TypeError (true, st1)
    /\ scrolledTo st1 = scrolledTo st /\ page st1 = page st.
Proof.
  intros st.
  apply (proj2 (proj2 (link_click_effects_need_everything
                         (Some (js "#about")) (Found 500) st))
           (js "#about") 500); try reflexivity.
  right. right. reflexivity.
Defined.

(** The marks of an earlier call of [updateActiveLink] are wiped by a
    later one. *)
Lemma updateActiveLink_last_wins (a b : jsstring) (links : list link) :
  updateActiveLink a (updateActiveLink b links) = updateActiveLink a links.
Proof.
  unfold updateActiveLink. rewrite map_map. apply map_ext. intros l. simpl.
  assert (H : (if bool_decide (href l = Some b)
               then {["active"]} ∪ classList l ∖ {["active"]}
               else classList l ∖ {["active"]}) ∖ {["active"]}
              = classList l ∖ {["active"]}).
  { case_bool_decide.
    - apply class_add_remove, active_removed.
    - apply class_remove_absent, active_removed. }
  by rewrite H.
Qed.

Lemma lastInRange_snoc (pos h : Z) (ss : list section) (s : section) :
  lastInRange pos h (ss ++ [s])
  = if in_range pos h s then Some s else lastInRange pos h ss.
Proof.
  unfold lastInRange. rewrite filter_app.
  destruct (in_range pos h s) eqn:Hr.
  - rewrite (filter_cons_True _ s []) by done. by rewrite filter_nil, last_snoc.
  - rewrite (filter_cons_False _ s []) by (by rewrite Hr).
    by rewrite filter_nil, app_nil_r.
Qed.

(** The section loop of [handleScroll] amounts to one update, for the
    last section in range. *)
Lemma fold_visit_section (pos h : Z) (ss : list section) (p : NavBar.page) :
  fold_left (visit_section pos h) ss p
  = match lastInRange pos h ss with
    | Some s => set_links (updateActiveLink (js "#" ++ id s) (navLinks p)) p
    | None => p
    end.
Proof.
  induction ss as [|s ss IH] using rev_ind; [done|].
  rewrite fold_left_app. cbn [fold_left]. rewrite IH, visit_section_spec.
  rewrite lastInRange_snoc. unfold in_range at 1.
  case_bool_decide; [|done].
  destruct (lastInRange pos h ss) as [s'|]; [|done].
  unfold set_links. simpl. by rewrite updateActiveLink_last_wins.
Qed.

Lemma handleScroll_present (p : NavBar.page) (nb : navbar_element) :
  navbar p = Some nb ->
  handleScroll p
  = Normal
      {| navbar :=
           Some {| navbarClasses :=
                     if bool_decide (50 < scrollY p)
                     then {["scrolled"]} ∪ navbarClasses nb
                     else navbarClasses nb ∖ {["scrolled"]};
                   navbarHeight := navbarHeight nb |};
         navLinks :=
           match lastInRange (scrollY p) (navbarHeight nb) (sections p) with
           | Some s => updateActiveLink (js "#" ++ id s) (navLinks p)
           | None => navLinks p
           end;
         sections := sections p; scrollY := scrollY p |}.
Proof.
  intros Hnb. unfold handleScroll. rewrite Hnb. rewrite fold_visit_section.
  simpl. by destruct (lastInRange _ _ _).
Qed.

(** X24.  The scroll handler on a page with a navigation bar: it
    returns normally; when some section's range (its extent moved up
    by the height of the bar plus 100 pixels) contains the scroll
    position, the links end up marked as one [updateActiveLink] for the
    last such section in document order marks them, and when none does
    the links are left as they were; the bar carries the scrolled class
    afterwards exactly when the position is above 50. *)
Theorem handleScroll_last_section_in_range (p : NavBar.page) (nb : navbar_element) :
  navbar p = Some nb ->
  exists p' nb',
    handleScroll p = Normal p'
    /\ navLinks p'
       = match lastInRange (scrollY p) (navbarHeight nb) (sections p) with
         | Some s => updateActiveLink (js "#" ++ id s) (navLinks p)
         | None => navLinks p
         end
    /\ navbar p' = Some nb'
    /\ ("scrolled" ∈ navbarClasses nb' <-> 50 < scrollY p)
    /\ navbarHeight nb' = navbarHeight nb
    /\ sections p' = sections p /\ scrollY p' = scrollY p.
Proof.
  intros Hnb. rewrite (handleScroll_present p nb Hnb).
  do 2 eexists. split; [reflexivity|]. simpl.
  split; [done|]. split; [reflexivity|]. simpl. split; [|done].
  case_bool_decide as Hpos; split; try done.
  - intros _. by apply elem_of_union_l, elem_of_singleton.
  - rewrite elem_of_difference, elem_of_singleton. by intros [_ ?].
Qed.

Lemma handleScroll_last_section_in_range_witness :
  let home := {| href := Some (js "#home"); classList := {["active"]} |} in
  let about := {| href := Some (js "#about"); classList := ∅ |} in
  let p :=
    {| navbar := Some {| navbarClasses := ∅; navbarHeight := 70 |};
       navLinks := [home; about];
       sections := [{| id := js "home"; offsetTop := 0; offsetHeight := 500 |};
                    {| id := js "about"; offsetTop := 400; offsetHeight := 700 |}];
       scrollY := 300 |} in
  exists p',
    handleScroll p = Normal p'
    /\ navLinks p' = updateActiveLink (js "#about") [home; about].
Proof.
  intros home about p.
  destruct (handleScroll_last_section_in_range p
              {| navbarClasses := ∅; navbarHeight := 70 |} eq_refl)
    as (p' & nb' & Hcall & Hlinks & _).
  exists p'. split; [exact Hcall | exact Hlinks].
Defined.

Lemma lastInRange_middle (pos h : Z) (before after : list section)
    (s : section) :
  in_range pos h s = true ->
  Forall (fun s' => in_range pos h s' = false) after ->
  lastInRange pos h (before ++ s :: after) = Some s.
Proof.
  intros Hs. induction after as [|s' after IH] using rev_ind; intros Hafter.
  - by rewrite lastInRange_snoc, Hs.
  - apply Forall_app in Hafter as [Hafter Hs'].
    apply (proj1 (Forall_singleton _ _)) in Hs'.
    change (before ++ s :: after ++ [s']) with (before ++ (s :: after) ++ [s']).
    rewrite (assoc_L (++)), lastInRange_snoc, Hs'. by apply IH.
Qed.

(** Scroll events change, of the page, the scroll position, the
    classes of the bar and the marks of the links; the marks are then
    those of one [updateActiveLink]. *)
Lemma scrolled_step (y : Z) (nb : navbar_element) (links : list link)
    (st : state) :
  navbar (page st) = Some nb ->
  (exists b, navLinks (page st) = updateActiveLink b links) ->
  let st' := step (Scrolled y) st in
  (exists nb', navbar (page st') = Some nb'
     /\ navbarHeight nb' = navbarHeight nb)
  /\ sections (page st') = sections (page st)
  /\ (exists b, navLinks (page st') = updateActiveLink b links).
Proof.
  intros Hnb [b Hlinks]. cbn [step]. unfold onScroll. cbn [page set_page].
  erewrite handleScroll_present by (simpl; exact Hnb). simpl.
  split; [by eexists|]. split; [done|].
  destruct (lastInRange y (navbarHeight nb) (sections (page st))) as [s'|].
  - exists (js "#" ++ id s'). rewrite Hlinks. apply updateActiveLink_last_wins.
  - by exists b.
Qed.

Lemma scrolled_run (ys : list Z) (nb : navbar_element) (links : list link)
    (st : state) :
  navbar (page st) = Some nb ->
  (exists b, navLinks (page st) = updateActiveLink b links) ->
  let st' := run (map Scrolled ys) st in
  (exists nb', navbar (page st') = Some nb'
     /\ navbarHeight nb' = navbarHeight nb)
  /\ sections (page st') = sections (page st)
  /\ (exists b, navLinks (page st') = updateActiveLink b links).
Proof.
  revert nb st. induction ys as [|y ys IH]; intros nb st Hnb Hlinks.
  - simpl. split; [by eexists|]. by split.
  - destruct (scrolled_step y nb links st Hnb Hlinks)
      as ((nb1 & Hnb1 & Hh1) & Hs1 & Hl1).
    change (run (map Scrolled (y :: ys)) st)
      with (run (map Scrolled ys) (step (Scrolled y) st)).
    destruct (IH nb1 (step (Scrolled y) st) Hnb1 Hl1)
      as ((nb2 & Hnb2 & Hh2) & Hs2 & Hl2).
    cbn zeta. split; [exists nb2; split; [done | congruence]|].
    split; [congruence | done].
Qed.

(** X25.  Click and scroll agree, where the window can get there.  A
    click on the link of a section asks for a scroll to the section's
    top less the height of the bar; the window comes to rest at that
    position brought into the scrollable range.  The scroll handler run
    there marks the links for the last section whose range contains
    that position (or leaves the marks as they are if there is none).
    So, whatever scroll events come on the way, the scroll handler run
    at the position of rest leaves the marks the click has set when the
    clicked section's own range contains that position and no later
    section's does; the clicked section's range does contain it when
    the section is more than 100 pixels high and the requested
    position is within the scrollable range. *)
Theorem scroll_after_click_keeps_marks (s : section)
    (before after : list section) (nb : navbar_element) (maxScroll : Z)
    (st : state) :
  is_Some (hamburger st) -> is_Some (navMenu st) ->
  navbar (page st) = Some nb ->
  sections (page st) = before ++ s :: after ->
  let clicked :=
    step (LinkClicked (Some (js "#" ++ id s)) (Found (offsetTop s))) st in
  let top := offsetTop s - navbarHeight nb in
  let rest := landsAt top maxScroll in
  scrolledTo clicked = Some top
  /\ Forall (fun l => is_active l <-> href l = Some (js "#" ++ id s))
       (navLinks (page clicked))
  /\ navLinks (page (step (Scrolled rest) clicked))
     = match lastInRange rest (navbarHeight nb) (before ++ s :: after) with
       | Some s' => updateActiveLink (js "#" ++ id s') (navLinks (page st))
       | None => navLinks (page clicked)
       end
  /\ (in_range rest (navbarHeight nb) s = true ->
      Forall (fun s' => in_range rest (navbarHeight nb) s' = false) after ->
      forall onTheWay : list Z,
        navLinks (page (step (Scrolled rest) (run (map Scrolled onTheWay) clicked)))
        = navLinks (page clicked))
  /\ (0 <= top <= maxScroll -> 100 < offsetHeight s ->
      in_range rest (navbarHeight nb) s = true).
Proof.
  intros [h Hh] [m Hm] Hnb Hsections clicked top rest.
  assert (Hclicked :
            clicked
            = {| page := set_links
                           (updateActiveLink (js "#" ++ id s) (navLinks (page st)))
                           (page st);
                 hamburger := Some (h ∖ {["active"]});
                 navMenu := Some (m ∖ {["active"]});
                 bodyOverflow := []; scrolledTo := Some top |}).
  { subst clicked. cbn [step]. unfold handleSmoothScroll.
    change (startsWithHash (js "#" ++ id s)) with true. cbn match.
    rewrite (closeMobileMenu_present st h m Hh Hm). simpl. by rewrite Hnb. }
  assert (Hnb' : navbar (page clicked) = Some nb) by by rewrite Hclicked.
  assert (Hsec' : sections (page clicked) = before ++ s :: after)
    by by rewrite Hclicked.
  assert (Hlinks' : navLinks (page clicked)
                    = updateActiveLink (js "#" ++ id s) (navLinks (page st)))
    by by rewrite Hclicked.
  split; [by rewrite Hclicked|]. split.
  { rewrite Hlinks'. apply updateActiveLink_active. }
  split; [|split].
  - cbn [step]. unfold onScroll. cbn [page set_page].
    erewrite handleScroll_present by (simpl; exact Hnb'). simpl.
    rewrite Hsec'.
    destruct (lastInRange rest (navbarHeight nb) (before ++ s :: after)); [|done].
    rewrite Hlinks'. apply updateActiveLink_last_wins.
  - intros Hs Hafter onTheWay.
    destruct (scrolled_run onTheWay nb (navLinks (page st)) clicked Hnb')
      as ((nb1 & Hnb1 & Hh1) & Hs1 & (b & Hl1)); [by eexists|].
    cbn [step]. unfold onScroll. cbn [page set_page].
    erewrite handleScroll_present by (simpl; exact Hnb1). simpl.
    rewrite Hs1, Hsec', Hh1.
    rewrite (lastInRange_middle _ _ before after s Hs Hafter).
    rewrite Hl1, Hlinks'. apply updateActiveLink_last_wins.
  - intros Htop Hheight. unfold in_range. apply bool_decide_eq_true_2.
    subst rest top. unfold landsAt. lia.
Qed.

Lemma scroll_after_click_keeps_marks_witness :
  let home := {| href := Some (js "#home"); classList := {["active"]} |} in
  let about := {| href := Some (js "#about"); classList := ∅ |} in
  let s1 := {| id := js "home"; offsetTop := 0; offsetHeight := 500 |} in
  let s2 := {| id := js "about"; offsetTop := 500; offsetHeight := 700 |} in
  let st := {| page := {| navbar := Some {| navbarClasses := ∅;
                                            navbarHeight := 70 |};
                          navLinks := [home; about]; sections := [s1; s2];
                          scrollY := 0 |};
               hamburger := Some ∅; navMenu := Some ∅;
               bodyOverflow := []; scrolledTo := None |} in
  let clicked := step (LinkClicked (Some (js "#about")) (Found 500)) st in
  scrolledTo clicked = Some 430
  /\ navLinks (page (step (Scrolled (landsAt 430 600))
                       (run (map Scrolled [120; 260; 390]) clicked)))
     = navLinks (page clicked).
Proof.
  intros home about s1 s2 st clicked.
  destruct (scroll_after_click_keeps_marks s2 [s1] []
              {| navbarClasses := ∅; navbarHeight := 70 |} 600 st)
    as (Htop & _ & _ & Hkept & Hrange).
  - by eexists.
  - by eexists.
  - reflexivity.
  - reflexivity.
  - split; [exact Htop|].
    apply (fun Hs Hafter => Hkept Hs Hafter [120; 260; 390]); [|constructor].
    apply Hrange; simpl; lia.
Defined.

(** The first section of a page: the click asks for a position above
    the document, the window rests at 0, and with a first section no
    higher than the bar plus 100 pixels the scroll handler marks the
    link of the second section instead. *)
Example click_on_first_section :
  let home := {| href := Some (js "#home"); classList := ∅ |} in
  let about := {| href := Some (js "#about"); classList := ∅ |} in
  let s1 := {| id := js "home"; offsetTop := 0; offsetHeight := 150 |} in
  let s2 := {| id := js "about"; offsetTop := 150; offsetHeight := 700 |} in
  let st := {| page := {| navbar := Some {| navbarClasses := ∅;
                                            navbarHeight := 70 |};
                          navLinks := [home; about]; sections := [s1; s2];
                          scrollY := 300 |};
               hamburger := Some ∅; navMenu := Some ∅;
               bodyOverflow := []; scrolledTo := None |} in
  let clicked := step (LinkClicked (Some (js "#home")) (Found 0)) st in
  scrolledTo clicked = Some (-70)
  /\ landsAt (-70) 2000 = 0
  /\ navLinks (page (step (Scrolled (landsAt (-70) 2000)) clicked))
     = updateActiveLink (js "#about") [home; about].
Proof. repeat split; by vm_compute. Qed.
End MenuFacts.

(** ** Theme controller: page load and event runs *)

Section ThemePageFacts.
Import ThemeToggle ThemePage.

Lemma getPreferredTheme_stored (theme : jsstring) (st : state) :
  getItem storage_key st = Some theme -> theme <> [] ->
  getPreferredTheme st = theme.
Proof.
  intros Hsaved Hne. unfold getPreferredTheme. rewrite Hsaved.
  by destruct theme.
Qed.

Lemma getPreferredTheme_system (st : state) :
  getItem storage_key st = None \/ getItem storage_key st = Some [] ->
  getPreferredTheme st
  = if bool_decide (prefersLight st = Some true) then THEMES.LIGHT
    else THEMES.DARK.
Proof.
  intros [Hsaved | Hsaved]; unfold getPreferredTheme; by rewrite Hsaved.
Qed.

Lemma getPreferredTheme_nonempty (st : state) : getPreferredTheme st <> [].
Proof.
  unfold getPreferredTheme.
  destruct (getItem storage_key st) as [[|c saved]|]; simpl;
    try case_bool_decide; done.
Qed.

Lemma applyTheme_agrees (theme : jsstring) (st : state) :
  is_Some (themeIcon st) -> is_Some (themeToggle st) ->
  agrees theme (state_of (applyTheme theme st)).
Proof.
  intros [icon Hi] [b Hb]. rewrite (applyTheme_complete theme st icon b Hi Hb).
  unfold agrees, getItem, attribute_of, icon_of, title_of. simpl.
  by rewrite lookup_insert_eq, last_snoc.
Qed.

Lemma agrees_elements (theme : jsstring) (st : state) :
  agrees theme st -> is_Some (themeIcon st) /\ is_Some (themeToggle st).
Proof.
  intros (_ & _ & Hicon & Htitle & _). split; [by eexists|].
  destruct (themeToggle st); [by eexists | done].
Qed.

(** On a page with both elements the title set by
    [improveAccessibility] is the one [applyTheme] has just set. *)
Lemma pageLoad_initThemeToggle (st : state) :
  is_Some (themeIcon st) -> is_Some (themeToggle st) ->
  pageLoad st = initThemeToggle st
  /\ pageLoad st = Normal (state_of (applyTheme (getPreferredTheme st) st)).
Proof.
  intros [icon Hi] [b Hb]. unfold pageLoad, initThemeToggle.
  pose proof (getPreferredTheme_nonempty st) as Hne.
  set (theme := getPreferredTheme st) in *.
  rewrite (applyTheme_complete theme st icon b Hi Hb). cbn [bind state_of].
  unfold improveAccessibility. cbn [themeToggle].
  erewrite (getPreferredTheme_stored theme); [done | | done].
  unfold getItem. simpl. by rewrite lookup_insert_eq.
Qed.

Lemma timeoutFired_agrees (theme : jsstring) (st : state) :
  agrees theme st -> agrees theme (timeoutFired st).
Proof.
  intros (Hsaved & Hattr & Hicon & Htitle & Hlast).
  unfold timeoutFired, agrees, getItem in *.
  destruct (themeToggle st) as [b|]; simpl in *; done.
Qed.

Lemma agrees_dark (st : state) : agrees THEMES.DARK st -> dark_page st.
Proof.
  unfold agrees, dark_page, attribute_of, icon_of, title_of.
  rewrite (bool_decide_eq_false_2 (THEMES.DARK = THEMES.LIGHT))
    by apply dark_is_not_light.
  rewrite (bool_decide_eq_true_2 (THEMES.DARK = THEMES.DARK)) by done.
  intros (H1 & H2 & H3 & H4 & H5). by repeat split.
Qed.

Lemma agrees_light (st : state) : agrees THEMES.LIGHT st -> light_page st.
Proof.
  unfold agrees, light_page, attribute_of, icon_of, title_of.
  rewrite (bool_decide_eq_true_2 (THEMES.LIGHT = THEMES.LIGHT)) by done.
  rewrite (bool_decide_eq_false_2 (THEMES.LIGHT = THEMES.DARK))
    by (intros H; by apply dark_is_not_light).
  intros (H1 & H2 & H3 & H4 & H5). by repeat split.
Qed.

(** A step that names no other string keeps the page with one of the
    two themes. *)
Lemma step_agrees (e : event) (theme : jsstring) (st : state) :
  theme = THEMES.DARK \/ theme = THEMES.LIGHT ->
  agrees theme st -> names_a_theme e ->
  exists theme',
    (theme' = THEMES.DARK \/ theme' = THEMES.LIGHT) /\ agrees theme' (step e st).
Proof.
  intros Htheme Hst He.
  destruct (agrees_elements theme st Hst) as [Hicon Htoggle].
  destruct e as [|theme'|matches|]; cbn [step].
  - destruct Hicon as [icon Hi], Htoggle as [b Hb].
    rewrite (toggleTheme_complete st icon b Hi Hb). cbn [state_of].
    exists (if bool_decide (data_theme st = Some THEMES.LIGHT)
            then THEMES.DARK else THEMES.LIGHT).
    split; [case_bool_decide; by auto|].
    unfold agrees, getItem, attribute_of, icon_of, title_of. simpl.
    rewrite lookup_insert_eq, last_snoc. by case_bool_decide.
  - exists theme'. split; [exact He|]. by apply applyTheme_agrees.
  - unfold handleSystemThemeChange.
    destruct (negb (truthy_item (getItem storage_key st))).
    + exists (if matches then THEMES.LIGHT else THEMES.DARK).
      split; [destruct matches; by auto|]. by apply applyTheme_agrees.
    + by exists theme.
  - exists theme. split; [done|]. by apply timeoutFired_agrees.
Qed.

Lemma run_agrees (events : list event) (theme : jsstring) (st : state) :
  theme = THEMES.DARK \/ theme = THEMES.LIGHT ->
  agrees theme st -> Forall names_a_theme events ->
  exists theme',
    (theme' = THEMES.DARK \/ theme' = THEMES.LIGHT)
    /\ agrees theme' (run events st).
Proof.
  unfold run. revert theme st.
  induction events as [|e events IH]; intros theme st Htheme Hst Hevents;
    [by exists theme|].
  apply Forall_cons in Hevents as [He Hevents].
  destruct (step_agrees e theme st Htheme Hst He) as (theme' & Htheme' & Hstep).
  simpl. by apply (IH theme').
Qed.

(** A page load with nothing, the empty string or one of the two
    themes stored resolves to one of the two themes. *)
Lemma getPreferredTheme_theme (st : state) :
  (forall saved, getItem storage_key st = Some saved ->
     saved = [] \/ saved = THEMES.DARK \/ saved = THEMES.LIGHT) ->
  getPreferredTheme st = THEMES.DARK \/ getPreferredTheme st = THEMES.LIGHT.
Proof.
  intros Hsaved. unfold getPreferredTheme.
  destruct (getItem storage_key st) as [saved|]; [|case_bool_decide; by auto].
  destruct (Hsaved saved eq_refl) as [-> | [-> | ->]]; simpl;
    [case_bool_decide; by auto | by left | by right].
Qed.

(** X26.  On a page with the icon and the toggle button, loaded with
    nothing, the empty string, ['dark'] or ['light'] stored under the
    theme key: after the page load and any sequence of toggles, OS
    preference changes, animation timers and [setTheme] calls with
    ['dark'] or ['light'], the page is wholly dark or wholly light:
    attribute absent, moon icon, title "Switch to light mode",
    ['dark'] stored and dispatched last, or attribute ['light'], sun
    icon, title "Switch to dark mode", ['light'] stored and dispatched
    last.  A [setTheme] call with any other string breaks this: the
    page then looks dark, the string is stored, and the title offers
    the dark mode. *)
Theorem theme_parts_agree (events : list event) (st0 : state) :
  is_Some (themeIcon st0) -> is_Some (themeToggle st0) ->
  (forall saved, getItem storage_key st0 = Some saved ->
     saved = [] \/ saved = THEMES.DARK \/ saved = THEMES.LIGHT) ->
  Forall names_a_theme events ->
  let st := run events (state_of (pageLoad st0)) in
  (dark_page st \/ light_page st)
  /\ (forall other, other <> THEMES.DARK -> other <> THEMES.LIGHT ->
        let st' := step (SetTheme other) st in
        data_theme st' = None
        /\ themeIcon st' = Some ICONS.DARK
        /\ (title <$> themeToggle st') = Some (Some (js "Switch to dark mode"))
        /\ getItem storage_key st' = Some other).
Proof.
  intros Hicon Htoggle Hsaved Hevents st.
  destruct (pageLoad_initThemeToggle st0 Hicon Htoggle) as [_ Hload].
  destruct (run_agrees events (getPreferredTheme st0)
              (state_of (applyTheme (getPreferredTheme st0) st0)))
    as (theme & Htheme & Hagrees);
    [by apply getPreferredTheme_theme | by apply applyTheme_agrees | done |].
  assert (Hst : st = run events (state_of (applyTheme (getPreferredTheme st0) st0))).
  { subst st. by rewrite Hload. }
  rewrite <- Hst in Hagrees. split.
  - destruct Htheme as [-> | ->];
      [left; by apply agrees_dark | right; by apply agrees_light].
  - intros other Hdark Hlight st'.
    destruct (agrees_elements theme st Hagrees) as [Hi Hb].
    pose proof (applyTheme_agrees other st Hi Hb) as (H1 & H2 & H3 & H4 & _).
    fold (step (SetTheme other) st) in H1, H2, H3, H4. fold st' in H1, H2, H3, H4.
    unfold attribute_of in H2. unfold icon_of in H3. unfold title_of in H4.
    rewrite (bool_decide_eq_false_2 (other = THEMES.LIGHT)) in H2, H3 by done.
    rewrite (bool_decide_eq_false_2 (other = THEMES.DARK)) in H4 by done.
    by repeat split.
Qed.

Lemma theme_parts_agree_witness :
  let st :=
    run [Toggle; SystemChange true; Timeout; SetTheme (js "light"); Toggle]
      (state_of (pageLoad (page_before_load (Some false)))) in
  dark_page st \/ light_page st.
Proof.
  intros st.
  apply (theme_parts_agree
           [Toggle; SystemChange true; Timeout; SetTheme (js "light"); Toggle]
           (page_before_load (Some false))).
  - by eexists.
  - by eexists.
  - intros saved Hsaved. simpl in Hsaved. unfold getItem in Hsaved. simpl in Hsaved.
    by rewrite lookup_empty in Hsaved.
  - constructor; [exact I|]. constructor; [exact I|]. constructor; [exact I|].
    constructor; [by right|]. constructor; [exact I|]. constructor.
Defined.

(** X27.  A first visit: with nothing (or the empty string) stored
    under the theme key, the page load on a page with both elements
    returns normally with the light theme if the OS prefers light and
    the dark theme otherwise (also without [matchMedia]); stored value,
    attribute, icon, title and event agree on it, and since a value is
    now stored the OS preference listener changes nothing from then
    on. *)
Theorem pageLoad_first_visit (st : state) :
  is_Some (themeIcon st) -> is_Some (themeToggle st) ->
  getItem storage_key st = None \/ getItem storage_key st = Some [] ->
  let theme :=
    if bool_decide (prefersLight st = Some true) then THEMES.LIGHT
    else THEMES.DARK in
  exists st',
    pageLoad st = Normal st'
    /\ agrees theme st'
    /\ getCurrentTheme st' = theme
    /\ forall matches, handleSystemThemeChange matches st' = Normal st'.
Proof.
  intros Hicon Htoggle Hsaved theme.
  destruct (pageLoad_initThemeToggle st Hicon Htoggle) as [_ ->].
  rewrite (getPreferredTheme_system st Hsaved). fold theme.
  pose proof (applyTheme_agrees theme st Hicon Htoggle) as Hagrees.
  eexists. split; [reflexivity|]. split; [exact Hagrees|].
  destruct Hagrees as (Hstored & Hattr & _). split.
  - unfold getCurrentTheme. rewrite Hattr. subst theme.
    by case_bool_decide.
  - intros matches. unfold handleSystemThemeChange. rewrite Hstored.
    subst theme. by case_bool_decide.
Qed.

Lemma pageLoad_first_visit_witness :
  exists st',
    pageLoad (page_before_load None) = Normal st'
    /\ agrees THEMES.DARK st'
    /\ handleSystemThemeChange true st' = Normal st'.
Proof.
  destruct (pageLoad_first_visit (page_before_load None)) as (st' & H1 & H2 & _ & H3).
  - by eexists.
  - by eexists.
  - by left.
  - exists st'. split; [exact H1|]. split; [exact H2 | exact (H3 true)].
Defined.

(** X28.  The stored theme survives a new page load.  When the page is
    opened again with a non-empty value stored under the theme key, the
    page load applies that value whatever the OS prefers: stored value,
    attribute, icon, title and event agree on it. *)
Theorem stored_theme_reapplied (theme : jsstring) (markup old : state) :
  is_Some (themeIcon markup) -> is_Some (themeToggle markup) ->
  getItem storage_key old = Some theme -> theme <> [] ->
  exists st',
    pageLoad (reopened markup old) = Normal st' /\ agrees theme st'.
Proof.
  intros Hicon Htoggle Hsaved Hne.
  destruct (pageLoad_initThemeToggle (reopened markup old)) as [_ ->];
    [done | done |].
  rewrite (getPreferredTheme_stored theme) by done.
  eexists. split; [reflexivity|]. by apply applyTheme_agrees.
Qed.

Lemma stored_theme_reapplied_witness :
  let old := run [Toggle] (state_of (pageLoad (page_before_load (Some false)))) in
  exists st',
    pageLoad (reopened (page_before_load (Some false)) old) = Normal st'
    /\ agrees THEMES.LIGHT st'.
Proof.
  intros old.
  apply (stored_theme_reapplied THEMES.LIGHT (page_before_load (Some false)) old).
  - by eexists.
  - by eexists.
  - reflexivity.
  - by vm_compute.
Defined.

Lemma animation_removed (classes : gset string) :
  "animate-rotate-in" ∉ classes ∖ {["animate-rotate-in"]}.
Proof. rewrite elem_of_difference, elem_of_singleton. by intros [_ H]. Qed.

(** One step keeps: both elements are there, and the animation class
    is on the button only while a timer is pending. *)
Lemma step_animation (e : event) (st : state) :
  is_Some (themeIcon st) -> is_Some (themeToggle st) ->
  (animating st -> (0 < timeouts st)%nat) ->
  animating (step e st) -> (0 < timeouts (step e st))%nat.
Proof.
  intros [icon Hi] [b Hb] Hst. destruct e as [|theme|matches|]; cbn [step].
  - rewrite (toggleTheme_complete st icon b Hi Hb). simpl. lia.
  - rewrite (applyTheme_complete theme st icon b Hi Hb). simpl.
    intros (b' & [= <-] & Hin). apply Hst. by exists b.
  - destruct (handleSystemThemeChange_cases matches st) as [-> | [theme ->]];
      [done|].
    rewrite (applyTheme_complete theme st icon b Hi Hb). simpl.
    intros (b' & [= <-] & Hin). apply Hst. by exists b.
  - unfold timeoutFired. rewrite Hb. simpl.
    intros (b' & [= <-] & Hin). by apply animation_removed in Hin.
Qed.

(** X29.  On a page with both elements whose button does not carry the
    animation class when the script starts, in every state reached by
    the page load and later events the button carries the animation
    class only while a timer that removes it is pending. *)
Theorem animation_class_has_timer (events : list event) (st0 : state) :
  is_Some (themeIcon st0) -> is_Some (themeToggle st0) ->
  at_rest st0 ->
  let st := run events (state_of (pageLoad st0)) in
  animating st -> (0 < timeouts st)%nat.
Proof.
  intros Hicon Htoggle [Hrest _].
  destruct (pageLoad_initThemeToggle st0 Hicon Htoggle) as [_ ->].
  cbn [state_of].
  assert (Hstart : animating (state_of (applyTheme (getPreferredTheme st0) st0))
                   -> (0 < timeouts (state_of (applyTheme (getPreferredTheme st0)
                                                 st0)))%nat).
  { destruct Hicon as [icon Hi], Htoggle as [b Hb].
    rewrite (applyTheme_complete _ st0 icon b Hi Hb). simpl.
    intros (b' & [= <-] & Hin). destruct Hrest. by exists b. }
  apply applyTheme_themeIcon with (theme := getPreferredTheme st0) in Hicon.
  apply applyTheme_themeToggle with (theme := getPreferredTheme st0) in Htoggle.
  revert Hicon Htoggle Hstart.
  generalize (state_of (applyTheme (getPreferredTheme st0) st0)).
  unfold run. induction events as [|e events IH]; intros st Hicon Htoggle Hst;
    [done|].
  simpl. apply IH.
  - by apply step_elements.
  - by apply step_elements.
  - by apply step_animation.
Qed.

Lemma animation_class_has_timer_witness :
  let st := run [Toggle; Timeout; Toggle]
              (state_of (pageLoad (page_before_load (Some false)))) in
  animating st /\ (0 < timeouts st)%nat.
Proof.
  intros st.
  assert (Hanim : animating st).
  { eexists. split; [reflexivity|]. by apply elem_of_union_l, elem_of_singleton. }
  split; [exact Hanim|].
  apply (animation_class_has_timer [Toggle; Timeout; Toggle]
           (page_before_load (Some false))).
  - by eexists.
  - by eexists.
  - split; [|reflexivity].
    intros (b & [= <-] & Hin). by apply not_elem_of_empty in Hin.
  - exact Hanim.
Defined.

(** X30.  A toggle on a page with the button but without the icon
    element throws while the icon is written: by then the animation
    class is on the button and the data-theme attribute has changed
    sides, but nothing is stored, no event is dispatched and no timer
    is set, so the animation class stays. *)
Theorem toggleTheme_without_icon (st : state) (b : button) :
  themeIcon st = None -> themeToggle st = Some b ->
  exists st',
    toggleTheme st = Thrown TypeError st'
    /\ animating st'
    /\ timeouts st' = timeouts st
    /\ localStorage st' = localStorage st
    /\ dispatched st' = dispatched st
    /\ data_theme st'
       = (if bool_decide (data_theme st = Some THEMES.LIGHT)
          then None else Some THEMES.LIGHT).
Proof.
  intros Hi Hb. unfold toggleTheme. rewrite Hb.
  unfold applyTheme, write_icon.
  destruct (bool_decide (data_theme st = Some THEMES.LIGHT)).
  - rewrite (bool_decide_eq_false_2 (THEMES.DARK = THEMES.LIGHT))
      by apply dark_is_not_light.
    simpl. rewrite Hi. simpl. eexists. split; [reflexivity|]. simpl.
    split; [|done]. eexists. split; [reflexivity|].
    by apply elem_of_union_l, elem_of_singleton.
  - rewrite (bool_decide_eq_true_2 (THEMES.LIGHT = THEMES.LIGHT)) by done.
    simpl. rewrite Hi. simpl. eexists. split; [reflexivity|]. simpl.
    split; [|done]. eexists. split; [reflexivity|].
    by apply elem_of_union_l, elem_of_singleton.
Qed.

Lemma toggleTheme_without_icon_witness :
  let st := {| data_theme := None; themeIcon := None;
               themeToggle := Some {| title := None; classList := ∅ |};
               localStorage := ∅; prefersLight := None;
               dispatched := []; timeouts := 0 |} in
  exists st',
    toggleTheme st = Thrown TypeError st'
    /\ animating st' /\ timeouts st' = 0%nat.
Proof.
  intros st.
  destruct (toggleTheme_without_icon st {| title := None; classList := ∅ |}
              eq_refl eq_refl) as (st' & Hcall & Hanim & Htimer & _).
  exists st'. split; [exact Hcall|]. split; [exact Hanim | exact Htimer].
Defined.
End ThemePageFacts.
